(** * Packet pipeline: exchange buffer, reordering buffer, priority router

    A shallow embedding of the packet ingestion, sequencing and priority
    dispatch code ([Packet], [SPSCRingBuffer], [ReorderingBuffer],
    [PriorityRouter]) and the properties stated about it.

    Conventions.
    - Unsigned machine integers are [Z] with the wrap-around written out
      ([u64], [size_t]).
    - Every method is a function from the object's state to a result and
      the new state; an access outside an array is a result of its own.
    - The methods of [ReorderingBuffer] run under its mutex [mu_]; a run of
      several threads is the sequence of their critical sections.
      [cv_.wait_until] gives the mutex up while it blocks, so what other
      threads insert in the meantime is part of the state in which the
      caller resumes: [getNext] is applied to that state, and
      [getNext_blocking] puts the wait in front of it. *)

From Stdlib Require Import ZArith Lia Bool List Sorted Permutation.
From stdpp Require Import base decidable option list gmap.

Local Open Scope Z_scope.

(** ** Machine integers *)

Definition u64 (x : Z) : Z := x mod 2 ^ 64.
Definition size_t (x : Z) : Z := x mod 2 ^ 64.
Definition UINT64_MAX : Z := 2 ^ 64 - 1.

(** ** Packet *)

Inductive Priority : Type :=
| REAL_TIME
| STREAMING
| BULK
| CONTROL.

(** The enumerators' values, [static_cast<uint8_t>(priority)]. *)
Definition Priority_u8 (p : Priority) : Z :=
  match p with
  | REAL_TIME => 0
  | STREAMING => 1
  | BULK => 2
  | CONTROL => 3
  end.

Definition Priority_eqb (p q : Priority) : bool :=
  Priority_u8 p =? Priority_u8 q.

Record Packet : Type := mkPacket {
  sequence_number : Z;
  priority : Priority;
  source_satellite_id : Z;
  destination_id : Z;
  arrival_time : Z;
  payload : list Z
}.

(** [Packet::operator>]. *)
Definition Packet_gt (p other : Packet) : bool :=
  if negb (Priority_eqb (priority p) (priority other)) then
    if Priority_eqb (priority p) CONTROL then false
    else if Priority_eqb (priority other) CONTROL then true
    else Priority_u8 (priority p) >? Priority_u8 (priority other)
  else sequence_number p >? sequence_number other.

(** The order of the traffic classes as the design words it: CONTROL
    first, then REAL_TIME, then STREAMING, then BULK. *)
Definition dispatch_rank (p : Priority) : Z :=
  match p with
  | CONTROL => 0
  | REAL_TIME => 1
  | STREAMING => 2
  | BULK => 3
  end.

(** [a] may be handed out before [b]: its class is not behind the class
    of [b], and within one class its sequence number is not larger. *)
Definition dispatched_before (a b : Packet) : Prop :=
  dispatch_rank (priority a) <= dispatch_rank (priority b) /\
  (priority a = priority b -> sequence_number a <= sequence_number b).

(** ** SPSCRingBuffer *)

Module SPSCRingBuffer.
Section spsc.

Context {T : Type}.
(** The template parameter. *)
Variable Capacity : Z.
(** [T()], with which [std::array] fills the slots. *)
Variable T_default : T.
(** The value [std::move] leaves behind in its source. *)
Variable moved_from : T -> T.

Record t : Type := mk {
  head_ : Z;
  tail_ : Z;
  buffer_ : list T
}.

Definition new : t :=
  {| head_ := 0; tail_ := 0;
     buffer_ := replicate (Z.to_nat Capacity) T_default |}.

(** [tryPush(T&& item)]: the flag returned, the caller's [item] after the
    call, and the buffer. *)
Definition tryPush (item : T) (rb : t) : bool * T * t :=
  let head := head_ rb in
  let next := Z.land (size_t (head + 1)) (size_t (Capacity - 1)) in
  if next =? tail_ rb then (false, item, rb)
  else (true, moved_from item,
        {| head_ := next; tail_ := tail_ rb;
           buffer_ := <[Z.to_nat head := item]> (buffer_ rb) |}).

(** [tryPop()]. The index is below [Capacity] in every buffer built from
    [new] ([wf]); a read outside the array has no defined result, the
    model gives [T_default] there. *)
Definition tryPop (rb : t) : option T * t :=
  let tail := tail_ rb in
  if tail =? head_ rb then (None, rb)
  else
    let item := default T_default (buffer_ rb !! Z.to_nat tail) in
    (Some item,
     {| head_ := head_ rb;
        tail_ := Z.land (size_t (tail + 1)) (size_t (Capacity - 1));
        buffer_ := <[Z.to_nat tail := moved_from item]> (buffer_ rb) |}).

Definition empty (rb : t) : bool := head_ rb =? tail_ rb.

(** Full: the slot after the producer's index is the consumer's. *)
Definition full (rb : t) : Prop :=
  Z.land (size_t (head_ rb + 1)) (size_t (Capacity - 1)) = tail_ rb.

Definition size (rb : t) : Z :=
  Z.land (size_t (head_ rb - tail_ rb)) (size_t (Capacity - 1)).

(** The states the two threads can reach. *)
Definition wf (rb : t) : Prop :=
  0 <= head_ rb < Capacity /\ 0 <= tail_ rb < Capacity /\
  length (buffer_ rb) = Z.to_nat Capacity.

(** Pushing a list of items one after the other: the flags returned. *)
Fixpoint push_all (items : list T) (rb : t) : list bool * t :=
  match items with
  | [] => ([], rb)
  | x :: items' =>
      let '(ok, _, rb1) := tryPush x rb in
      let '(oks, rb2) := push_all items' rb1 in
      (ok :: oks, rb2)
  end.

End spsc.
End SPSCRingBuffer.

(** ** ReorderingBuffer *)

Module ReorderingBuffer.

Record t : Type := mk {
  buffer_ : gmap Z Packet;
  next_expected_seq_ : Z;
  timeout_ : Z;
  last_insert_time_ : Z;
  running_ : bool;
  total_received_ : Z;
  total_released_ : Z;
  total_gaps_ : Z
}.

(** The constructor; [timeout] is [timeout_ms] as a clock duration. *)
Definition new (start_seq timeout : Z) : t :=
  {| buffer_ := ∅;
     next_expected_seq_ := start_seq;
     timeout_ := timeout;
     last_insert_time_ := 0;
     running_ := true;
     total_received_ := 0;
     total_released_ := 0;
     total_gaps_ := 0 |}.

(** [insert(pkt)]; [now] is the reading of [Clock::now()]. *)
Definition insert (now : Z) (pkt : Packet) (s : t) : t :=
  {| buffer_ := <[sequence_number pkt := pkt]> (buffer_ s);
     next_expected_seq_ := next_expected_seq_ s;
     timeout_ := timeout_ s;
     last_insert_time_ := now;
     running_ := running_ s;
     total_received_ := u64 (total_received_ s + 1);
     total_released_ := total_released_ s;
     total_gaps_ := total_gaps_ s |}.

(** [buffer_.count(k)] as a truth value and [buffer_.empty()]. *)
Definition count (k : Z) (m : gmap Z Packet) : bool :=
  match m !! k with Some _ => true | None => false end.

Definition is_empty (m : gmap Z Packet) : bool := Nat.eqb (size m) 0.

(** The predicate handed to [cv_.wait_until]. *)
Definition wait_pred (s : t) : bool :=
  negb (running_ s) || count (next_expected_seq_ s) (buffer_ s).

(** [cv_.wait_until(lock, deadline, pred)] resumes in [s]. It returns
    [true] when [pred] holds there (at once, when it holds on entry) and
    [false] exactly when the deadline has passed and [pred] still fails. *)
Definition wait_until (s : t) : bool := wait_pred s.

(** The call's deadline elapsed without [pred] becoming true. *)
Definition deadline_elapsed (s : t) : bool := negb (wait_until s).

(** Erase the entry at [next_expected_seq_], advance it, count a release. *)
Definition release (s : t) : t :=
  {| buffer_ := delete (next_expected_seq_ s) (buffer_ s);
     next_expected_seq_ := u64 (next_expected_seq_ s + 1);
     timeout_ := timeout_ s;
     last_insert_time_ := last_insert_time_ s;
     running_ := running_ s;
     total_received_ := total_received_ s;
     total_released_ := u64 (total_released_ s + 1);
     total_gaps_ := total_gaps_ s |}.

(** [total_gaps_++; next_expected_seq_++]. *)
Definition skip (s : t) : t :=
  {| buffer_ := buffer_ s;
     next_expected_seq_ := u64 (next_expected_seq_ s + 1);
     timeout_ := timeout_ s;
     last_insert_time_ := last_insert_time_ s;
     running_ := running_ s;
     total_received_ := total_received_ s;
     total_released_ := total_released_ s;
     total_gaps_ := u64 (total_gaps_ s + 1) |}.

(** [getNext()], from the point where [wait_until] has returned. The loop
    of the gap branch returns in its first iteration. *)
Definition getNext (s : t) : option Packet * t :=
  let _ := wait_until s in
  if negb (running_ s) && is_empty (buffer_ s) then (None, s)
  else
    match buffer_ s !! next_expected_seq_ s with
    | Some pkt => (Some pkt, release s)
    | None =>
        let s1 := skip s in
        match buffer_ s1 !! next_expected_seq_ s1 with
        | Some pkt => (Some pkt, release s1)
        | None => (None, s1)
        end
    end.

Definition stop (s : t) : t :=
  {| buffer_ := buffer_ s;
     next_expected_seq_ := next_expected_seq_ s;
     timeout_ := timeout_ s;
     last_insert_time_ := last_insert_time_ s;
     running_ := false;
     total_received_ := total_received_ s;
     total_released_ := total_released_ s;
     total_gaps_ := total_gaps_ s |}.

(** The wait spelled out. While the caller is blocked the mutex is free
    and other threads call [insert] and [stop]; [others] lists these calls
    in the order in which they take effect, each with the clock reading
    at which it does. The wait tests [pred] whenever it holds the mutex:
    it ends in the first state in which [pred] holds, or, with [pred]
    still false, once nothing more happens before the deadline. *)
Inductive other_call : Type :=
| OtherInsert (pkt : Packet)
| OtherStop.

Definition other_step (clock : Z) (o : other_call) (s : t) : t :=
  match o with
  | OtherInsert pkt => insert clock pkt s
  | OtherStop => stop s
  end.

Fixpoint blocking_wait (deadline : Z) (others : list (Z * other_call))
    (s : t) : bool * t :=
  if wait_pred s then (true, s)
  else
    match others with
    | [] => (false, s)
    | (clock, o) :: others' =>
        if clock <? deadline
        then blocking_wait deadline others' (other_step clock o s)
        else (false, s)
    end.

(** The whole call, entered at clock reading [now]. *)
Definition getNext_blocking (now : Z) (others : list (Z * other_call))
    (s : t) : option Packet * t :=
  let deadline := now + timeout_ s in
  getNext (blocking_wait deadline others s).2.

(** The two ways in which [getNext] resumes without the awaited packet
    and goes on to skip it: its deadline elapsed, or the buffer was shut
    down while other packets are pending. *)
Definition resumes_unserved (s : t) : Prop :=
  deadline_elapsed s = true \/
  (running_ s = false /\ buffer_ s <> ∅ /\
   buffer_ s !! next_expected_seq_ s = None).

(** The buffer is shut down and holds nothing. *)
Definition terminal (s : t) : Prop := running_ s = false /\ buffer_ s = ∅.

(** What the fields' types guarantee, and that [buffer_] files every
    packet under its own sequence number. *)
Definition wf (s : t) : Prop :=
  0 <= next_expected_seq_ s < 2 ^ 64 /\
  0 <= total_received_ s < 2 ^ 64 /\
  0 <= total_released_ s < 2 ^ 64 /\
  0 <= total_gaps_ s < 2 ^ 64 /\
  (forall k p, buffer_ s !! k = Some p -> sequence_number p = k).

(** *** Runs *)

Inductive op : Type :=
| Insert (now : Z) (pkt : Packet)
| GetNext
| Stop.

(** One call: the packet it hands to its caller, if any, and the state. *)
Definition step (o : op) (s : t) : option Packet * t :=
  match o with
  | Insert now pkt => (None, insert now pkt s)
  | GetNext => getNext s
  | Stop => (None, stop s)
  end.

Fixpoint run (ops : list op) (s : t) : list (option Packet) * t :=
  match ops with
  | [] => ([], s)
  | o :: ops' =>
      let '(r, s1) := step o s in
      let '(rs, s2) := run ops' s1 in
      (r :: rs, s2)
  end.

(** The sequence numbers released over a run, in the order of release. *)
Definition released_seqs (ops : list op) (s : t) : list Z :=
  sequence_number <$> omap id (run ops s).1.

(** No call of the run wraps [next_expected_seq_] around [2 ^ 64]: a
    wrapping increment is the only way for it to decrease. *)
Fixpoint never_wraps (ops : list op) (s : t) : bool :=
  match ops with
  | [] => true
  | o :: ops' =>
      let s1 := (step o s).2 in
      (next_expected_seq_ s <=? next_expected_seq_ s1) && never_wraps ops' s1
  end.

Definition insert_all (pkts : list (Z * Packet)) (s : t) : t :=
  (run (map (fun x => Insert x.1 x.2) pkts) s).2.

(** The sequence numbers of the packets inserted are exactly [start],
    [start + 1], ..., [start + n - 1] (in any order, repeats allowed). *)
Definition contiguous_from (start : Z) (n : nat) (pkts : list (Z * Packet))
  : Prop :=
  Forall (fun x => start <= sequence_number x.2 < start + Z.of_nat n) pkts /\
  Forall (fun q => q ∈ (fun x => sequence_number x.2) <$> pkts)
         (seqZ start (Z.of_nat n)).

(** [n] calls of [getNext] in a row: for each, whether its deadline
    elapsed, and what it returned. *)
Fixpoint getNext_n (n : nat) (s : t) : list (bool * option Packet) * t :=
  match n with
  | O => ([], s)
  | S n' =>
      let '(r, s1) := getNext s in
      let '(rs, s2) := getNext_n n' s1 in
      ((deadline_elapsed s, r) :: rs, s2)
  end.

End ReorderingBuffer.

(** ** std::priority_queue *)

(** The adaptor is taken by its contract: [top()] is an element [t] of
    the queue such that [comp t x] fails for every element [x], and
    [pop()] removes it. The layout of the heap inside the underlying
    vector is not represented: [push] adds to the front, and
    [extract_top] scans for the top, keeping, among elements that [comp]
    does not separate, the one nearest the front. *)
Module priority_queue.
Section pq.

Context {A : Type}.
Variable comp : A -> A -> bool.

Definition push (x : A) (c : list A) : list A := x :: c.

Fixpoint extract_top (c : list A) : option (A * list A) :=
  match c with
  | [] => None
  | x :: c' =>
      match extract_top c' with
      | None => Some (x, [])
      | Some (y, rest) =>
          if comp x y then Some (y, x :: rest) else Some (x, c')
      end
  end.

Definition top (c : list A) : option A := fst <$> extract_top c.

Definition pop (c : list A) : list A :=
  match extract_top c with
  | Some (_, rest) => rest
  | None => c
  end.

Definition empty (c : list A) : bool :=
  match c with [] => true | _ => false end.

End pq.
End priority_queue.

(** ** PriorityRouter *)

Module PriorityRouter.

(** What a call does when it leaves defined behaviour. *)
Inductive fault : Type :=
| ModuloByZero
| MutexIndexOutOfRange
| QueueIndexOutOfRange.

Inductive result (A : Type) : Type :=
| Ok (a : A)
| Undefined (f : fault).
Arguments Ok {A} a.
Arguments Undefined {A} f.

#[global] Instance result_bind : MBind result :=
  fun A B k m =>
    match m with
    | Ok a => k a
    | Undefined f => Undefined f
    end.

#[global] Instance result_ret : MRet result := fun A a => Ok a.

(** [std::array<std::mutex, 16> queue_mutexes_]. *)
Definition NUM_MUTEXES : Z := 16.

Definition int32 (x : Z) : Z := (x + 2 ^ 31) mod 2 ^ 32 - 2 ^ 31.

Record t : Type := mk {
  queues_ : list (list Packet);
  queue_sizes_ : list Z;
  total_routed_ : Z
}.

(** The constructor. A negative count, converted to the vectors' size
    type, makes them throw: no router is built. *)
Definition new (num_output_queues : Z) : option t :=
  if num_output_queues <? 0 then None
  else Some {| queues_ := replicate (Z.to_nat num_output_queues) [];
               queue_sizes_ := replicate (Z.to_nat num_output_queues) 0;
               total_routed_ := 0 |}.

(** The index [route] computes for a packet. *)
Definition queue_index (pkt : Packet) (r : t) : Z :=
  destination_id pkt mod Z.of_nat (length (queues_ r)).

(** [queue_mutexes_[queue_idx]] is an element of the array. *)
Definition mutex_in_range (queue_idx : Z) : bool :=
  (0 <=? queue_idx) && (queue_idx <? NUM_MUTEXES).

Definition route (pkt : Packet) (r : t) : result t :=
  if Z.of_nat (length (queues_ r)) =? 0 then Undefined ModuloByZero
  else
    let queue_idx := queue_index pkt r in
    if negb (mutex_in_range queue_idx) then Undefined MutexIndexOutOfRange
    else
      Ok {| queues_ :=
              alter (priority_queue.push pkt) (Z.to_nat queue_idx) (queues_ r);
            queue_sizes_ :=
              alter (fun n => int32 (n + 1)) (Z.to_nat queue_idx)
                    (queue_sizes_ r);
            total_routed_ := u64 (total_routed_ r + 1) |}.

Definition dequeue (queue_idx : Z) (r : t) : result (option Packet * t) :=
  if negb (mutex_in_range queue_idx) then Undefined MutexIndexOutOfRange
  else
    match queues_ r !! Z.to_nat queue_idx with
    | None => Undefined QueueIndexOutOfRange
    | Some q =>
        if priority_queue.empty q then Ok (None, r)
        else
          match priority_queue.top Packet_gt q with
          | None => Ok (None, r)
          | Some pkt =>
              Ok (Some pkt,
                  {| queues_ :=
                       <[Z.to_nat queue_idx := priority_queue.pop Packet_gt q]>
                         (queues_ r);
                     queue_sizes_ :=
                       alter (fun n => int32 (n - 1)) (Z.to_nat queue_idx)
                             (queue_sizes_ r);
                     total_routed_ := total_routed_ r |})
          end
    end.

(** Routing a list of packets in order. *)
Fixpoint route_all (pkts : list Packet) (r : t) : result t :=
  match pkts with
  | [] => Ok r
  | pkt :: pkts' => r1 ← route pkt r; route_all pkts' r1
  end.

(** [n] calls of [dequeue] on one queue: what each returned. *)
Fixpoint dequeue_n (n : nat) (queue_idx : Z) (r : t)
  : result (list (option Packet) * t) :=
  match n with
  | O => Ok ([], r)
  | S n' =>
      x ← dequeue queue_idx r;
      y ← dequeue_n n' queue_idx x.2;
      mret (x.1 :: y.1, y.2)
  end.

(** The packets of [pkts] that a router of [n] queues files under [q]. *)
Definition routed_to (n q : Z) (pkts : list Packet) : list Packet :=
  filter (fun pkt => destination_id pkt mod n = q) pkts.

End PriorityRouter.

(** ** Concrete inputs *)

(** A packet with the given sequence number and class, from satellite 1
    to destination 5, with an empty payload. *)
Definition sample_packet (seq : Z) (pr : Priority) : Packet :=
  {| sequence_number := seq; priority := pr; source_satellite_id := 1;
     destination_id := 5; arrival_time := 0; payload := [] |}.

(** A packet for the given destination. *)
Definition packet_to (dst : Z) : Packet :=
  {| sequence_number := 0; priority := BULK; source_satellite_id := 1;
     destination_id := dst; arrival_time := 0; payload := [] |}.


(** ** Runs of the pipeline's objects *)

(** The packets a run of the reordering buffer inserts, in order. *)
Definition inserted (ops : list ReorderingBuffer.op) : list Packet :=
  omap (fun o => match o with
                 | ReorderingBuffer.Insert _ pkt => Some pkt
                 | _ => None
                 end) ops.

(** The packets a run hands to its callers, in order. *)
Definition released (ops : list ReorderingBuffer.op) (s : ReorderingBuffer.t)
  : list Packet :=
  omap id (ReorderingBuffer.run ops s).1.

(** The packets pending in a buffer. *)
Definition pending (s : ReorderingBuffer.t) : list Packet :=
  snd <$> map_to_list (ReorderingBuffer.buffer_ s).

(** Calls on a router, in the order in which they take effect. *)
Inductive router_op : Type :=
| DoRoute (pkt : Packet)
| DoDequeue (queue_idx : Z).

(** A run of a router: what each [dequeue] returned, and the router. *)
Fixpoint router_run (ops : list router_op) (r : PriorityRouter.t)
  : PriorityRouter.result (list (option Packet) * PriorityRouter.t) :=
  match ops with
  | [] => mret ([], r)
  | DoRoute pkt :: ops' =>
      r1 ← PriorityRouter.route pkt r; router_run ops' r1
  | DoDequeue q :: ops' =>
      x ← PriorityRouter.dequeue q r;
      y ← router_run ops' x.2;
      mret (x.1 :: y.1, y.2)
  end.

(** The packets a run routes, latest first. *)
Definition routed (ops : list router_op) : list Packet :=
  omap (fun o => match o with DoRoute pkt => Some pkt | _ => None end) ops.

(** The depth counters say how long the queues are (as [int] values). *)
Definition sizes_agree (r : PriorityRouter.t) : Prop :=
  length (PriorityRouter.queue_sizes_ r) = length (PriorityRouter.queues_ r) /\
  forall (i : nat) (c : list Packet),
    PriorityRouter.queues_ r !! i = Some c ->
    PriorityRouter.queue_sizes_ r !! i =
      Some (PriorityRouter.int32 (Z.of_nat (length c))).

(** Calls on an exchange buffer, in the order in which they take effect,
    and what each returned. *)
Inductive spsc_op (T : Type) : Type :=
| DoPush (item : T)
| DoPop.
Arguments DoPush {T} item.
Arguments DoPop {T}.

Inductive spsc_result (T : Type) : Type :=
| Pushed (ok : bool)
| Popped (item : option T).
Arguments Pushed {T} ok.
Arguments Popped {T} item.

Section spsc_runs.

Context {T : Type}.
Variable Capacity : Z.
Variable T_default : T.
Variable moved_from : T -> T.

Definition spsc_step (o : spsc_op T) (rb : SPSCRingBuffer.t)
  : spsc_result T * SPSCRingBuffer.t :=
  match o with
  | DoPush item =>
      let '(ok, _, rb') := SPSCRingBuffer.tryPush Capacity moved_from item rb in
      (Pushed ok, rb')
  | DoPop =>
      let '(item, rb') :=
        SPSCRingBuffer.tryPop Capacity T_default moved_from rb in
      (Popped item, rb')
  end.

Fixpoint spsc_run (ops : list (spsc_op T)) (rb : SPSCRingBuffer.t)
  : list (spsc_result T) * SPSCRingBuffer.t :=
  match ops with
  | [] => ([], rb)
  | o :: ops' =>
      let '(x, rb1) := spsc_step o rb in
      let '(xs, rb2) := spsc_run ops' rb1 in
      (x :: xs, rb2)
  end.

(** The items between the consumer's index and the producer's, oldest
    first; [size()] says how many there are. *)
Definition spsc_contents (rb : SPSCRingBuffer.t) : list T :=
  (fun i : nat =>
     default T_default
       (SPSCRingBuffer.buffer_ rb
          !! Z.to_nat ((SPSCRingBuffer.tail_ rb + Z.of_nat i) mod Capacity)))
    <$> seq 0 (Z.to_nat (SPSCRingBuffer.size Capacity rb)).

End spsc_runs.

(** A first-in first-out queue that holds at most [bound] items, as the
    list of its items, oldest first: the behaviour a producer and a
    consumer expect of the exchange. *)
Definition fifo_step {T : Type} (bound : Z) (o : spsc_op T) (q : list T)
  : spsc_result T * list T :=
  match o with
  | DoPush item =>
      if Z.of_nat (length q) <? bound then (Pushed true, q ++ [item])
      else (Pushed false, q)
  | DoPop =>
      match q with
      | [] => (Popped None, [])
      | item :: q' => (Popped (Some item), q')
      end
  end.

Fixpoint fifo_run {T : Type} (bound : Z) (ops : list (spsc_op T)) (q : list T)
  : list (spsc_result T) * list T :=
  match ops with
  | [] => ([], q)
  | o :: ops' =>
      let '(x, q1) := fifo_step bound o q in
      let '(xs, q2) := fifo_run bound ops' q1 in
      (x :: xs, q2)
  end.

(** Pushes that succeeded less pops that returned an item. *)
Fixpoint net_stored {T : Type} (results : list (spsc_result T)) : Z :=
  match results with
  | [] => 0
  | Pushed true :: rest => net_stored rest + 1
  | Popped (Some _) :: rest => net_stored rest - 1
  | _ :: rest => net_stored rest
  end.

(** ** VisibilityGraph *)

(** The visibility graph of the same program. Its angles, distances and
    latencies are [double]s, which the functions below only store and
    pass on: [double] is a type parameter, and what the floating-point
    geometry decides is a function parameter. *)
Module VisibilityGraph.

Definition INT_MAX : Z := 2 ^ 31 - 1.

Section graph.

Context {double : Type}.

Record GeoCoord : Type := mkGeoCoord {
  lat_deg : double;
  lon_deg : double
}.

Record Satellite : Type := mkSatellite {
  sat_id : Z;
  sat_position : GeoCoord;
  altitude_km : double;
  orbital_plane : Z;
  sat_capacity_mbps : double
}.

Record GroundStation : Type := mkGroundStation {
  gs_id : Z;
  gs_position : GeoCoord;
  min_elevation_deg : double;
  gs_capacity_mbps : double
}.

Record VisibilityEdge : Type := mkEdge {
  satellite_id : Z;
  station_id : Z;
  elevation_deg : double;
  distance_km : double;
  estimated_latency_ms : double
}.

(** [satellitesVisibleFrom(station_id)]. *)
Definition satellitesVisibleFrom (edges_ : list VisibilityEdge) (station : Z)
  : list Z :=
  satellite_id <$> filter (fun edge => station_id edge = station) edges_.

(** [stationsCoveredBy(satellite_id)]. *)
Definition stationsCoveredBy (edges_ : list VisibilityEdge) (satellite : Z)
  : list Z :=
  station_id <$> filter (fun edge => satellite_id edge = satellite) edges_.

(** [m[k].push_back(v)] on a map of vectors, [m[k]++] on a map of
    counters: a key that is missing is first entered with an empty vector,
    with 0. *)
Definition push_back_at (k v : Z) (m : gmap Z (list Z)) : gmap Z (list Z) :=
  <[k := default [] (m !! k) ++ [v]]> m.

Definition increment_at (k : Z) (m : gmap Z Z) : gmap Z Z :=
  <[k := default 0 (m !! k) + 1]> m.

(** *** findCriticalSatellites *)

(** The first loop: [station_coverage_count] and [station_to_sats]. *)
Definition count_coverage (edges_ : list VisibilityEdge)
  : gmap Z Z * gmap Z (list Z) :=
  foldl (fun '(counts, sats) edge =>
           (increment_at (station_id edge) counts,
            push_back_at (station_id edge) (satellite_id edge) sats))
        (∅, ∅) edges_.

(** The second loop, over the entries of [station_coverage_count] in the
    order [entries]; [station_to_sats[station_id][0]] of a station that
    has a count has an element. *)
Definition collect_critical (entries : list (Z * Z)) (sats : gmap Z (list Z))
  : gset Z :=
  foldl (fun critical '(station, count) =>
           if count =? 1
           then match default [] (sats !! station) with
                | sat :: _ => {[sat]} ∪ critical
                | [] => critical
                end
           else critical)
        ∅ entries.

(** The vector built from the set holds its elements in some order. *)
Definition findCriticalSatellites (edges_ : list VisibilityEdge) : list Z :=
  let '(counts, sats) := count_coverage edges_ in
  elements (collect_critical (map_to_list counts) sats).

(** *** minimumCoverageSatellites *)

(** The coverage map: satellite id to the stations of its edges. *)
Definition coverage_map (edges_ : list VisibilityEdge) : gmap Z (list Z) :=
  foldl (fun coverage edge =>
           push_back_at (satellite_id edge) (station_id edge) coverage)
        ∅ edges_.

(** How many entries of [covered_stations] are still uncovered. The
    source counts in [int], as it does in [increment_at]: the count in
    [Z] is the same while there are no more than [INT_MAX] edges. *)
Definition count_uncovered (uncovered : gset Z) (covered_stations : list Z) : Z :=
  Z.of_nat (length (filter (fun s => s ∈ uncovered) covered_stations)).

(** The inner loop over the coverage map, in the order [entries]: the
    first satellite with the largest positive count, or [-1]. *)
Definition best_satellite (uncovered : gset Z) (entries : list (Z * list Z))
  : Z * Z :=
  foldl (fun '(best_sat, best_count) '(sat, covered_stations) =>
           let count := count_uncovered uncovered covered_stations in
           if count >? best_count then (sat, count) else (best_sat, best_count))
        (-1, 0) entries.

(** The while loop; [fuel] bounds its iterations. *)
Fixpoint cover_loop (fuel : nat) (entries : list (Z * list Z))
    (coverage : gmap Z (list Z)) (uncovered : gset Z) (selected : list Z)
  : option (list Z) :=
  match fuel with
  | O => None
  | S fuel' =>
      if decide (uncovered = ∅) then Some selected
      else
        let '(best_sat, best_count) := best_satellite uncovered entries in
        if best_sat =? -1 then Some selected
        else
          cover_loop fuel' entries coverage
            (uncovered ∖ list_to_set (default [] (coverage !! best_sat)))
            (selected ++ [best_sat])
  end.

(** [minimumCoverageSatellites()]. [uncovered] starts as the indices of
    the stations. The coverage map is traversed in the order [order] gives
    its entries: the order of an [unordered_map] is the library's, and
    stays the same while the map is not changed. Every round of the while
    loop that does not leave it removes a station from [uncovered], so one
    round more than there are stations is fuel enough. *)
Definition minimumCoverageSatellites
    (order : gmap Z (list Z) -> list (Z * list Z))
    (edges_ : list VisibilityEdge) (stations_ : list GroundStation)
  : option (list Z) :=
  let M := Z.of_nat (length stations_) in
  let uncovered : gset Z := list_to_set (seqZ 0 M) in
  let coverage := coverage_map edges_ in
  cover_loop (S (length stations_)) (order coverage) coverage uncovered [].

(** What the while loop keeps, for the coverage map [coverage] and [M]
    stations: the selected satellites are keys of the coverage map other
    than [-1]; each of them covered, when it was selected, a station index
    that none selected before it covers; the stations of the selected
    satellites have left [uncovered]; and the indices that have left are
    stations of a selected satellite. *)
Definition cover_inv (coverage : gmap Z (list Z)) (M : nat)
    (uncovered : gset Z) (selected : list Z) : Prop :=
  (forall s, s ∈ selected -> s <> -1 /\ is_Some (coverage !! s)) /\
  (forall i s, selected !! i = Some s ->
     exists j, 0 <= j < Z.of_nat M /\ j ∈ default [] (coverage !! s) /\
       forall i' s', (i' < i)%nat -> selected !! i' = Some s' ->
         j ∉ default [] (coverage !! s')) /\
  (forall s j, s ∈ selected -> j ∈ default [] (coverage !! s) ->
     j ∉ uncovered) /\
  (forall j, 0 <= j < Z.of_nat M -> j ∉ uncovered ->
     exists s, s ∈ selected /\ j ∈ default [] (coverage !! s)) /\
  (forall j, j ∈ uncovered -> 0 <= j < Z.of_nat M) /\
  (size uncovered + length selected <= M)%nat.

(** What holds of the satellites the loop returns. *)
Definition cover_post (coverage : gmap Z (list Z)) (M : nat)
    (selected : list Z) : Prop :=
  (forall s, s ∈ selected -> s <> -1 /\ is_Some (coverage !! s)) /\
  (forall i s, selected !! i = Some s ->
     exists j, 0 <= j < Z.of_nat M /\ j ∈ default [] (coverage !! s) /\
       forall i' s', (i' < i)%nat -> selected !! i' = Some s' ->
         j ∉ default [] (coverage !! s')) /\
  (length selected <= M)%nat /\
  (coverage !! (-1) = None ->
   forall j, 0 <= j < Z.of_nat M ->
     (exists sat, j ∈ default [] (coverage !! sat)) ->
     exists s, s ∈ selected /\ j ∈ default [] (coverage !! s)).

(** *** buildGraph *)

(** What the geometry gives for a satellite and a station: whether the
    elevation reaches the station's minimum, and the three numbers stored
    with the edge. *)
Variable visible : Satellite -> GroundStation -> bool.
Variable elevation slant latency : Satellite -> GroundStation -> double.

(** The loop over the stations for one satellite. *)
Definition edges_of_satellite (stations_ : list GroundStation) (sat : Satellite)
  : list VisibilityEdge :=
  omap (fun gs =>
          if visible sat gs
          then Some {| satellite_id := sat_id sat; station_id := gs_id gs;
                       elevation_deg := elevation sat gs;
                       distance_km := slant sat gs;
                       estimated_latency_ms := latency sat gs |}
          else None)
       stations_.

(** The work of thread [t]: satellites [begin] to [end - 1]. *)
Definition thread_result (satellites_ : list Satellite)
    (stations_ : list GroundStation) (chunk_size N t : Z)
  : list VisibilityEdge :=
  let begin := t * chunk_size in
  let end_ := Z.min (begin + chunk_size) N in
  flat_map (fun i => match satellites_ !! Z.to_nat i with
                     | Some sat => edges_of_satellite stations_ sat
                     | None => []
                     end)
           (seqZ begin (end_ - begin)).

(** [buildGraph(num_threads)]: the threads fill one vector each, and the
    vectors are appended in the order of the threads. With no thread the
    chunk size is a division by zero, a negative count cannot size
    [thread_results], and [N + num_threads - 1] is computed in [int]: in
    these cases no graph is built. *)
Definition buildGraph (satellites_ : list Satellite)
    (stations_ : list GroundStation) (num_threads : Z)
  : option (list VisibilityEdge) :=
  let N := Z.of_nat (length satellites_) in
  if (num_threads <=? 0) || (INT_MAX <? N + num_threads - 1) then None
  else
    let chunk_size := Z.quot (N + num_threads - 1) num_threads in
    Some (flat_map (thread_result satellites_ stations_ chunk_size N)
                   (seqZ 0 num_threads)).

End graph.

(** *** The generators *)

Section generators.

Context {double : Type}.

(** A decimal literal of the source: [literal m e] is the [double] that
    the compiler gives for [m * 10 ^ e]. *)
Variable literal : Z -> Z -> double.

(** The latitude and longitude that [generateStarlinkConstellation]
    computes, in floating point, for slot [s] of plane [p]. *)
Variable orbit_position : Z -> Z -> double -> Z -> Z -> @GeoCoord double.

Definition MIN_ELEVATION_DEG : double := literal 250 (-1).

(** The inner loop of [generateStarlinkConstellation], for plane [p]:
    the state is the vector [sats] and the counter [id]. *)
Definition constellation_plane (num_planes sats_per_plane : Z)
    (altitude inclination_deg : double) (p : Z)
    (state : list (@Satellite double) * Z) : list (@Satellite double) * Z :=
  foldl (fun '(sats, id) s =>
           (sats ++ [{| sat_id := id;
                        sat_position :=
                          orbit_position num_planes sats_per_plane
                            inclination_deg p s;
                        altitude_km := altitude;
                        orbital_plane := p;
                        sat_capacity_mbps := literal 2500 (-1) |}],
            id + 1))
        state (seqZ 0 sats_per_plane).

(** [generateStarlinkConstellation(num_planes, sats_per_plane,
    altitude_km, inclination_deg)]. *)
Definition generateStarlinkConstellation (num_planes sats_per_plane : Z)
    (altitude inclination_deg : double) : list (@Satellite double) :=
  (foldl (fun state p =>
            constellation_plane num_planes sats_per_plane altitude
              inclination_deg p state)
         ([], 0) (seqZ 0 num_planes)).1.

Definition city_coords : list (@GeoCoord double) :=
  [
    mkGeoCoord (literal 4767 (-2)) (literal (-12212) (-2));
    mkGeoCoord (literal 3777 (-2)) (literal (-12242) (-2));
    mkGeoCoord (literal 4071 (-2)) (literal (-7401) (-2));
    mkGeoCoord (literal 5151 (-2)) (literal (-13) (-2));
    mkGeoCoord (literal 3568 (-2)) (literal 13969 (-2));
    mkGeoCoord (literal (-3387) (-2)) (literal 15121 (-2));
    mkGeoCoord (literal 4886 (-2)) (literal 235 (-2));
    mkGeoCoord (literal 5576 (-2)) (literal 3762 (-2));
    mkGeoCoord (literal (-2355) (-2)) (literal (-4663) (-2));
    mkGeoCoord (literal 2861 (-2)) (literal 7723 (-2));
    mkGeoCoord (literal 135 (-2)) (literal 10382 (-2));
    mkGeoCoord (literal (-129) (-2)) (literal 3682 (-2));
    mkGeoCoord (literal 4542 (-2)) (literal (-7570) (-2));
    mkGeoCoord (literal 3872 (-2)) (literal (-914) (-2));
    mkGeoCoord (literal (-3460) (-2)) (literal (-5838) (-2));
    mkGeoCoord (literal 2520 (-2)) (literal 5527 (-2));
    mkGeoCoord (literal 3569 (-2)) (literal 5139 (-2));
    mkGeoCoord (literal 5933 (-2)) (literal 1807 (-2));
    mkGeoCoord (literal 6414 (-2)) (literal (-2194) (-2));
    mkGeoCoord (literal (-4129) (-2)) (literal 17478 (-2))
  ].

(** [generateGroundStations(count)]: the loop runs [i] below
    [min(count, city_coords.size())], so [city_coords[i]] is in range. *)
Definition generateGroundStations (count : Z) : list (@GroundStation double) :=
  flat_map (fun i => match city_coords !! Z.to_nat i with
                     | Some position =>
                         [{| gs_id := i;
                             gs_position := position;
                             min_elevation_deg := MIN_ELEVATION_DEG;
                             gs_capacity_mbps := literal 100000 (-1) |}]
                     | None => []
                     end)
           (seqZ 0 (Z.min count (Z.of_nat (length city_coords)))).

End generators.
End VisibilityGraph.


Definition sample_station (id lon : Z) : @VisibilityGraph.GroundStation Z :=
  VisibilityGraph.mkGroundStation id (VisibilityGraph.mkGeoCoord 0 lon) 25 10000.


Definition sample_stations : list (@VisibilityGraph.GroundStation Z) :=
  [sample_station 0 0; sample_station 1 10; sample_station 2 30].



Definition sample_edge (sat st : Z) : @VisibilityGraph.VisibilityEdge Z :=
  VisibilityGraph.mkEdge sat st 0 0 0.

Definition sample_edges : list (@VisibilityGraph.VisibilityEdge Z) :=
  [sample_edge 0 0; sample_edge 0 1; sample_edge 1 0; sample_edge 1 1;
   sample_edge 2 1; sample_edge 2 2].

(** * Properties *)

(** ** The exchange buffer *)

Section spsc_facts.

Import SPSCRingBuffer.

Context {T : Type}.
Variable Capacity : Z.
Variable T_default : T.
Variable moved_from : T -> T.

Lemma tryPush_full (item : T) (rb : t) :
  full Capacity rb -> tryPush Capacity moved_from item rb = (false, item, rb).
Proof.
  unfold full, tryPush. intros ->. by rewrite Z.eqb_refl.
Qed.

Lemma tryPush_not_full (item : T) (rb : t) :
  ~ full Capacity rb ->
  tryPush Capacity moved_from item rb =
    (true, moved_from item,
     {| head_ := Z.land (size_t (head_ rb + 1)) (size_t (Capacity - 1));
        tail_ := tail_ rb;
        buffer_ := <[Z.to_nat (head_ rb) := item]> (buffer_ rb) |}).
Proof.
  unfold full, tryPush. intros Hne.
  destruct (Z.eqb_spec (Z.land (size_t (head_ rb + 1)) (size_t (Capacity - 1)))
              (tail_ rb)); [contradiction | reflexivity].
Qed.

Lemma tryPop_empty (rb : t) :
  head_ rb = tail_ rb ->
  tryPop Capacity T_default moved_from rb = (None, rb).
Proof.
  unfold tryPop. intros ->. by rewrite Z.eqb_refl.
Qed.

Lemma tryPop_not_empty (rb : t) :
  head_ rb <> tail_ rb ->
  exists item rb',
    tryPop Capacity T_default moved_from rb = (Some item, rb') /\
    item = default T_default (buffer_ rb !! Z.to_nat (tail_ rb)) /\
    head_ rb' = head_ rb /\
    tail_ rb' = Z.land (size_t (tail_ rb + 1)) (size_t (Capacity - 1)).
Proof.
  unfold tryPop. intros Hne.
  destruct (Z.eqb_spec (tail_ rb) (head_ rb)); [congruence |].
  eauto 10.
Qed.

Lemma push_all_full (items : list T) (rb : t) :
  full Capacity rb ->
  push_all Capacity moved_from items rb =
    (replicate (length items) false, rb).
Proof.
  intros Hfull. induction items as [| x items IH]; [reflexivity |].
  cbn [push_all length replicate].
  rewrite (tryPush_full x rb Hfull), IH. reflexivity.
Qed.

End spsc_facts.

Lemma push_all_app {T : Type} (Capacity : Z) (mv : T -> T)
    (xs ys : list T) (rb : SPSCRingBuffer.t) :
  SPSCRingBuffer.push_all Capacity mv (xs ++ ys) rb =
    let '(oks, rb1) := SPSCRingBuffer.push_all Capacity mv xs rb in
    let '(oks', rb2) := SPSCRingBuffer.push_all Capacity mv ys rb1 in
    (oks ++ oks', rb2).
Proof.
  revert rb. induction xs as [| x xs IH]; intros rb; cbn [app SPSCRingBuffer.push_all].
  - by destruct (SPSCRingBuffer.push_all Capacity mv ys rb).
  - destruct (SPSCRingBuffer.tryPush Capacity mv x rb) as [[ok it] rb1].
    rewrite IH.
    destruct (SPSCRingBuffer.push_all Capacity mv xs rb1) as [oks rb2].
    by destruct (SPSCRingBuffer.push_all Capacity mv ys rb2).
Qed.

(** With a capacity [2 ^ k] the mask is the remainder modulo the
    capacity, so both indices stay inside the array. *)
Lemma spsc_mask (k x : Z) :
  0 <= k <= 63 ->
  0 <= x < 2 ^ 64 ->
  Z.land (size_t x) (size_t (2 ^ k - 1)) = x mod 2 ^ k.
Proof.
  intros Hk Hx. unfold size_t.
  assert (0 < 2 ^ k <= 2 ^ 63) as Hp.
  { split; [apply Z.pow_pos_nonneg; lia |].
    apply Z.pow_le_mono_r; lia. }
  rewrite (Z.mod_small x) by lia.
  rewrite (Z.mod_small (2 ^ k - 1)) by lia.
  replace (2 ^ k - 1) with (Z.ones k) by (rewrite Z.ones_equiv; lia).
  apply Z.land_ones. lia.
Qed.

Lemma spsc_new_wf {T : Type} (k : Z) (d : T) :
  0 <= k <= 63 -> SPSCRingBuffer.wf (2 ^ k) (SPSCRingBuffer.new (2 ^ k) d).
Proof.
  intros Hk. unfold SPSCRingBuffer.wf, SPSCRingBuffer.new; cbn.
  assert (0 < 2 ^ k) by (apply Z.pow_pos_nonneg; lia).
  rewrite length_replicate. lia.
Qed.

Lemma spsc_tryPush_wf {T : Type} (k : Z) (mv : T -> T) (item : T)
    (rb : SPSCRingBuffer.t) :
  0 <= k <= 63 ->
  SPSCRingBuffer.wf (2 ^ k) rb ->
  SPSCRingBuffer.wf (2 ^ k) (SPSCRingBuffer.tryPush (2 ^ k) mv item rb).2.
Proof.
  intros Hk (Hh & Ht & Hl). unfold SPSCRingBuffer.tryPush.
  assert (0 < 2 ^ k <= 2 ^ 63) as Hp.
  { split; [apply Z.pow_pos_nonneg; lia |].
    apply Z.pow_le_mono_r; lia. }
  rewrite spsc_mask by lia.
  destruct (_ =? _); cbn [snd]; [done |].
  unfold SPSCRingBuffer.wf; cbn. rewrite length_insert.
  pose proof (Z.mod_pos_bound (SPSCRingBuffer.head_ rb + 1) (2 ^ k)). lia.
Qed.

Lemma spsc_tryPop_wf {T : Type} (k : Z) (d : T) (mv : T -> T)
    (rb : SPSCRingBuffer.t) :
  0 <= k <= 63 ->
  SPSCRingBuffer.wf (2 ^ k) rb ->
  SPSCRingBuffer.wf (2 ^ k) (SPSCRingBuffer.tryPop (2 ^ k) d mv rb).2.
Proof.
  intros Hk (Hh & Ht & Hl). unfold SPSCRingBuffer.tryPop.
  assert (0 < 2 ^ k <= 2 ^ 63) as Hp.
  { split; [apply Z.pow_pos_nonneg; lia |].
    apply Z.pow_le_mono_r; lia. }
  rewrite spsc_mask by lia.
  destruct (_ =? _); cbn [snd]; [done |].
  unfold SPSCRingBuffer.wf; cbn. rewrite length_insert.
  pose proof (Z.mod_pos_bound (SPSCRingBuffer.tail_ rb + 1) (2 ^ k)). lia.
Qed.

(** One slot stays free: the buffer refuses a push exactly when
    [size()] is one less than the capacity, and is empty exactly when
    [size()] is 0. *)
Lemma spsc_full_size {T : Type} (k : Z) (rb : SPSCRingBuffer.t (T:=T)) :
  0 <= k <= 63 ->
  SPSCRingBuffer.wf (2 ^ k) rb ->
  (SPSCRingBuffer.full (2 ^ k) rb <->
     SPSCRingBuffer.size (2 ^ k) rb = 2 ^ k - 1) /\
  (SPSCRingBuffer.head_ rb = SPSCRingBuffer.tail_ rb <->
     SPSCRingBuffer.size (2 ^ k) rb = 0).
Proof.
  intros Hk (Hh & Ht & _).
  assert (0 < 2 ^ k <= 2 ^ 63) as Hp.
  { split; [apply Z.pow_pos_nonneg; lia |].
    apply Z.pow_le_mono_r; lia. }
  unfold SPSCRingBuffer.full, SPSCRingBuffer.size.
  rewrite spsc_mask by lia.
  set (h := SPSCRingBuffer.head_ rb) in *.
  set (tl := SPSCRingBuffer.tail_ rb) in *.
  set (C := 2 ^ k) in *.
  assert (Z.land (size_t (h - tl)) (size_t (C - 1)) = (h - tl) mod C) as ->.
  { unfold size_t. rewrite (Z.mod_small (C - 1)) by lia.
    replace (C - 1) with (Z.ones k)
      by (rewrite Z.ones_equiv; unfold C; lia).
    rewrite Z.land_ones by lia. fold C.
    apply Z.mod_mod_divide.
    exists (2 ^ (64 - k)). unfold C. rewrite <- Z.pow_add_r by lia.
    f_equal. lia. }
  assert ((h + 1) mod C = if decide (h + 1 < C) then h + 1 else 0) as ->.
  { case_decide; [apply Z.mod_small; lia |].
    replace (h + 1) with C by lia. apply Z_mod_same_full. }
  assert ((h - tl) mod C = if decide (tl <= h) then h - tl else h - tl + C) as ->.
  { case_decide; [apply Z.mod_small; lia |].
    rewrite <- (Z_mod_plus_full (h - tl) 1 C).
    rewrite Z.mul_1_l. apply Z.mod_small. lia. }
  repeat case_decide; lia.
Qed.

(** Seven pushes fill an empty buffer of capacity 8. *)
Lemma spsc8_seven_fill {T : Type} (d : T) (mv : T -> T)
    (x1 x2 x3 x4 x5 x6 x7 : T) :
  SPSCRingBuffer.push_all 8 mv [x1; x2; x3; x4; x5; x6; x7]
      (SPSCRingBuffer.new 8 d) =
    (replicate 7 true,
     SPSCRingBuffer.mk 7 0 [x1; x2; x3; x4; x5; x6; x7; d]).
Proof. reflexivity. Qed.

(** C4. [tryPush] is total; it fails, with the item and the buffer as
    they were, exactly when the slot after the producer's index is the
    consumer's index, and otherwise stores the item and advances the
    producer's index. [tryPop] is total; it returns nothing, with the
    buffer as it was, exactly when the two indices are equal, and
    otherwise returns the item at the consumer's index. An empty buffer of
    capacity 8 accepts the first 7 of any run of pushes and refuses all
    later ones; after one pop, which returns the first item pushed, it
    accepts exactly one more push and refuses the next. *)
Theorem spsc_push_pop_contract :
  (forall (T : Type) (Capacity : Z) (mv : T -> T) (item : T)
          (rb : SPSCRingBuffer.t),
      let r := SPSCRingBuffer.tryPush Capacity mv item rb in
      (r.1.1 = false <-> SPSCRingBuffer.full Capacity rb) /\
      (r.1.1 = false -> r = (false, item, rb)) /\
      (r.1.1 = true ->
         r.1.2 = mv item /\
         SPSCRingBuffer.tail_ r.2 = SPSCRingBuffer.tail_ rb /\
         SPSCRingBuffer.head_ r.2 =
           Z.land (size_t (SPSCRingBuffer.head_ rb + 1)) (size_t (Capacity - 1)) /\
         SPSCRingBuffer.buffer_ r.2 =
           <[Z.to_nat (SPSCRingBuffer.head_ rb) := item]>
             (SPSCRingBuffer.buffer_ rb))) /\
  (forall (T : Type) (Capacity : Z) (d : T) (mv : T -> T)
          (rb : SPSCRingBuffer.t),
      let r := SPSCRingBuffer.tryPop Capacity d mv rb in
      (r.1 = None <-> SPSCRingBuffer.head_ rb = SPSCRingBuffer.tail_ rb) /\
      (r.1 = None -> r.2 = rb) /\
      (r.1 <> None ->
         r.1 = Some (default d (SPSCRingBuffer.buffer_ rb
                                  !! Z.to_nat (SPSCRingBuffer.tail_ rb))) /\
         SPSCRingBuffer.head_ r.2 = SPSCRingBuffer.head_ rb)) /\
  (forall (T : Type) (d : T) (mv : T -> T) (items : list T),
      let '(oks, rb) :=
        SPSCRingBuffer.push_all 8 mv items (SPSCRingBuffer.new 8 d) in
      oks = replicate (Nat.min 7 (length items)) true ++
            replicate (length items - 7) false /\
      ((7 <= length items)%nat ->
       forall y1 y2 : T,
         let '(popped, rb1) := SPSCRingBuffer.tryPop 8 d mv rb in
         popped = head items /\
         (SPSCRingBuffer.push_all 8 mv [y1; y2] rb1).1 = [true; false])).
Proof.
  split; [| split].
  - intros T Capacity mv item rb r.
    destruct (Z.eq_dec (Z.land (size_t (SPSCRingBuffer.head_ rb + 1))
                          (size_t (Capacity - 1)))
                (SPSCRingBuffer.tail_ rb)) as [Hf | Hf];
      fold (SPSCRingBuffer.full Capacity rb) in Hf.
    + subst r. rewrite (tryPush_full Capacity mv item rb Hf). cbn.
      repeat split; try done.
    + subst r. rewrite (tryPush_not_full Capacity mv item rb Hf). cbn.
      repeat split; try done.
  - intros T Capacity d mv rb r.
    destruct (Z.eq_dec (SPSCRingBuffer.head_ rb) (SPSCRingBuffer.tail_ rb))
      as [He | He].
    + subst r. rewrite (tryPop_empty Capacity d mv rb He). cbn.
      repeat split; try done.
    + subst r.
      destruct (tryPop_not_empty Capacity d mv rb He)
        as (item & rb' & -> & -> & Hh & Ht). cbn.
      repeat split; try done.
  - intros T d mv items.
    do 7 (destruct items as [| ? items];
          [vm_compute; split; [reflexivity | intros; lia] |]).
    change (?a :: ?b :: ?c :: ?e :: ?f :: ?g :: ?h :: items)
      with ([a; b; c; e; f; g; h] ++ items).
    rewrite push_all_app, spsc8_seven_fill.
    rewrite push_all_full by reflexivity.
    split.
    + rewrite length_app. cbn [length]. 
      replace (Nat.min 7 (7 + length items)) with 7%nat by lia.
      replace (7 + length items - 7)%nat with (length items) by lia.
      reflexivity.
    + intros _ y1 y2. vm_compute. done.
Qed.

(** ** The reordering buffer *)

Lemma u64_range (x : Z) : 0 <= u64 x < 2 ^ 64.
Proof. unfold u64. apply Z.mod_pos_bound. lia. Qed.

Lemma u64_small (x : Z) : 0 <= x < 2 ^ 64 -> u64 x = x.
Proof. unfold u64. apply Z.mod_small. Qed.

Lemma u64_succ (x : Z) :
  0 <= x < 2 ^ 64 ->
  (x < 2 ^ 64 - 1 /\ u64 (x + 1) = x + 1) \/
  (x = 2 ^ 64 - 1 /\ u64 (x + 1) = 0).
Proof.
  intros Hx. destruct (Z.eq_dec x (2 ^ 64 - 1)) as [-> | Hne].
  - right. split; [reflexivity | reflexivity].
  - left. split; [lia |]. apply u64_small. lia.
Qed.

Lemma u64_succ_neq (x : Z) : 0 <= x < 2 ^ 64 -> u64 (x + 1) <> x.
Proof. intros Hx. destruct (u64_succ x Hx) as [[? ->] | [? ->]]; lia. Qed.

Lemma u64_succ_succ_neq (x : Z) :
  0 <= x < 2 ^ 64 -> u64 (u64 (x + 1) + 1) <> x.
Proof.
  intros Hx. destruct (u64_succ x Hx) as [[? ->] | [? ->]].
  - destruct (u64_succ (x + 1)) as [[? ->] | [? ->]]; lia.
  - change (u64 (0 + 1)) with 1. lia.
Qed.

Lemma u64_add_succ (x : Z) : u64 (u64 x + 1) = u64 (x + 1).
Proof. unfold u64. apply Zplus_mod_idemp_l. Qed.

Section reordering_facts.

Import ReorderingBuffer.

Lemma is_empty_true (m : gmap Z Packet) : is_empty m = true <-> m = ∅.
Proof.
  unfold is_empty. rewrite Nat.eqb_eq. apply map_size_empty_iff.
Qed.

Lemma blocking_wait_ready (deadline : Z) (others : list (Z * other_call))
    (s : t) :
  wait_pred s = true -> blocking_wait deadline others s = (true, s).
Proof. intros H. destruct others as [| [clock o] others]; cbn; by rewrite H. Qed.

(** However the wait goes, what it returns is [wait_until] of the state
    in which it ends, and it times out exactly when [deadline_elapsed]
    holds there. *)
Lemma blocking_wait_resumes (deadline : Z) (others : list (Z * other_call))
    (s : t) :
  (blocking_wait deadline others s).1 =
    wait_until (blocking_wait deadline others s).2 /\
  ((blocking_wait deadline others s).1 = false <->
     deadline_elapsed (blocking_wait deadline others s).2 = true).
Proof.
  revert s. induction others as [| [clock o] others IH]; intros s;
    cbn [blocking_wait]; unfold deadline_elapsed, wait_until in *.
  - destruct (wait_pred s) eqn:Hp; cbn [fst snd]; rewrite Hp; done.
  - destruct (wait_pred s) eqn:Hp; [cbn [fst snd]; rewrite Hp; done |].
    destruct (clock <? deadline); [apply IH |].
    cbn [fst snd]; rewrite Hp; done.
Qed.

(** A caller blocked on an empty buffer is woken by [stop] and returns
    nothing. *)
Lemma stop_wakes_blocked_call (now clock : Z) (s : t) :
  running_ s = true ->
  buffer_ s = ∅ ->
  clock < now + timeout_ s ->
  getNext_blocking now [(clock, OtherStop)] s = (None, stop s).
Proof.
  intros Hr He Hc. unfold getNext_blocking. cbn [blocking_wait other_step].
  assert (wait_pred s = false) as ->.
  { unfold wait_pred, count. by rewrite Hr, He, lookup_empty. }
  assert ((clock <? now + timeout_ s) = true) as -> by by apply Z.ltb_lt.
  cbn [snd]. unfold getNext. cbn. by rewrite He.
Qed.

Lemma terminal_guard (s : t) :
  negb (running_ s) && is_empty (buffer_ s) = true <-> terminal s.
Proof.
  unfold terminal. rewrite andb_true_iff, negb_true_iff, is_empty_true.
  reflexivity.
Qed.

(** The four ways through [getNext]. *)
Lemma getNext_cases (s : t) :
  (terminal s /\ getNext s = (None, s)) \/
  (~ terminal s /\
   exists p, buffer_ s !! next_expected_seq_ s = Some p /\
             getNext s = (Some p, release s)) \/
  (~ terminal s /\
   buffer_ s !! next_expected_seq_ s = None /\
   buffer_ s !! u64 (next_expected_seq_ s + 1) = None /\
   getNext s = (None, skip s)) \/
  (~ terminal s /\
   buffer_ s !! next_expected_seq_ s = None /\
   exists p, buffer_ s !! u64 (next_expected_seq_ s + 1) = Some p /\
             getNext s = (Some p, release (skip s))).
Proof.
  unfold getNext. cbv zeta.
  destruct (negb (running_ s) && is_empty (buffer_ s)) eqn:Hg.
  - left. by apply terminal_guard in Hg.
  - right.
    assert (~ terminal s) as Hnt
        by (rewrite <- terminal_guard, Hg; discriminate).
    destruct (buffer_ s !! next_expected_seq_ s) as [p |] eqn:Hn.
    + left. eauto.
    + right. cbn [skip buffer_ next_expected_seq_].
      destruct (buffer_ s !! u64 (next_expected_seq_ s + 1)) as [p |] eqn:Hn1.
      * right. eauto 10.
      * left. eauto.
Qed.

Lemma new_wf (start_seq timeout : Z) :
  0 <= start_seq < 2 ^ 64 -> wf (new start_seq timeout).
Proof.
  intros H. unfold wf, new; cbn. repeat split; try lia.
  intros k p Hk. by rewrite lookup_empty in Hk.
Qed.

Lemma insert_wf (now : Z) (pkt : Packet) (s : t) :
  wf s -> wf (insert now pkt s).
Proof.
  intros (Hn & Hrc & Hrl & Hg & Hb). unfold wf, insert; cbn.
  repeat split; try lia; try apply u64_range.
  intros k p. rewrite lookup_insert. case_decide; [| by apply Hb].
  intros [= <-]. done.
Qed.

Lemma release_wf (s : t) : wf s -> wf (release s).
Proof.
  intros (Hn & Hrc & Hrl & Hg & Hb). unfold wf, release; cbn.
  repeat split; try lia; try apply u64_range.
  intros k p. rewrite lookup_delete. case_decide; [done | by apply Hb].
Qed.

Lemma skip_wf (s : t) : wf s -> wf (skip s).
Proof.
  intros (Hn & Hrc & Hrl & Hg & Hb). unfold wf, skip; cbn.
  repeat split; try lia; try apply u64_range. done.
Qed.

Lemma stop_wf (s : t) : wf s -> wf (stop s).
Proof. intros (Hn & Hrc & Hrl & Hg & Hb). unfold wf, stop; cbn. done. Qed.

Lemma getNext_wf (s : t) : wf s -> wf (getNext s).2.
Proof.
  intros Hwf.
  destruct (getNext_cases s)
    as [[_ ->] | [(_ & p & _ & ->) | [(_ & _ & _ & ->) | (_ & _ & p & _ & ->)]]];
    cbn [snd]; auto using release_wf, skip_wf.
Qed.

Lemma step_wf (o : op) (s : t) : wf s -> wf (step o s).2.
Proof.
  destruct o; cbn [step snd]; auto using insert_wf, getNext_wf, stop_wf.
Qed.

End reordering_facts.

(** C9. [insert] is a total function of the packet and the buffer. The
    new pending map holds the packet under its sequence number and is
    unchanged at every other key; when that sequence number was already
    pending the earlier entry is replaced and the number of pending
    packets stays the same (otherwise it grows by one). The received
    counter goes up by one (as a 64-bit counter), and the next expected
    sequence number, the shutdown flag and the other counters are as
    before. *)
Theorem insert_stores_and_counts :
  forall (now : Z) (pkt : Packet) (s : ReorderingBuffer.t),
    let s' := ReorderingBuffer.insert now pkt s in
    ReorderingBuffer.buffer_ s' !! sequence_number pkt = Some pkt /\
    (forall k, k <> sequence_number pkt ->
       ReorderingBuffer.buffer_ s' !! k = ReorderingBuffer.buffer_ s !! k) /\
    (forall old, ReorderingBuffer.buffer_ s !! sequence_number pkt = Some old ->
       size (ReorderingBuffer.buffer_ s') = size (ReorderingBuffer.buffer_ s)) /\
    (ReorderingBuffer.buffer_ s !! sequence_number pkt = None ->
       size (ReorderingBuffer.buffer_ s') =
         S (size (ReorderingBuffer.buffer_ s))) /\
    ReorderingBuffer.total_received_ s' =
      u64 (ReorderingBuffer.total_received_ s + 1) /\
    (0 <= ReorderingBuffer.total_received_ s < UINT64_MAX ->
       ReorderingBuffer.total_received_ s' =
         ReorderingBuffer.total_received_ s + 1) /\
    ReorderingBuffer.next_expected_seq_ s' =
      ReorderingBuffer.next_expected_seq_ s /\
    ReorderingBuffer.running_ s' = ReorderingBuffer.running_ s /\
    ReorderingBuffer.total_released_ s' = ReorderingBuffer.total_released_ s /\
    ReorderingBuffer.total_gaps_ s' = ReorderingBuffer.total_gaps_ s.
Proof.
  intros now pkt s s'. subst s'. unfold ReorderingBuffer.insert; cbn.
  split; [apply lookup_insert_eq |].
  split; [intros k Hk; by apply lookup_insert_ne |].
  split.
  { intros old Hold.
    rewrite <- (insert_delete_id (ReorderingBuffer.buffer_ s) _ _ Hold) at 2.
    rewrite <- (insert_delete_eq (ReorderingBuffer.buffer_ s)).
    rewrite !map_size_insert_None by apply lookup_delete_eq. reflexivity. }
  split; [intros Hnone; by apply map_size_insert_None |].
  split; [reflexivity |].
  split; [| done].
  intros H. apply u64_small. unfold UINT64_MAX in H. lia.
Qed.

(** C10, counterexample. [insert] does not look at [running_]: on a
    buffer that is shut down and empty, where [getNext] returns nothing, a
    packet inserted with the awaited sequence number is counted as
    received, and the following [getNext] returns it and moves the next
    expected sequence number and the released counter. *)
Lemma insert_after_stop_delivers :
  let s := ReorderingBuffer.stop (ReorderingBuffer.new 0 50) in
  ReorderingBuffer.running_ s = false /\
  ReorderingBuffer.buffer_ s = ∅ /\
  ReorderingBuffer.getNext s = (None, s) /\
  let '(r, s') :=
    ReorderingBuffer.getNext
      (ReorderingBuffer.insert 7 (sample_packet 0 BULK) s) in
  r = Some (sample_packet 0 BULK) /\
  ReorderingBuffer.next_expected_seq_ s' = 1 /\
  ReorderingBuffer.total_received_ s' = 1 /\
  ReorderingBuffer.total_released_ s' = 1.
Proof. vm_compute. done. Qed.

(** C10, as the code has it. Once the buffer is shut down and nothing is
    pending, [getNext] returns nothing and leaves the whole state, and so
    the next expected sequence number, the pending map and the three
    counters, as it is; the same holds after any number of further
    [getNext] and [stop] calls. An [insert] ends this: the buffer stays
    shut down, but the packet is stored and counted as received, the
    state is no longer terminal, and the following [getNext] moves the
    next expected sequence number, returning the packet when it has the
    awaited sequence number. *)
Theorem getNext_terminal_until_insert :
  forall (s : ReorderingBuffer.t),
    ReorderingBuffer.running_ s = false ->
    ReorderingBuffer.buffer_ s = ∅ ->
    ReorderingBuffer.getNext s = (None, s) /\
    (forall ops : list ReorderingBuffer.op,
       Forall (fun o => o = ReorderingBuffer.GetNext \/ o = ReorderingBuffer.Stop)
              ops ->
       ReorderingBuffer.run ops s = (replicate (length ops) None, s)) /\
    (forall (now : Z) (pkt : Packet),
       let s1 := ReorderingBuffer.insert now pkt s in
       ReorderingBuffer.running_ s1 = false /\
       ReorderingBuffer.buffer_ s1 = {[sequence_number pkt := pkt]} /\
       ReorderingBuffer.total_received_ s1 =
         u64 (ReorderingBuffer.total_received_ s + 1) /\
       ~ ReorderingBuffer.terminal s1 /\
       (sequence_number pkt = ReorderingBuffer.next_expected_seq_ s ->
        ReorderingBuffer.getNext s1 = (Some pkt, ReorderingBuffer.release s1)) /\
       (0 <= ReorderingBuffer.next_expected_seq_ s < 2 ^ 64 ->
        ReorderingBuffer.next_expected_seq_ (ReorderingBuffer.getNext s1).2
          <> ReorderingBuffer.next_expected_seq_ s)).
Proof.
  intros s Hr Hb.
  assert (ReorderingBuffer.getNext s = (None, s)) as Hg.
  { destruct (getNext_cases s) as [[_ ?] | [[Hn _] | [[Hn _] | [Hn _]]]];
      [done | | |]; destruct Hn; by split. }
  assert (ReorderingBuffer.stop s = s) as Hs.
  { destruct s; cbn in *. by subst. }
  split; [exact Hg |]. split.
  { intros ops Hops. induction Hops as [| o ops [-> | ->] _ IH];
      [reflexivity | |];
      cbn [ReorderingBuffer.run ReorderingBuffer.step length replicate].
    - rewrite Hg, IH. reflexivity.
    - rewrite Hs, IH. reflexivity. }
  intros now pkt s1.
  assert (ReorderingBuffer.buffer_ s1 = {[sequence_number pkt := pkt]}) as Hb1.
  { subst s1. cbn. rewrite Hb. apply insert_empty. }
  assert (~ ReorderingBuffer.terminal s1) as Hnt.
  { intros [_ He]. rewrite Hb1 in He.
    by apply (map_non_empty_singleton (M := gmap Z)) in He. }
  split; [exact Hr |]. split; [exact Hb1 |]. split; [reflexivity |].
  split; [exact Hnt |]. split.
  - intros Hseq.
    destruct (getNext_cases s1)
      as [[Ht _] | [(_ & p & Hp & ->) | [(_ & Hn & _) | (_ & Hn & _)]]];
      [done | | |].
    + rewrite Hb1 in Hp. change (ReorderingBuffer.next_expected_seq_ s1)
        with (ReorderingBuffer.next_expected_seq_ s) in Hp.
      rewrite <- Hseq, lookup_singleton_eq in Hp. by injection Hp as <-.
    + rewrite Hb1 in Hn. change (ReorderingBuffer.next_expected_seq_ s1)
        with (ReorderingBuffer.next_expected_seq_ s) in Hn.
      by rewrite <- Hseq, lookup_singleton_eq in Hn.
    + rewrite Hb1 in Hn. change (ReorderingBuffer.next_expected_seq_ s1)
        with (ReorderingBuffer.next_expected_seq_ s) in Hn.
      by rewrite <- Hseq, lookup_singleton_eq in Hn.
  - intros Hrange.
    change (ReorderingBuffer.next_expected_seq_ s)
      with (ReorderingBuffer.next_expected_seq_ s1) in Hrange |- *.
    destruct (getNext_cases s1)
      as [[Ht _] | [(_ & p & _ & ->) | [(_ & _ & _ & ->) | (_ & _ & p & _ & ->)]]];
      [done | | |]; cbn.
    + by apply u64_succ_neq.
    + by apply u64_succ_neq.
    + by apply u64_succ_succ_neq.
Qed.

(** A buffer stopped right after its construction. *)
Lemma getNext_terminal_until_insert_witness :
  let s := ReorderingBuffer.stop (ReorderingBuffer.new 7 50) in
  ReorderingBuffer.getNext s = (None, s) /\
  ReorderingBuffer.run
    [ReorderingBuffer.GetNext; ReorderingBuffer.Stop; ReorderingBuffer.GetNext]
    s = ([None; None; None], s) /\
  ReorderingBuffer.getNext
    (ReorderingBuffer.insert 3 (sample_packet 7 CONTROL) s)
  = (Some (sample_packet 7 CONTROL),
     ReorderingBuffer.release
       (ReorderingBuffer.insert 3 (sample_packet 7 CONTROL) s)).
Proof.
  intros s.
  destruct (getNext_terminal_until_insert s eq_refl eq_refl) as (H1 & H2 & H3).
  split; [exact H1 |]. split.
  - apply (H2 [ReorderingBuffer.GetNext; ReorderingBuffer.Stop;
               ReorderingBuffer.GetNext]).
    repeat (constructor; [(by left) || (by right) |]). constructor.
  - destruct (H3 3 (sample_packet 7 CONTROL)) as (_ & _ & _ & _ & H & _).
    apply H. reflexivity.
Defined.

(** C7, counterexample. With sequence number 1 pending and 0 awaited, one
    call counts a gap and delivers packet 1 as well; on a buffer that is
    shut down and empty, a call counts nothing and returns nothing. *)
Lemma getNext_both_and_neither :
  (let s := ReorderingBuffer.insert 0 (sample_packet 1 BULK)
              (ReorderingBuffer.new 0 50) in
   let '(r, s') := ReorderingBuffer.getNext s in
   r = Some (sample_packet 1 BULK) /\
   ReorderingBuffer.total_released_ s' = ReorderingBuffer.total_released_ s + 1 /\
   ReorderingBuffer.total_gaps_ s' = ReorderingBuffer.total_gaps_ s + 1) /\
  (let s := ReorderingBuffer.stop (ReorderingBuffer.new 0 50) in
   let '(r, s') := ReorderingBuffer.getNext s in
   r = None /\
   ReorderingBuffer.total_released_ s' = ReorderingBuffer.total_released_ s /\
   ReorderingBuffer.total_gaps_ s' = ReorderingBuffer.total_gaps_ s).
Proof. split; vm_compute; done. Qed.

(** C7, as the code has it. A call of [getNext] does one of four things:
    on a buffer that is shut down and empty it returns nothing and
    changes nothing; when the awaited packet is pending it delivers it
    (released + 1, gaps unchanged); otherwise it advances past exactly one
    gap (gaps + 1) and either returns nothing (released unchanged) or,
    when the packet after the gap is pending, delivers that packet in the
    same call (released + 1 as well). *)
Theorem getNext_delivers_or_skips :
  forall s : ReorderingBuffer.t,
    let '(r, s') := ReorderingBuffer.getNext s in
    let next := ReorderingBuffer.next_expected_seq_ s in
    (ReorderingBuffer.terminal s /\ r = None /\ s' = s) \/
    (~ ReorderingBuffer.terminal s /\
     (exists p, ReorderingBuffer.buffer_ s !! next = Some p /\ r = Some p) /\
     ReorderingBuffer.total_released_ s' =
       u64 (ReorderingBuffer.total_released_ s + 1) /\
     ReorderingBuffer.total_gaps_ s' = ReorderingBuffer.total_gaps_ s /\
     ReorderingBuffer.next_expected_seq_ s' = u64 (next + 1)) \/
    (~ ReorderingBuffer.terminal s /\
     ReorderingBuffer.buffer_ s !! next = None /\
     ReorderingBuffer.buffer_ s !! u64 (next + 1) = None /\
     r = None /\
     ReorderingBuffer.total_released_ s' = ReorderingBuffer.total_released_ s /\
     ReorderingBuffer.total_gaps_ s' = u64 (ReorderingBuffer.total_gaps_ s + 1) /\
     ReorderingBuffer.next_expected_seq_ s' = u64 (next + 1)) \/
    (~ ReorderingBuffer.terminal s /\
     ReorderingBuffer.buffer_ s !! next = None /\
     (exists p, ReorderingBuffer.buffer_ s !! u64 (next + 1) = Some p /\
                r = Some p) /\
     ReorderingBuffer.total_released_ s' =
       u64 (ReorderingBuffer.total_released_ s + 1) /\
     ReorderingBuffer.total_gaps_ s' = u64 (ReorderingBuffer.total_gaps_ s + 1) /\
     ReorderingBuffer.next_expected_seq_ s' = u64 (u64 (next + 1) + 1)).
Proof.
  intros s.
  destruct (getNext_cases s)
    as [[Ht ->] | [(Hnt & p & Hp & ->)
        | [(Hnt & Hn & Hn1 & ->) | (Hnt & Hn & p & Hp & ->)]]]; cbn.
  - left. done.
  - right; left. eauto 10.
  - right; right; left. done.
  - right; right; right. eauto 10.
Qed.

(** C2, counterexample. After [stop], with sequence number 5 pending and 0
    awaited, [wait_until] finds its predicate true and returns without
    waiting for the deadline; the call still counts a gap. *)
Lemma gap_counted_without_deadline :
  let s := ReorderingBuffer.stop
             (ReorderingBuffer.insert 0 (sample_packet 5 BULK)
                (ReorderingBuffer.new 0 50)) in
  ReorderingBuffer.blocking_wait (100 + ReorderingBuffer.timeout_ s) [] s =
    (true, s) /\
  ReorderingBuffer.deadline_elapsed s = false /\
  ReorderingBuffer.total_gaps_ (ReorderingBuffer.getNext s).2 =
    ReorderingBuffer.total_gaps_ s + 1 /\
  ReorderingBuffer.total_gaps_ (ReorderingBuffer.getNext_blocking 100 [] s).2 =
    ReorderingBuffer.total_gaps_ s + 1.
Proof. vm_compute. done. Qed.

Lemma resumes_unserved_iff (s : ReorderingBuffer.t) :
  ReorderingBuffer.resumes_unserved s <->
  ~ ReorderingBuffer.terminal s /\
  ReorderingBuffer.buffer_ s !! ReorderingBuffer.next_expected_seq_ s = None.
Proof.
  unfold ReorderingBuffer.resumes_unserved, ReorderingBuffer.terminal,
    ReorderingBuffer.deadline_elapsed, ReorderingBuffer.wait_until,
    ReorderingBuffer.wait_pred, ReorderingBuffer.count.
  destruct (ReorderingBuffer.running_ s),
    (ReorderingBuffer.buffer_ s !! ReorderingBuffer.next_expected_seq_ s);
    cbn; intuition (try congruence; try discriminate).
Qed.

(** C2, as the code has it. A call of [getNext] counts a gap exactly when
    it resumes without the awaited packet pending and the buffer is not
    both shut down and empty: either the deadline elapsed, or the buffer
    was shut down with other packets still pending. In that case gaps goes
    up by exactly one and the next expected sequence number moves past
    the awaited one; if the packet for the new next expected sequence
    number is pending it is removed and returned in the same call, with
    released incremented and the next expected sequence number advanced
    again, and otherwise the call returns nothing. Either way the next
    call awaits a sequence number other than the skipped one. *)
Theorem getNext_gap :
  forall s : ReorderingBuffer.t,
    ReorderingBuffer.wf s ->
    let '(r, s') := ReorderingBuffer.getNext s in
    let awaited := ReorderingBuffer.next_expected_seq_ s in
    (ReorderingBuffer.total_gaps_ s' <> ReorderingBuffer.total_gaps_ s <->
       ReorderingBuffer.resumes_unserved s) /\
    (ReorderingBuffer.resumes_unserved s ->
       ReorderingBuffer.total_gaps_ s' =
         u64 (ReorderingBuffer.total_gaps_ s + 1) /\
       ReorderingBuffer.next_expected_seq_ s' <> awaited /\
       match ReorderingBuffer.buffer_ s !! u64 (awaited + 1) with
       | Some p =>
           r = Some p /\
           ReorderingBuffer.buffer_ s' =
             delete (u64 (awaited + 1)) (ReorderingBuffer.buffer_ s) /\
           ReorderingBuffer.total_released_ s' =
             u64 (ReorderingBuffer.total_released_ s + 1) /\
           ReorderingBuffer.next_expected_seq_ s' = u64 (u64 (awaited + 1) + 1)
       | None =>
           r = None /\
           ReorderingBuffer.buffer_ s' = ReorderingBuffer.buffer_ s /\
           ReorderingBuffer.total_released_ s' =
             ReorderingBuffer.total_released_ s /\
           ReorderingBuffer.next_expected_seq_ s' = u64 (awaited + 1)
       end).
Proof.
  intros s Hwf. pose proof Hwf as (Hn & _ & _ & Hg & _).
  destruct (getNext_cases s)
    as [[Ht ->] | [(Hnt & p & Hp & ->)
        | [(Hnt & Hn0 & Hn1 & ->) | (Hnt & Hn0 & p & Hp & ->)]]]; cbn;
    rewrite resumes_unserved_iff.
  - split; [split; [done | by intros [? _]] | by intros [? _]].
  - split; [split; [done | intros [_ ?]; congruence] |
            intros [_ ?]; congruence].
  - split.
    + split; [by intros _ |]. intros _. by apply u64_succ_neq.
    + intros _. rewrite Hn1. repeat split. by apply u64_succ_neq.
  - split.
    + split; [by intros _ |]. intros _. by apply u64_succ_neq.
    + intros _. rewrite Hp. repeat split. by apply u64_succ_succ_neq.
Qed.

(** A timeout on a new, empty buffer. *)
Lemma getNext_gap_witness :
  let s := ReorderingBuffer.new 0 50 in
  ReorderingBuffer.wf s /\
  ReorderingBuffer.total_gaps_ (ReorderingBuffer.getNext s).2 = 1 /\
  ReorderingBuffer.next_expected_seq_ (ReorderingBuffer.getNext s).2 = 1 /\
  (ReorderingBuffer.getNext s).1 = None.
Proof.
  intros s.
  assert (ReorderingBuffer.wf s) as Hwf by (apply new_wf; lia).
  split; [exact Hwf |].
  pose proof (getNext_gap s Hwf) as H.
  change (ReorderingBuffer.getNext s)
    with (@None Packet, ReorderingBuffer.skip s) in H |- *.
  cbv zeta in H. destruct H as [_ H].
  destruct H as (Hg & _ & Hm); [left; reflexivity |].
  change (ReorderingBuffer.buffer_ s !! u64 (ReorderingBuffer.next_expected_seq_ s + 1))
    with (@None Packet) in Hm.
  destruct Hm as (Hr & _ & _ & Hn).
  split; [exact Hg |]. split; [exact Hn | reflexivity].
Defined.

(** C8, counterexample. A buffer constructed at the largest sequence
    number: the first [getNext] that times out wraps the next expected
    sequence number to 0. *)
Lemma next_expected_wraps :
  let s := ReorderingBuffer.new UINT64_MAX 50 in
  ReorderingBuffer.next_expected_seq_ s = 18446744073709551615 /\
  ReorderingBuffer.next_expected_seq_
    (ReorderingBuffer.step ReorderingBuffer.GetNext s).2 = 0 /\
  ReorderingBuffer.next_expected_seq_
    (ReorderingBuffer.step ReorderingBuffer.GetNext s).2 <
  ReorderingBuffer.next_expected_seq_ s.
Proof. vm_compute. done. Qed.

Lemma step_next_expected (o : ReorderingBuffer.op) (s : ReorderingBuffer.t) :
  let n := ReorderingBuffer.next_expected_seq_ s in
  let n' := ReorderingBuffer.next_expected_seq_ (ReorderingBuffer.step o s).2 in
  n' = n \/
  (o = ReorderingBuffer.GetNext /\ (n' = u64 (n + 1) \/ n' = u64 (u64 (n + 1) + 1))).
Proof.
  destruct o; cbn; [by left | | by left].
  destruct (getNext_cases s)
    as [[_ ->] | [(_ & p & _ & ->) | [(_ & _ & _ & ->) | (_ & _ & p & _ & ->)]]];
    cbn; auto.
Qed.



(** C8, as the code has it. [insert] and [stop] leave the next expected
    sequence number unchanged; [getNext] leaves it unchanged or advances
    it by one or two, modulo 2^64. After each operation it is therefore
    greater than or equal to its value before, unless an increment of
    [getNext] overflows the 64-bit counter: it decreases only from
    2^64 - 2 to 0, or from 2^64 - 1 to 0 or 1. Below 2^64 - 2 it never
    decreases, and grows by at most two. *)
Theorem next_expected_monotone_until_wrap :
  forall (o : ReorderingBuffer.op) (s : ReorderingBuffer.t),
    ReorderingBuffer.wf s ->
    let n := ReorderingBuffer.next_expected_seq_ s in
    let n' := ReorderingBuffer.next_expected_seq_ (ReorderingBuffer.step o s).2 in
    match o with
    | ReorderingBuffer.Insert _ _ | ReorderingBuffer.Stop => n' = n
    | ReorderingBuffer.GetNext =>
        n' = n \/ n' = u64 (n + 1) \/ n' = u64 (n + 2)
    end /\
    0 <= n' < 2 ^ 64 /\
    (n' < n ->
     o = ReorderingBuffer.GetNext /\
     ((n = 2 ^ 64 - 2 /\ n' = 0) \/
      (n = 2 ^ 64 - 1 /\ (n' = 0 \/ n' = 1)))) /\
    (n + 2 < 2 ^ 64 -> n <= n' <= n + 2).
Proof.
  intros o s Hwf n n'.
  assert (0 <= n < 2 ^ 64) as Hn by (destruct Hwf as (Hn & _); exact Hn).
  assert (Hexact : match o with
            | ReorderingBuffer.Insert _ _ | ReorderingBuffer.Stop => n' = n
            | ReorderingBuffer.GetNext =>
                n' = n \/ n' = u64 (n + 1) \/ n' = u64 (n + 2)
            end).
  { destruct (step_next_expected o s) as [H | [-> [H | H]]];
      fold n n' in H.
    - destruct o; [exact H | by left | exact H].
    - right. by left.
    - right. right. rewrite H, u64_add_succ. f_equal. lia. }
  assert (Hcases : n' = n \/
            (o = ReorderingBuffer.GetNext /\
             (n' = u64 (n + 1) \/ n' = u64 (n + 2)))).
  { destruct o; [by left | | by left].
    destruct Hexact as [H | H]; [by left | by right]. }
  assert (Hone : u64 (n + 1) = n + 1 /\ n + 1 < 2 ^ 64 \/
                 u64 (n + 1) = 0 /\ n = 2 ^ 64 - 1).
  { destruct (u64_succ n Hn) as [[? ?] | [? ?]]; [left | right]; lia. }
  assert (Htwo : u64 (n + 2) = n + 2 /\ n + 2 < 2 ^ 64 \/
                 u64 (n + 2) = 0 /\ n = 2 ^ 64 - 2 \/
                 u64 (n + 2) = 1 /\ n = 2 ^ 64 - 1).
  { unfold u64.
    destruct (Z_lt_ge_dec (n + 2) (2 ^ 64)) as [Hlt | Hge].
    - left. split; [apply Z.mod_small; lia | exact Hlt].
    - right. replace (n + 2) with (n + 2 - 2 ^ 64 + 1 * 2 ^ 64) by lia.
      rewrite Z.mod_add by lia. rewrite Z.mod_small by lia. lia. }
  split; [exact Hexact |].
  split; [| split].
  - destruct Hcases as [-> | (_ & [-> | ->])]; [exact Hn | |]; apply u64_range.
  - intros Hlt. destruct Hcases as [H | (Ho & [H | H])]; [lia | |];
      (split; [exact Ho |]); lia.
  - intros Hlt. destruct Hcases as [H | (_ & [H | H])]; lia.
Qed.

(** A gap followed by a release in one call, far from the wrap. *)
Lemma next_expected_monotone_until_wrap_witness :
  let s := ReorderingBuffer.insert 0 (sample_packet 1 BULK)
             (ReorderingBuffer.new 0 50) in
  ReorderingBuffer.wf s /\
  ReorderingBuffer.next_expected_seq_
    (ReorderingBuffer.step (ReorderingBuffer.Insert 1 (sample_packet 0 BULK)) s).2
  = ReorderingBuffer.next_expected_seq_ s /\
  ReorderingBuffer.next_expected_seq_ s <=
    ReorderingBuffer.next_expected_seq_
      (ReorderingBuffer.step ReorderingBuffer.GetNext s).2
    <= ReorderingBuffer.next_expected_seq_ s + 2.
Proof.
  intros s.
  assert (ReorderingBuffer.wf s) as Hwf by (apply insert_wf, new_wf; lia).
  split; [exact Hwf |]. split.
  - exact (proj1 (next_expected_monotone_until_wrap
                    (ReorderingBuffer.Insert 1 (sample_packet 0 BULK)) s Hwf)).
  - destruct (next_expected_monotone_until_wrap ReorderingBuffer.GetNext s Hwf)
      as (_ & _ & _ & H).
    apply H. vm_compute. reflexivity.
Defined.

(** *** Runs of the reordering buffer *)


Lemma released_seqs_cons (o : ReorderingBuffer.op)
    (ops : list ReorderingBuffer.op) (s : ReorderingBuffer.t) :
  ReorderingBuffer.released_seqs (o :: ops) s =
    match (ReorderingBuffer.step o s).1 with
    | Some p => [sequence_number p]
    | None => []
    end ++ ReorderingBuffer.released_seqs ops (ReorderingBuffer.step o s).2.
Proof.
  unfold ReorderingBuffer.released_seqs. cbn [ReorderingBuffer.run].
  destruct (ReorderingBuffer.step o s) as [r s1]. cbn [fst snd].
  destruct (ReorderingBuffer.run ops s1) as [rs s2].
  destruct r; reflexivity.
Qed.

(** A call that releases a packet without wrapping releases one whose
    sequence number lies between the old and the new next expected
    sequence number. *)
Lemma step_released_bounds (o : ReorderingBuffer.op) (s : ReorderingBuffer.t)
    (p : Packet) :
  ReorderingBuffer.wf s ->
  (ReorderingBuffer.step o s).1 = Some p ->
  ReorderingBuffer.next_expected_seq_ s <=
    ReorderingBuffer.next_expected_seq_ (ReorderingBuffer.step o s).2 ->
  ReorderingBuffer.next_expected_seq_ s <= sequence_number p <
    ReorderingBuffer.next_expected_seq_ (ReorderingBuffer.step o s).2.
Proof.
  intros (Hn & _ & _ & _ & Hb). destruct o; cbn [ReorderingBuffer.step]; try done.
  destruct (getNext_cases s)
    as [[_ ->] | [(_ & q & Hq & ->) | [(_ & _ & _ & ->) | (_ & _ & q & Hq & ->)]]];
    cbn; try done; intros [= ->]; apply Hb in Hq; rewrite Hq.
  - destruct (u64_succ _ Hn) as [[? ->] | [? ->]]; lia.
  - destruct (u64_succ _ Hn) as [[? Hs] | [? Hs]]; rewrite Hs.
    + destruct (u64_succ (ReorderingBuffer.next_expected_seq_ s + 1))
        as [[? ->] | [? ->]]; lia.
    + change (u64 (0 + 1)) with 1. lia.
Qed.

Lemma released_seqs_increasing (ops : list ReorderingBuffer.op)
    (s : ReorderingBuffer.t) :
  ReorderingBuffer.wf s ->
  ReorderingBuffer.never_wraps ops s = true ->
  Forall (fun q => ReorderingBuffer.next_expected_seq_ s <= q)
         (ReorderingBuffer.released_seqs ops s) /\
  StronglySorted Z.lt (ReorderingBuffer.released_seqs ops s).
Proof.
  revert s. induction ops as [| o ops IH]; intros s Hwf Hnw.
  { split; constructor. }
  cbn [ReorderingBuffer.never_wraps] in Hnw.
  apply andb_true_iff in Hnw as [Hle Hnw]. apply Z.leb_le in Hle.
  destruct (IH _ (step_wf o s Hwf) Hnw) as [Hlow Hsorted].
  rewrite released_seqs_cons.
  destruct (ReorderingBuffer.step o s).1 as [p |] eqn:Hr; cbn [app].
  - pose proof (step_released_bounds o s p Hwf Hr Hle) as Hp.
    split.
    + constructor; [lia |]. eapply Forall_impl; [exact Hlow |].
      cbn. intros q Hq. lia.
    + constructor; [exact Hsorted |]. eapply Forall_impl; [exact Hlow |].
      cbn. intros q Hq. lia.
  - split; [| exact Hsorted]. eapply Forall_impl; [exact Hlow |].
    cbn. intros q Hq. lia.
Qed.











(** *** Inserts followed by calls of [getNext] *)

Lemma insert_all_cons (x : Z * Packet) (pkts : list (Z * Packet))
    (s : ReorderingBuffer.t) :
  ReorderingBuffer.insert_all (x :: pkts) s =
    ReorderingBuffer.insert_all pkts (ReorderingBuffer.insert x.1 x.2 s).
Proof.
  unfold ReorderingBuffer.insert_all.
  cbn [map ReorderingBuffer.run ReorderingBuffer.step].
  by destruct (ReorderingBuffer.run _ _).
Qed.

Lemma insert_all_wf (pkts : list (Z * Packet)) (s : ReorderingBuffer.t) :
  ReorderingBuffer.wf s -> ReorderingBuffer.wf (ReorderingBuffer.insert_all pkts s).
Proof.
  revert s. induction pkts as [| x pkts IH]; intros s Hwf; [exact Hwf |].
  rewrite insert_all_cons. by apply IH, insert_wf.
Qed.

Lemma insert_all_fields (pkts : list (Z * Packet)) (s : ReorderingBuffer.t) :
  let s' := ReorderingBuffer.insert_all pkts s in
  ReorderingBuffer.next_expected_seq_ s' = ReorderingBuffer.next_expected_seq_ s /\
  ReorderingBuffer.running_ s' = ReorderingBuffer.running_ s /\
  ReorderingBuffer.total_gaps_ s' = ReorderingBuffer.total_gaps_ s /\
  ReorderingBuffer.total_released_ s' = ReorderingBuffer.total_released_ s.
Proof.
  revert s. induction pkts as [| x pkts IH]; intros s; [done |].
  cbv zeta. rewrite insert_all_cons.
  apply (IH (ReorderingBuffer.insert x.1 x.2 s)).
Qed.

Lemma insert_all_lookup_Some (pkts : list (Z * Packet)) (s : ReorderingBuffer.t)
    (q : Z) (p : Packet) :
  ReorderingBuffer.buffer_ (ReorderingBuffer.insert_all pkts s) !! q = Some p ->
  ReorderingBuffer.buffer_ s !! q = Some p \/
  (p ∈ snd <$> pkts /\ sequence_number p = q).
Proof.
  revert s. induction pkts as [| x pkts IH]; intros s; [by left |].
  rewrite insert_all_cons. intros H. apply IH in H as [H | [H1 H2]].
  - cbn in H. rewrite lookup_insert in H. case_decide as Hq.
    + injection H as <-. right. split; [| done]. cbn. left.
    + by left.
  - right. split; [| done]. cbn. by right.
Qed.

Lemma insert_all_lookup_is_Some (pkts : list (Z * Packet))
    (s : ReorderingBuffer.t) (q : Z) :
  is_Some (ReorderingBuffer.buffer_ s !! q) \/
    q ∈ (fun x => sequence_number x.2) <$> pkts ->
  is_Some (ReorderingBuffer.buffer_ (ReorderingBuffer.insert_all pkts s) !! q).
Proof.
  revert s. induction pkts as [| x pkts IH]; intros s.
  - intros [H | H]; [exact H | by apply elem_of_nil in H].
  - rewrite insert_all_cons. intros H. apply IH. cbn.
    destruct (decide (sequence_number x.2 = q)) as [<- | Hne].
    + left. rewrite lookup_insert_eq. eauto.
    + rewrite lookup_insert_ne by done.
      destruct H as [H | H]; [by left |]. right.
      cbn in H. apply elem_of_cons in H as [H | H]; [congruence | done].
Qed.

Lemma insert_all_lookup_None (pkts : list (Z * Packet))
    (s : ReorderingBuffer.t) (q : Z) :
  ReorderingBuffer.buffer_ s !! q = None ->
  Forall (fun x => sequence_number x.2 <> q) pkts ->
  ReorderingBuffer.buffer_ (ReorderingBuffer.insert_all pkts s) !! q = None.
Proof.
  intros Hs Hall.
  destruct (ReorderingBuffer.buffer_ (ReorderingBuffer.insert_all pkts s) !! q)
    as [p |] eqn:Hp; [| reflexivity].
  apply insert_all_lookup_Some in Hp as [Hp | [Hin Hq]]; [congruence |].
  apply list_elem_of_fmap in Hin as (x & -> & Hx).
  rewrite Forall_forall in Hall. by apply Hall in Hx.
Qed.

Lemma getNext_pending (s : ReorderingBuffer.t) (p : Packet) :
  ReorderingBuffer.buffer_ s !! ReorderingBuffer.next_expected_seq_ s = Some p ->
  ReorderingBuffer.getNext s = (Some p, ReorderingBuffer.release s) /\
  ReorderingBuffer.deadline_elapsed s = false.
Proof.
  intros Hp. split.
  - destruct (getNext_cases s)
      as [[[_ He] _] | [(_ & q & Hq & ->) | [(_ & Hq & _) | (_ & Hq & _)]]];
      try congruence.
    by rewrite He, lookup_empty in Hp.
  - unfold ReorderingBuffer.deadline_elapsed, ReorderingBuffer.wait_until,
      ReorderingBuffer.wait_pred, ReorderingBuffer.count.
    rewrite Hp. by rewrite orb_true_r.
Qed.

(** [n] calls on a buffer in which the next [n] sequence numbers are all
    pending. *)
Lemma getNext_n_drain (n : nat) (s : ReorderingBuffer.t) :
  ReorderingBuffer.wf s ->
  ReorderingBuffer.next_expected_seq_ s + Z.of_nat n <= 2 ^ 64 ->
  (forall i, 0 <= i < Z.of_nat n ->
     is_Some (ReorderingBuffer.buffer_ s
                !! (ReorderingBuffer.next_expected_seq_ s + i))) ->
  exists (released : list Packet) (s2 : ReorderingBuffer.t),
    ReorderingBuffer.getNext_n n s =
      ((fun p => (false, Some p)) <$> released, s2) /\
    sequence_number <$> released =
      seqZ (ReorderingBuffer.next_expected_seq_ s) (Z.of_nat n) /\
    Forall (fun p => ReorderingBuffer.buffer_ s !! sequence_number p = Some p)
           released /\
    (forall k, ReorderingBuffer.buffer_ s2 !! k =
       if decide (ReorderingBuffer.next_expected_seq_ s <= k <
                  ReorderingBuffer.next_expected_seq_ s + Z.of_nat n)
       then None else ReorderingBuffer.buffer_ s !! k) /\
    ReorderingBuffer.total_gaps_ s2 = ReorderingBuffer.total_gaps_ s /\
    ReorderingBuffer.total_released_ s2 =
      u64 (ReorderingBuffer.total_released_ s + Z.of_nat n).
Proof.
  revert s. induction n as [| n IH]; intros s Hwf Hle Hall.
  { exists [], s. cbn [ReorderingBuffer.getNext_n fmap list_fmap].
    repeat split; try done.
    - intros k. case_decide; [lia | done].
    - rewrite Z.add_0_r. symmetry. apply u64_small.
      by destruct Hwf as (_ & _ & ? & _). }
  pose proof Hwf as (Hn & _ & Hrel & _ & Hkey).
  destruct (Hall 0 ltac:(lia)) as [p Hp]. rewrite Z.add_0_r in Hp.
  destruct (getNext_pending s p Hp) as [Hget Hde].
  pose proof (Hkey _ _ Hp) as Hseq.
  cbn [ReorderingBuffer.getNext_n]. rewrite Hget, Hde.
  destruct (decide (n = 0%nat)) as [-> | Hn0].
  { exists [p], (ReorderingBuffer.release s).
    cbn [ReorderingBuffer.getNext_n fmap list_fmap].
    repeat split; try done.
    - cbn. by rewrite Hseq.
    - constructor; [by rewrite Hseq | constructor].
    - intros k. cbn. rewrite lookup_delete. repeat case_decide; try done; lia. }
  assert (u64 (ReorderingBuffer.next_expected_seq_ s + 1) =
          ReorderingBuffer.next_expected_seq_ s + 1) as Hnext
      by (apply u64_small; lia).
  destruct (IH (ReorderingBuffer.release s)) as (rel & s2 & Hrun & Hseqs & Hin & Hbuf & Hg & Hr).
  - by apply release_wf.
  - cbn. rewrite Hnext. lia.
  - intros i Hi. cbn. rewrite Hnext.
    rewrite lookup_delete_ne by lia.
    replace (ReorderingBuffer.next_expected_seq_ s + 1 + i)
      with (ReorderingBuffer.next_expected_seq_ s + (i + 1)) by lia.
    apply Hall. lia.
  - exists (p :: rel), s2. rewrite Hrun. cbn in Hseqs, Hin, Hbuf, Hg, Hr.
    rewrite Hnext in Hseqs, Hbuf.
    repeat split.
    + rewrite fmap_cons, Hseq, Hseqs.
      rewrite (seqZ_cons (ReorderingBuffer.next_expected_seq_ s)) by lia.
      f_equal. f_equal; lia.
    + constructor; [by rewrite Hseq |].
      eapply Forall_impl; [exact Hin |]. cbn. intros q Hq.
      apply lookup_delete_Some in Hq. tauto.
    + intros k. rewrite Hbuf. rewrite lookup_delete.
      repeat case_decide; try done; lia.
    + exact Hg.
    + rewrite Hr. unfold u64. rewrite Zplus_mod_idemp_l. f_equal. lia.
Qed.

Lemma seqZ_strongly_sorted (n : nat) (m : Z) :
  StronglySorted Z.lt (seqZ m (Z.of_nat n)).
Proof.
  revert m. induction n as [| n IH]; intros m; [constructor |].
  rewrite seqZ_cons by lia.
  replace (Z.pred (Z.of_nat (S n))) with (Z.of_nat n) by lia.
  constructor; [apply IH |].
  apply Forall_forall. intros k Hk. apply elem_of_seqZ in Hk. lia.
Qed.

Lemma in_order_release_general (start timeout : Z) (pkts : list (Z * Packet))
    (n : nat) :
  0 <= start ->
  start + Z.of_nat n <= 2 ^ 64 ->
  ReorderingBuffer.contiguous_from start n pkts ->
  exists (released : list Packet) (s2 : ReorderingBuffer.t),
    ReorderingBuffer.getNext_n n
      (ReorderingBuffer.insert_all pkts (ReorderingBuffer.new start timeout)) =
      ((fun p => (false, Some p)) <$> released, s2) /\
    sequence_number <$> released = seqZ start (Z.of_nat n) /\
    StronglySorted Z.lt (sequence_number <$> released) /\
    Forall (fun p => p ∈ snd <$> pkts) released /\
    ReorderingBuffer.buffer_ s2 = ∅ /\
    ReorderingBuffer.total_gaps_ s2 = 0 /\
    ReorderingBuffer.total_released_ s2 = u64 (Z.of_nat n).
Proof.
  intros Hstart Hle [Hrange Hcover].
  set (s0 := ReorderingBuffer.new start timeout).
  set (s1 := ReorderingBuffer.insert_all pkts s0).
  destruct (decide (n = 0%nat)) as [-> | Hn0].
  { assert (pkts = []) as ->.
    { destruct pkts as [| x pkts]; [done |].
      apply Forall_cons in Hrange as [Hx _]. lia. }
    exists [], s0. repeat split; try done; constructor. }
  assert (ReorderingBuffer.wf s0) as Hwf0 by (apply new_wf; lia).
  assert (ReorderingBuffer.wf s1) as Hwf1 by by apply insert_all_wf.
  destruct (insert_all_fields pkts s0) as (Hnext & _ & Hgaps & Hrel).
  fold s1 in Hnext, Hgaps, Hrel. cbn in Hnext, Hgaps, Hrel.
  destruct (getNext_n_drain n s1 Hwf1)
    as (released & s2 & Hrun & Hseqs & Hin & Hbuf & Hg & Hr).
  - rewrite Hnext. exact Hle.
  - intros i Hi. rewrite Hnext. apply insert_all_lookup_is_Some. right.
    rewrite Forall_forall in Hcover. apply Hcover, elem_of_seqZ. lia.
  - rewrite Hnext in Hseqs, Hbuf. rewrite Hgaps in Hg. rewrite Hrel in Hr.
    exists released, s2. rewrite Hrun, Hseqs.
    repeat split; try done.
    + apply seqZ_strongly_sorted.
    + eapply Forall_impl; [exact Hin |]. cbn. intros p Hp.
      apply insert_all_lookup_Some in Hp as [Hp | [Hp _]]; [| exact Hp].
      unfold s0 in Hp. cbn in Hp. by rewrite lookup_empty in Hp.
    + apply map_empty. intros k. rewrite Hbuf. case_decide as Hk; [done |].
      apply insert_all_lookup_None; [apply lookup_empty |].
      eapply Forall_impl; [exact Hrange |]. cbn. intros x Hx. lia.
Qed.

(** C1. Let the packets inserted into a freshly constructed buffer carry
    exactly the sequence numbers start, start + 1, ..., start + n - 1, in
    any order of arrival. Then the n calls of [getNext] that follow each
    find their packet pending, so no deadline elapses and no gap is
    counted; they return inserted packets whose sequence numbers are
    start, start + 1, ..., start + n - 1 in this order, strictly
    increasing, and leave nothing pending. In particular, after inserts
    with sequence numbers 2, 0, 1 the calls return packet 0, then packet
    1, then packet 2. *)
Theorem in_order_release :
  (forall (start timeout : Z) (pkts : list (Z * Packet)) (n : nat),
      0 <= start ->
      start + Z.of_nat n <= 2 ^ 64 ->
      ReorderingBuffer.contiguous_from start n pkts ->
      exists (released : list Packet) (s2 : ReorderingBuffer.t),
        ReorderingBuffer.getNext_n n
          (ReorderingBuffer.insert_all pkts (ReorderingBuffer.new start timeout)) =
          ((fun p => (false, Some p)) <$> released, s2) /\
        sequence_number <$> released = seqZ start (Z.of_nat n) /\
        StronglySorted Z.lt (sequence_number <$> released) /\
        Forall (fun p => p ∈ snd <$> pkts) released /\
        ReorderingBuffer.buffer_ s2 = ∅ /\
        ReorderingBuffer.total_gaps_ s2 = 0 /\
        ReorderingBuffer.total_released_ s2 = u64 (Z.of_nat n)) /\
  (forall (timeout t0 t1 t2 : Z) (p0 p1 p2 : Packet),
      sequence_number p0 = 0 ->
      sequence_number p1 = 1 ->
      sequence_number p2 = 2 ->
      (ReorderingBuffer.getNext_n 3
         (ReorderingBuffer.insert_all [(t2, p2); (t0, p0); (t1, p1)]
            (ReorderingBuffer.new 0 timeout))).1 =
        [(false, Some p0); (false, Some p1); (false, Some p2)]).
Proof.
  split; [exact in_order_release_general |].
  intros timeout t0 t1 t2 p0 p1 p2 H0 H1 H2.
  destruct (in_order_release_general 0 timeout
              [(t2, p2); (t0, p0); (t1, p1)] 3)
    as (released & s2 & -> & Hseqs & _ & Hin & _); [lia | lia | |].
  { split.
    - repeat constructor; cbn; lia.
    - change (seqZ 0 (Z.of_nat 3)) with [0; 1; 2]. cbn. rewrite H0, H1, H2.
      repeat constructor; set_solver. }
  change (seqZ 0 (Z.of_nat 3)) with [0; 1; 2] in Hseqs.
  destruct released as [| a [| b [| c [| ? ?]]]]; try discriminate Hseqs.
  injection Hseqs as Ha Hb Hc.
  apply Forall_cons in Hin as [Hina Hin].
  apply Forall_cons in Hin as [Hinb Hin].
  apply Forall_cons in Hin as [Hinc _].
  cbn in Hina, Hinb, Hinc.
  assert (forall x, x ∈ [p2; p0; p1] -> x = p2 \/ x = p0 \/ x = p1) as Hcases.
  { intros x Hx. rewrite !elem_of_cons, elem_of_nil in Hx. tauto. }
  apply Hcases in Hina, Hinb, Hinc.
  assert (a = p0) as -> by (destruct Hina as [-> | [-> | ->]]; congruence || lia).
  assert (b = p1) as -> by (destruct Hinb as [-> | [-> | ->]]; congruence || lia).
  assert (c = p2) as -> by (destruct Hinc as [-> | [-> | ->]]; congruence || lia).
  reflexivity.
Qed.

(** Sequence numbers 12, 10, 11 into a buffer that starts at 10. *)
Lemma in_order_release_witness :
  let pkts := [(7, sample_packet 12 BULK); (8, sample_packet 10 CONTROL);
               (9, sample_packet 11 REAL_TIME)] in
  exists (released : list Packet) (s2 : ReorderingBuffer.t),
    ReorderingBuffer.getNext_n 3
      (ReorderingBuffer.insert_all pkts (ReorderingBuffer.new 10 50)) =
      ((fun p => (false, Some p)) <$> released, s2) /\
    sequence_number <$> released = [10; 11; 12].
Proof.
  intros pkts.
  destruct (proj1 in_order_release 10 50 pkts 3%nat)
    as (released & s2 & H1 & H2 & _).
  - lia.
  - lia.
  - split.
    + repeat constructor; cbn; lia.
    + repeat constructor; cbn; set_solver.
  - exists released, s2. split; [exact H1 | exact H2].
Defined.

(** ** The priority queue and the router *)

Section pq_facts.

Context {A : Type}.
Variable comp : A -> A -> bool.

Lemma extract_top_None (c : list A) :
  priority_queue.extract_top comp c = None <-> c = [].
Proof.
  destruct c as [| x c]; [done |]. cbn.
  destruct (priority_queue.extract_top comp c) as [[y rest] |];
    [destruct (comp x y) |]; done.
Qed.

Lemma extract_top_perm (c : list A) (m : A) (rest : list A) :
  priority_queue.extract_top comp c = Some (m, rest) ->
  Permutation c (m :: rest).
Proof.
  revert m rest. induction c as [| x c IH]; intros m rest; [done |]. cbn.
  destruct (priority_queue.extract_top comp c) as [[y r] |] eqn:He.
  - destruct (comp x y); intros [= <- <-].
    + rewrite (IH y r eq_refl). apply perm_swap.
    + reflexivity.
  - intros [= <- <-]. apply extract_top_None in He as ->. reflexivity.
Qed.

(** [comp] is the "comes later" test of a strict weak order. *)
Hypothesis comp_asym : forall x y, comp x y = true -> comp y x = false.
Hypothesis comp_negtrans :
  forall x y z, comp x y = false -> comp y z = false -> comp x z = false.

Lemma extract_top_max (c : list A) (m : A) (rest : list A) :
  priority_queue.extract_top comp c = Some (m, rest) ->
  Forall (fun z => comp m z = false) rest.
Proof.
  revert m rest. induction c as [| x c IH]; intros m rest; [done |]. cbn.
  destruct (priority_queue.extract_top comp c) as [[y r] |] eqn:He.
  - destruct (comp x y) eqn:Hxy; intros [= <- <-].
    + constructor; [by apply comp_asym | by apply IH].
    + pose proof (IH y r eq_refl) as Hr.
      rewrite (extract_top_perm c y r He).
      constructor; [exact Hxy |].
      eapply Forall_impl; [exact Hr |]. cbn. intros z Hz.
      by apply (comp_negtrans x y z).
  - intros [= <- <-]. constructor.
Qed.

End pq_facts.

Lemma Packet_gt_false (a b : Packet) :
  Packet_gt a b = false <-> dispatched_before a b.
Proof.
  unfold Packet_gt, dispatched_before, Priority_eqb.
  destruct a as [sa pa ? ? ? ?], b as [sb pb ? ? ? ?];
    cbn [priority sequence_number].
  rewrite !Z.gtb_ltb.
  destruct pa, pb; cbn [Priority_u8 dispatch_rank];
    repeat match goal with
      | |- context [Z.eqb ?x ?y] => destruct (Z.eqb_spec x y); try lia
      | |- context [Z.ltb ?x ?y] => destruct (Z.ltb_spec x y); try lia
      end;
    cbn [negb];
    (split;
     [ intros Hgt; try discriminate Hgt;
       (split; [lia | intros Heq; try discriminate Heq; lia])
     | intros [Hrank Hseq]; try reflexivity; try lia;
       try (specialize (Hseq eq_refl); lia) ]).
Qed.

Lemma dispatch_rank_inj (p q : Priority) :
  dispatch_rank p = dispatch_rank q -> p = q.
Proof. destruct p, q; cbn; intros H; done. Qed.

Lemma dispatched_before_trans (a b c : Packet) :
  dispatched_before a b -> dispatched_before b c -> dispatched_before a c.
Proof.
  unfold dispatched_before. intros [H1 H2] [H3 H4]. split; [lia |].
  intros Hac.
  assert (dispatch_rank (priority a) = dispatch_rank (priority c)) as Hr
      by (by rewrite Hac).
  assert (priority a = priority b) as Hab by (apply dispatch_rank_inj; lia).
  assert (priority b = priority c) as Hbc by congruence.
  specialize (H2 Hab). specialize (H4 Hbc). lia.
Qed.

Lemma dispatched_before_total (a b : Packet) :
  dispatched_before a b \/ dispatched_before b a.
Proof.
  unfold dispatched_before.
  destruct (Z.lt_trichotomy (dispatch_rank (priority a))
              (dispatch_rank (priority b))) as [H | [H | H]].
  - left. split; [lia |]. intros Heq. rewrite Heq in H. lia.
  - destruct (Z.le_ge_cases (sequence_number a) (sequence_number b)).
    + left. split; [lia | done].
    + right. split; [lia | intros _; lia].
  - right. split; [lia |]. intros Heq. rewrite Heq in H. lia.
Qed.

Lemma Packet_gt_asym (a b : Packet) :
  Packet_gt a b = true -> Packet_gt b a = false.
Proof.
  intros H. apply Packet_gt_false.
  destruct (dispatched_before_total a b) as [Hab | Hba]; [| exact Hba].
  apply Packet_gt_false in Hab. congruence.
Qed.

Lemma Packet_gt_negtrans (a b c : Packet) :
  Packet_gt a b = false -> Packet_gt b c = false -> Packet_gt a c = false.
Proof.
  rewrite !Packet_gt_false. apply dispatched_before_trans.
Qed.

Section router_facts.

Import PriorityRouter.

Lemma route_inv (pkt : Packet) (r r' : t) :
  route pkt r = Ok r' ->
  length (queues_ r) <> 0%nat /\
  mutex_in_range (queue_index pkt r) = true /\
  queues_ r' =
    alter (priority_queue.push pkt) (Z.to_nat (queue_index pkt r)) (queues_ r).
Proof.
  unfold route.
  destruct (Z.eqb_spec (Z.of_nat (length (queues_ r))) 0); [done |].
  destruct (mutex_in_range (queue_index pkt r)); cbn [negb]; [| done].
  intros [= <-]. cbn. repeat split. lia.
Qed.

Lemma route_all_queues (pkts : list Packet) (r r' : t) (q : nat)
    (c0 : list Packet) :
  route_all pkts r = Ok r' ->
  queues_ r !! q = Some c0 ->
  queues_ r' !! q =
    Some (rev (routed_to (Z.of_nat (length (queues_ r))) (Z.of_nat q) pkts)
            ++ c0) /\
  length (queues_ r') = length (queues_ r).
Proof.
  revert r c0. induction pkts as [| pkt pkts IH]; intros r c0.
  { intros [= <-] Hq. done. }
  cbn [route_all]. destruct (route pkt r) as [r1 | f] eqn:Hroute; [| done].
  cbn [mbind result_bind]. intros Hall Hq.
  apply route_inv in Hroute as (Hlen & _ & Hqs).
  assert (length (queues_ r1) = length (queues_ r)) as Hlen1
      by (rewrite Hqs; apply length_alter).
  set (N := Z.of_nat (length (queues_ r))) in *.
  assert (0 <= destination_id pkt mod N < N) as Hmod
      by (apply Z.mod_pos_bound; lia).
  unfold routed_to. rewrite filter_cons. fold (routed_to N (Z.of_nat q) pkts).
  destruct (decide (destination_id pkt mod N = Z.of_nat q)) as [He | Hne].
  - destruct (IH r1 (pkt :: c0) Hall) as [Hl Hn].
    + rewrite Hqs. unfold queue_index. fold N. rewrite He, Nat2Z.id.
      rewrite list_lookup_alter_eq, Hq. reflexivity.
    + rewrite Hlen1 in Hl, Hn. fold N in Hl. split; [| exact Hn].
      rewrite Hl. cbn [rev]. by rewrite <- app_assoc.
  - destruct (IH r1 c0 Hall) as [Hl Hn].
    + rewrite Hqs. unfold queue_index. fold N.
      rewrite list_lookup_alter_ne by lia. exact Hq.
    + rewrite Hlen1 in Hl, Hn. fold N in Hl. split; [exact Hl | exact Hn].
Qed.

Lemma dequeue_empty (q : Z) (r : t) :
  mutex_in_range q = true ->
  queues_ r !! Z.to_nat q = Some [] ->
  dequeue q r = Ok (None, r).
Proof. unfold dequeue. intros -> ->. reflexivity. Qed.

Lemma dequeue_nonempty (q : Z) (r : t) (c rest : list Packet) (x : Packet) :
  mutex_in_range q = true ->
  queues_ r !! Z.to_nat q = Some c ->
  priority_queue.extract_top Packet_gt c = Some (x, rest) ->
  exists r1, dequeue q r = Ok (Some x, r1) /\
             queues_ r1 !! Z.to_nat q = Some rest.
Proof.
  unfold dequeue. intros -> Hq He. rewrite Hq. cbn [negb].
  unfold priority_queue.top, priority_queue.pop. rewrite He.
  destruct c as [| y c]; [done |]. cbn [priority_queue.empty fmap option_fmap option_map fst].
  eexists. split; [reflexivity |]. cbn [queues_].
  apply list_lookup_insert_eq. by eapply lookup_lt_Some.
Qed.

Lemma dequeue_n_drain (q : Z) (m : nat) (c : list Packet) (r : t) :
  length c = m ->
  mutex_in_range q = true ->
  queues_ r !! Z.to_nat q = Some c ->
  exists (out : list Packet) (r2 : t),
    dequeue_n (S m) q r = Ok ((Some <$> out) ++ [None], r2) /\
    Permutation out c /\
    StronglySorted dispatched_before out.
Proof.
  revert c r. induction m as [| m IH]; intros c r Hlen Hmx Hq.
  - destruct c; [| done]. exists [], r.
    cbn [dequeue_n]. rewrite (dequeue_empty q r Hmx Hq).
    repeat split; constructor.
  - destruct (priority_queue.extract_top Packet_gt c) as [[x rest] |] eqn:He.
    2: { apply extract_top_None in He. by subst c. }
    pose proof (extract_top_perm _ _ _ _ He) as Hperm.
    destruct (dequeue_nonempty q r c rest x Hmx Hq He) as (r1 & Hd & Hq1).
    destruct (IH rest r1) as (out & r2 & Hrun & Hp & Hs); [| done | done |].
    { apply Permutation_length in Hperm. cbn in Hperm. lia. }
    exists (x :: out), r2.
    change (dequeue_n (S (S m)) q r)
      with (y ← dequeue q r; z ← dequeue_n (S m) q y.2; mret (y.1 :: z.1, z.2)).
    rewrite Hd. cbn [mbind result_bind snd fst]. rewrite Hrun.
    repeat split.
    + by rewrite Hperm, Hp.
    + constructor; [exact Hs |].
      rewrite Hp.
      eapply Forall_impl;
        [exact (extract_top_max Packet_gt Packet_gt_asym Packet_gt_negtrans
                  c x rest He) |].
      cbn. intros z Hz. by apply Packet_gt_false.
Qed.

Lemma route_defined (pkt : Packet) (r : t) :
  (1 <= length (queues_ r) <= 16)%nat ->
  exists r', route pkt r = Ok r' /\ length (queues_ r') = length (queues_ r).
Proof.
  intros Hlen. unfold route.
  destruct (Z.eqb_spec (Z.of_nat (length (queues_ r))) 0); [lia |].
  assert (mutex_in_range (queue_index pkt r) = true) as ->.
  { unfold mutex_in_range, queue_index, NUM_MUTEXES.
    pose proof (Z.mod_pos_bound (destination_id pkt)
                  (Z.of_nat (length (queues_ r)))).
    apply andb_true_intro. split; [apply Z.leb_le | apply Z.ltb_lt]; lia. }
  cbn [negb]. eexists. split; [reflexivity |]. cbn. apply length_alter.
Qed.

Lemma route_all_defined (pkts : list Packet) (r : t) :
  (1 <= length (queues_ r) <= 16)%nat ->
  exists r', route_all pkts r = Ok r'.
Proof.
  revert r. induction pkts as [| pkt pkts IH]; intros r Hlen; [by eexists |].
  cbn [route_all]. destruct (route_defined pkt r Hlen) as (r1 & -> & Hl).
  cbn [mbind result_bind]. apply IH. lia.
Qed.

End router_facts.

(** C3. A router of 1 to 16 queues routes every list of packets. Route
    any list of packets, in any order, through a router; the
    calls of [dequeue] on one of its queues then return exactly the
    packets filed under that queue, each once, in an order in which no
    packet comes after one of a later class (CONTROL, REAL_TIME,
    STREAMING, BULK, in this order) and, within one class, none comes
    after one with a larger sequence number; the call after the last
    packet returns nothing. In particular, packets of classes BULK,
    CONTROL, REAL_TIME, CONTROL, STREAMING with sequence numbers 10 to 14
    for one destination come out as 11, 13, 12, 14, 10. *)
Theorem dequeue_priority_order :
  (forall (n : Z) (pkts : list Packet) (r0 : PriorityRouter.t),
      1 <= n <= 16 ->
      PriorityRouter.new n = Some r0 ->
      exists r1, PriorityRouter.route_all pkts r0 = PriorityRouter.Ok r1) /\
  (forall (n q : Z) (pkts : list Packet) (r0 r1 : PriorityRouter.t),
      PriorityRouter.new n = Some r0 ->
      PriorityRouter.route_all pkts r0 = PriorityRouter.Ok r1 ->
      0 <= q < n ->
      q < PriorityRouter.NUM_MUTEXES ->
      exists (out : list Packet) (r2 : PriorityRouter.t),
        PriorityRouter.dequeue_n
          (S (length (PriorityRouter.routed_to n q pkts))) q r1 =
          PriorityRouter.Ok ((Some <$> out) ++ [None], r2) /\
        Permutation out (PriorityRouter.routed_to n q pkts) /\
        StronglySorted dispatched_before out) /\
  (forall (q : Z) (src t : Z -> Z) (pl : Z -> list Z),
      let pkt seq pr := mkPacket seq pr (src seq) q (t seq) (pl seq) in
      0 <= q < 8 ->
      exists (r0 r1 r2 : PriorityRouter.t),
        PriorityRouter.new 8 = Some r0 /\
        PriorityRouter.route_all
          [pkt 10 BULK; pkt 11 CONTROL; pkt 12 REAL_TIME; pkt 13 CONTROL;
           pkt 14 STREAMING] r0 = PriorityRouter.Ok r1 /\
        PriorityRouter.dequeue_n 6 q r1 =
          PriorityRouter.Ok
            ([Some (pkt 11 CONTROL); Some (pkt 13 CONTROL);
              Some (pkt 12 REAL_TIME); Some (pkt 14 STREAMING);
              Some (pkt 10 BULK); None], r2)).
Proof.
  split; [| split].
  - intros n pkts r0 Hn Hnew. apply route_all_defined.
    unfold PriorityRouter.new in Hnew.
    destruct (Z.ltb_spec n 0); [done |]. injection Hnew as <-. cbn.
    rewrite length_replicate. lia.
  - intros n q pkts r0 r1 Hnew Hroute Hq Hmx.
    unfold PriorityRouter.new in Hnew.
    destruct (Z.ltb_spec n 0); [done |]. injection Hnew as <-.
    assert (Z.to_nat q < Z.to_nat n)%nat as Hlt by lia.
    destruct (route_all_queues pkts _ r1 (Z.to_nat q) []
                Hroute (lookup_replicate_2 _ _ _ Hlt)) as [Hl _].
    cbn [PriorityRouter.queues_] in Hl.
    rewrite length_replicate, !Z2Nat.id, app_nil_r in Hl by lia.
    destruct (dequeue_n_drain q
                (length (PriorityRouter.routed_to n q pkts))
                (rev (PriorityRouter.routed_to n q pkts)) r1)
      as (out & r2 & Hrun & Hp & Hs).
    + apply length_rev.
    + unfold PriorityRouter.mutex_in_range.
      apply andb_true_intro. split; [apply Z.leb_le | apply Z.ltb_lt]; lia.
    + exact Hl.
    + exists out, r2. split; [exact Hrun |]. split; [| exact Hs].
      rewrite Hp. symmetry. apply Permutation_rev.
  - intros q src t pl pkt Hq.
    assert (q = 0 \/ q = 1 \/ q = 2 \/ q = 3 \/
            q = 4 \/ q = 5 \/ q = 6 \/ q = 7) as Hcases by lia.
    subst pkt.
    destruct Hcases as [-> | [-> | [-> | [-> | [-> | [-> | [-> | ->]]]]]]];
      (eexists _, _, _; split; [reflexivity |];
       split; [vm_compute; reflexivity | vm_compute; reflexivity]).
Qed.

(** C6. A router constructed with [n] output queues has [n] queues for
    its lifetime, and [route] locks the mutex with index
    [destination_id mod n] out of an array of 16. For [n] between 1 and 16
    that index is inside the array for every packet and [route] is
    defined; for [n] above 16 the packet with destination 16 makes [route]
    index the array at 16, outside it. [dequeue] locks the mutex at the
    index it is given, which is outside the array for every index from 16
    on, among them queue 16 of a router with more than 16 queues. *)
Theorem mutex_index_in_bounds_iff :
  (forall (n : Z) (r : PriorityRouter.t),
      PriorityRouter.new n = Some r ->
      Z.of_nat (length (PriorityRouter.queues_ r)) = n) /\
  (forall (pkt : Packet) (r r' : PriorityRouter.t),
      PriorityRouter.route pkt r = PriorityRouter.Ok r' ->
      length (PriorityRouter.queues_ r') = length (PriorityRouter.queues_ r)) /\
  (forall (n : Z) (r : PriorityRouter.t),
      Z.of_nat (length (PriorityRouter.queues_ r)) = n ->
      1 <= n ->
      (n <= 16 <->
         forall pkt : Packet,
           PriorityRouter.mutex_in_range (PriorityRouter.queue_index pkt r)
             = true) /\
      (n <= 16 ->
         forall pkt : Packet,
           PriorityRouter.queue_index pkt r = destination_id pkt mod n /\
           exists r', PriorityRouter.route pkt r = PriorityRouter.Ok r') /\
      (16 < n ->
         PriorityRouter.queue_index (packet_to 16) r = 16 /\
         PriorityRouter.route (packet_to 16) r =
           PriorityRouter.Undefined PriorityRouter.MutexIndexOutOfRange /\
         PriorityRouter.dequeue 16 r =
           PriorityRouter.Undefined PriorityRouter.MutexIndexOutOfRange) /\
      (forall q : Z,
         PriorityRouter.dequeue q r =
           PriorityRouter.Undefined PriorityRouter.MutexIndexOutOfRange <->
         ~ (0 <= q < 16))).
Proof.
  split; [| split].
  - intros n r. unfold PriorityRouter.new.
    destruct (Z.ltb_spec n 0); [done |]. intros [= <-]. cbn.
    rewrite length_replicate. lia.
  - intros pkt r r' H. apply route_inv in H as (_ & _ & ->).
    apply length_alter.
  - intros n r Hlen Hn.
    assert (forall pkt, PriorityRouter.queue_index pkt r = destination_id pkt mod n)
      as Hidx by (intros pkt; unfold PriorityRouter.queue_index; by rewrite Hlen).
    assert (forall q, PriorityRouter.mutex_in_range q = true <-> 0 <= q < 16)
      as Hmx.
    { intros q. unfold PriorityRouter.mutex_in_range, PriorityRouter.NUM_MUTEXES.
      rewrite andb_true_iff, Z.leb_le, Z.ltb_lt. reflexivity. }
    assert (16 < n -> PriorityRouter.queue_index (packet_to 16) r = 16) as H16.
    { intros Hgt. rewrite Hidx. cbn. apply Z.mod_small. lia. }
    assert (PriorityRouter.mutex_in_range 16 = false) as Hm16 by reflexivity.
    split; [split |]; [| | split; [| split]].
    + intros Hle pkt. apply Hmx. rewrite Hidx.
      pose proof (Z.mod_pos_bound (destination_id pkt) n). lia.
    + intros Hall. destruct (Z.le_gt_cases n 16) as [Hle | Hgt]; [exact Hle |].
      specialize (Hall (packet_to 16)). rewrite H16 in Hall by lia.
      rewrite Hm16 in Hall. discriminate.
    + intros Hle pkt. split; [apply Hidx |].
      unfold PriorityRouter.route. rewrite Hlen.
      destruct (Z.eqb_spec n 0); [lia |].
      assert (PriorityRouter.mutex_in_range (PriorityRouter.queue_index pkt r)
              = true) as ->.
      { apply Hmx. rewrite Hidx.
        pose proof (Z.mod_pos_bound (destination_id pkt) n). lia. }
      cbn [negb]. eauto.
    + intros Hgt. split; [by apply H16 |]. split.
      * unfold PriorityRouter.route. rewrite Hlen.
        destruct (Z.eqb_spec n 0); [lia |].
        rewrite H16 by done. rewrite Hm16. reflexivity.
      * unfold PriorityRouter.dequeue. rewrite Hm16. reflexivity.
    + intros q. rewrite <- Hmx. unfold PriorityRouter.dequeue.
      destruct (PriorityRouter.mutex_in_range q); cbn [negb].
      * split; [| done].
        destruct (PriorityRouter.queues_ r !! Z.to_nat q) as [c |]; [| done].
        destruct (priority_queue.empty c); [done |].
        destruct (priority_queue.top Packet_gt c); done.
      * split; [discriminate | done].
Qed.

(** A router of 17 queues and a packet for destination 16. *)
Lemma mutex_index_in_bounds_iff_witness :
  exists r : PriorityRouter.t,
    PriorityRouter.new 17 = Some r /\
    PriorityRouter.queue_index (packet_to 16) r = 16 /\
    PriorityRouter.route (packet_to 16) r =
      PriorityRouter.Undefined PriorityRouter.MutexIndexOutOfRange.
Proof.
  eexists. split; [reflexivity |].
  destruct mutex_index_in_bounds_iff as (Hnew & _ & H).
  destruct (H 17 _ (Hnew 17 _ eq_refl) ltac:(lia)) as (_ & _ & H17 & _).
  destruct (H17 ltac:(lia)) as (Hi & Hr & _).
  split; [exact Hi | exact Hr].
Defined.

(** Two packets for destination 5 in a router of 8 queues. *)
Lemma dequeue_priority_order_witness :
  let pkts := [sample_packet 4 BULK; sample_packet 9 CONTROL] in
  exists (r0 r1 : PriorityRouter.t),
    PriorityRouter.new 8 = Some r0 /\
    PriorityRouter.route_all pkts r0 = PriorityRouter.Ok r1 /\
    exists (out : list Packet) (r2 : PriorityRouter.t),
      PriorityRouter.dequeue_n 3 5 r1 =
        PriorityRouter.Ok ((Some <$> out) ++ [None], r2) /\
      StronglySorted dispatched_before out.
Proof.
  intros pkts.
  destruct (PriorityRouter.new 8) as [r0 |] eqn:Hnew;
    [| by vm_compute in Hnew].
  destruct (PriorityRouter.route_all pkts r0) as [r1 | f] eqn:Hroute.
  2: { exfalso. injection Hnew as <-. by vm_compute in Hroute. }
  exists r0, r1. split; [reflexivity |]. split; [exact Hroute |].
  destruct (proj1 (proj2 dequeue_priority_order) 8 5 pkts r0 r1 Hnew Hroute)
    as (out & r2 & H1 & _ & H3).
  - lia.
  - reflexivity.
  - exists out, r2. split; [exact H1 | exact H3].
Defined.

(** * Further properties of the code *)

(** ** The comparison of packets *)

(** X1. [operator>] is a strict weak order, as [std::priority_queue]
    requires of its comparison: no packet is greater than itself, of two
    packets at most one is greater than the other, the relation is
    transitive, and two packets neither of which is greater than the
    other have the same class and the same sequence number. CONTROL is
    below every other class; the other classes compare by their
    enumerator values. *)
Theorem Packet_gt_strict_weak_order :
  (forall a, Packet_gt a a = false) /\
  (forall a b, Packet_gt a b = true -> Packet_gt b a = false) /\
  (forall a b c,
      Packet_gt a b = true -> Packet_gt b c = true -> Packet_gt a c = true) /\
  (forall a b,
      Packet_gt a b = false -> Packet_gt b a = false ->
      priority a = priority b /\ sequence_number a = sequence_number b) /\
  (forall a b,
      Packet_gt a b = true <->
      dispatch_rank (priority a) > dispatch_rank (priority b) \/
      (priority a = priority b /\ sequence_number a > sequence_number b)).
Proof.
  assert (forall a b,
             Packet_gt a b = true <->
             dispatch_rank (priority a) > dispatch_rank (priority b) \/
             (priority a = priority b /\ sequence_number a > sequence_number b))
    as Hspec.
  { intros a b. destruct (Packet_gt a b) eqn:Hgt.
    - split; [intros _ | done].
      assert (~ dispatched_before a b) as Hn
          by (rewrite <- Packet_gt_false; congruence).
      unfold dispatched_before in Hn.
      destruct (Z.lt_trichotomy (dispatch_rank (priority a))
                  (dispatch_rank (priority b))) as [H | [H | H]].
      + exfalso. apply Hn. split; [lia |]. intros He. rewrite He in H. lia.
      + apply dispatch_rank_inj in H. right. split; [done |].
        destruct (Z.le_gt_cases (sequence_number a) (sequence_number b));
          [| lia].
        exfalso. apply Hn. split; [rewrite H; lia | done].
      + left. lia.
    - split; [done |]. apply Packet_gt_false in Hgt as [H1 H2].
      intros [H | [He H]]; [lia | specialize (H2 He); lia]. }
  split; [| split; [| split; [| split]]].
  - intros a. apply Packet_gt_false. split; [lia | intros _; lia].
  - apply Packet_gt_asym.
  - intros a b c Hab Hbc. apply Hspec in Hab, Hbc. apply Hspec.
    destruct Hab as [Hab | [Hab1 Hab2]], Hbc as [Hbc | [Hbc1 Hbc2]].
    + left. lia.
    + left. rewrite <- Hbc1. lia.
    + left. rewrite Hab1. lia.
    + right. split; [congruence | lia].
  - intros a b Hab Hba. apply Packet_gt_false in Hab as [H1 H2], Hba as [H3 H4].
    assert (priority a = priority b) as He by (apply dispatch_rank_inj; lia).
    split; [exact He |]. specialize (H2 He). specialize (H4 (eq_sym He)). lia.
  - exact Hspec.
Qed.

(** ** Accounting in the reordering buffer *)

Lemma released_cons (o : ReorderingBuffer.op) (ops : list ReorderingBuffer.op)
    (s : ReorderingBuffer.t) :
  released (o :: ops) s =
    match (ReorderingBuffer.step o s).1 with
    | Some p => [p]
    | None => []
    end ++ released ops (ReorderingBuffer.step o s).2.
Proof.
  unfold released. cbn [ReorderingBuffer.run].
  destruct (ReorderingBuffer.step o s) as [r s1]. cbn [fst snd].
  destruct (ReorderingBuffer.run ops s1) as [rs s2].
  destruct r; reflexivity.
Qed.

Lemma run_cons_state (o : ReorderingBuffer.op) (ops : list ReorderingBuffer.op)
    (s : ReorderingBuffer.t) :
  (ReorderingBuffer.run (o :: ops) s).2 =
    (ReorderingBuffer.run ops (ReorderingBuffer.step o s).2).2.
Proof.
  cbn [ReorderingBuffer.run].
  destruct (ReorderingBuffer.step o s) as [r s1]. cbn [snd].
  by destruct (ReorderingBuffer.run ops s1).
Qed.

(** What one call of [getNext] hands out was pending, and what stays
    pending was pending before. *)
Lemma getNext_from_buffer (s : ReorderingBuffer.t) :
  (forall p, (ReorderingBuffer.getNext s).1 = Some p ->
     exists k, ReorderingBuffer.buffer_ s !! k = Some p) /\
  (forall k p,
     ReorderingBuffer.buffer_ (ReorderingBuffer.getNext s).2 !! k = Some p ->
     ReorderingBuffer.buffer_ s !! k = Some p).
Proof.
  destruct (getNext_cases s)
    as [[_ ->] | [(_ & q & Hq & ->) | [(_ & _ & _ & ->) | (_ & _ & q & Hq & ->)]]];
    cbn; (split; [intros p Hp | intros k p Hp]); try done.
  - injection Hp as <-. eauto.
  - by apply lookup_delete_Some in Hp as [_ ?].
  - injection Hp as <-. eauto.
  - by apply lookup_delete_Some in Hp as [_ ?].
Qed.

Lemma released_from (Q : Packet -> Prop) (ops : list ReorderingBuffer.op)
    (s : ReorderingBuffer.t) :
  (forall k p, ReorderingBuffer.buffer_ s !! k = Some p -> Q p) ->
  Forall (fun p => Q p \/ p ∈ inserted ops) (released ops s).
Proof.
  revert Q s. induction ops as [| o ops IH]; intros Q s HQ; [constructor |].
  rewrite released_cons. apply Forall_app. split.
  - destruct (ReorderingBuffer.step o s).1 as [p |] eqn:Hp; [| constructor].
    constructor; [| constructor]. left.
    destruct o; cbn in Hp; try done.
    destruct (getNext_from_buffer s) as [H _].
    destruct (H p Hp) as [k Hk]. by apply (HQ k).
  - destruct o as [now pkt | |]; cbn [ReorderingBuffer.step snd inserted omap].
    + eapply Forall_impl.
      * apply (IH (fun p => Q p \/ p = pkt)).
        intros k p. cbn. rewrite lookup_insert. case_decide.
        -- intros [= <-]. by right.
        -- intros Hk. left. by apply (HQ k).
      * cbn. intros p [[H | ->] | H]; [by left | right; left | right; by right].
    + apply IH. intros k p Hk.
      destruct (getNext_from_buffer s) as [_ H]. by apply (HQ k), H.
    + apply IH. exact HQ.
Qed.

(** X2. Whatever [getNext] returns over a run of a new buffer is a packet
    that an [insert] of that run put in: the buffer hands out no packet of
    its own making. *)
Theorem released_were_inserted :
  forall (start timeout : Z) (ops : list ReorderingBuffer.op) (p : Packet),
    p ∈ released ops (ReorderingBuffer.new start timeout) ->
    p ∈ inserted ops.
Proof.
  intros start timeout ops p Hp.
  pose proof (released_from (fun _ => False) ops
                (ReorderingBuffer.new start timeout)) as H.
  rewrite Forall_forall in H.
  destruct (H ltac:(intros k q Hk; cbn in Hk; by rewrite lookup_empty in Hk) p Hp);
    done.
Qed.

(** A released packet in a concrete run. *)
Lemma released_were_inserted_witness :
  let ops := [ReorderingBuffer.Insert 0 (sample_packet 1 BULK);
              ReorderingBuffer.GetNext] in
  sample_packet 1 BULK ∈ released ops (ReorderingBuffer.new 0 50) /\
  sample_packet 1 BULK ∈ inserted ops.
Proof.
  intros ops.
  assert (sample_packet 1 BULK ∈ released ops (ReorderingBuffer.new 0 50))
    as H by (vm_compute; left).
  split; [exact H |].
  exact (released_were_inserted 0 50 ops _ H).
Defined.

Lemma u64_account_released (start n r g : Z) :
  n = u64 (start + r + g) -> u64 (n + 1) = u64 (start + u64 (r + 1) + g).
Proof.
  intros ->. unfold u64. change (2 ^ 64) with 18446744073709551616.
  Z.div_mod_to_equations. lia.
Qed.

Lemma u64_account_gap (start n r g : Z) :
  n = u64 (start + r + g) -> u64 (n + 1) = u64 (start + r + u64 (g + 1)).
Proof.
  intros ->. unfold u64. change (2 ^ 64) with 18446744073709551616.
  Z.div_mod_to_equations. lia.
Qed.

Lemma u64_add_nat_succ (x : Z) (n : nat) :
  u64 (u64 (x + 1) + Z.of_nat n) = u64 (x + Z.of_nat (S n)).
Proof.
  unfold u64. rewrite Zplus_mod_idemp_l. f_equal. lia.
Qed.

Lemma size_delete_present (m : gmap Z Packet) (k : Z) (p : Packet) :
  m !! k = Some p -> Z.of_nat (size (delete k m)) + 1 = Z.of_nat (size m).
Proof.
  intros H. rewrite map_size_delete, H.
  assert (size m <> 0%nat) by (eapply map_size_ne_0_lookup_2; eauto). lia.
Qed.

(** The bookkeeping of one call. *)
Lemma step_account (start : Z) (o : ReorderingBuffer.op)
    (s : ReorderingBuffer.t) :
  let r := (ReorderingBuffer.step o s).1 in
  let s' := (ReorderingBuffer.step o s).2 in
  let ins := match o with ReorderingBuffer.Insert _ _ => 1 | _ => 0 end in
  let rel := match r with Some _ => 1 | None => 0 end in
  ReorderingBuffer.total_received_ s' =
    (if decide (ins = 0) then ReorderingBuffer.total_received_ s
     else u64 (ReorderingBuffer.total_received_ s + 1)) /\
  ReorderingBuffer.total_released_ s' =
    (if decide (rel = 0) then ReorderingBuffer.total_released_ s
     else u64 (ReorderingBuffer.total_released_ s + 1)) /\
  (ReorderingBuffer.next_expected_seq_ s =
     u64 (start + ReorderingBuffer.total_released_ s
          + ReorderingBuffer.total_gaps_ s) ->
   ReorderingBuffer.next_expected_seq_ s' =
     u64 (start + ReorderingBuffer.total_released_ s'
          + ReorderingBuffer.total_gaps_ s')) /\
  Z.of_nat (size (ReorderingBuffer.buffer_ s')) + rel <=
    Z.of_nat (size (ReorderingBuffer.buffer_ s)) + ins.
Proof.
  destruct o as [now pkt | |]; cbn [ReorderingBuffer.step fst snd].
  - cbn. repeat split; [done |].
    rewrite map_size_insert.
    destruct (ReorderingBuffer.buffer_ s !! sequence_number pkt); cbn; lia.
  - destruct (getNext_cases s)
      as [[_ ->] | [(_ & q & Hq & ->) | [(_ & _ & _ & ->) | (_ & _ & q & Hq & ->)]]];
      cbn.
    + repeat split; [done | lia].
    + repeat split; [apply u64_account_released |].
      pose proof (size_delete_present _ _ _ Hq). lia.
    + repeat split; [apply u64_account_gap | lia].
    + repeat split.
      * intros H. apply u64_account_released. by apply u64_account_gap.
      * pose proof (size_delete_present _ _ _ Hq). lia.
  - cbn. repeat split; [done | lia].
Qed.

Lemma run_account (start : Z) (ops : list ReorderingBuffer.op)
    (s : ReorderingBuffer.t) :
  ReorderingBuffer.wf s ->
  let s' := (ReorderingBuffer.run ops s).2 in
  ReorderingBuffer.total_received_ s' =
    u64 (ReorderingBuffer.total_received_ s + Z.of_nat (length (inserted ops))) /\
  ReorderingBuffer.total_released_ s' =
    u64 (ReorderingBuffer.total_released_ s
         + Z.of_nat (length (released ops s))) /\
  (ReorderingBuffer.next_expected_seq_ s =
     u64 (start + ReorderingBuffer.total_released_ s
          + ReorderingBuffer.total_gaps_ s) ->
   ReorderingBuffer.next_expected_seq_ s' =
     u64 (start + ReorderingBuffer.total_released_ s'
          + ReorderingBuffer.total_gaps_ s')) /\
  (size (ReorderingBuffer.buffer_ s') + length (released ops s) <=
     size (ReorderingBuffer.buffer_ s) + length (inserted ops))%nat.
Proof.
  revert s. induction ops as [| o ops IH]; intros s Hwf; cbv zeta.
  { cbn. destruct Hwf as (_ & ? & ? & _).
    rewrite !Z.add_0_r, !u64_small by done. repeat split; [done | lia]. }
  rewrite run_cons_state, released_cons.
  destruct (IH _ (step_wf o s Hwf)) as (IH1 & IH2 & IH3 & IH4).
  pose proof (step_account start o s) as (S1 & S2 & S3 & S4). cbv zeta in *.
  rewrite length_app.
  assert (length (inserted (o :: ops)) =
          (match o with ReorderingBuffer.Insert _ _ => 1 | _ => 0 end
           + length (inserted ops))%nat) as ->
      by (destruct o; reflexivity).
  split; [| split; [| split]].
  - rewrite IH1, S1. clear. destruct o; case_decide; try done.
    by rewrite u64_add_nat_succ.
  - rewrite IH2, S2. clear. destruct (ReorderingBuffer.step o s).1; case_decide;
      try done.
    by rewrite u64_add_nat_succ.
  - auto.
  - destruct (ReorderingBuffer.step o s).1, o; cbn [length] in *; lia.
Qed.

(** X3. After any run of [insert], [getNext] and [stop] on a new buffer,
    the received counter is the number of inserts and the released
    counter the number of packets returned (both as 64-bit counters); the
    next expected sequence number is the start sequence plus the packets
    released plus the gaps counted, modulo 2^64; and the packets still
    pending together with those released are never more than those
    inserted. *)
Theorem counters_account :
  forall (start timeout : Z) (ops : list ReorderingBuffer.op),
    0 <= start < 2 ^ 64 ->
    let s0 := ReorderingBuffer.new start timeout in
    let s' := (ReorderingBuffer.run ops s0).2 in
    ReorderingBuffer.total_received_ s' = u64 (Z.of_nat (length (inserted ops))) /\
    ReorderingBuffer.total_released_ s' =
      u64 (Z.of_nat (length (released ops s0))) /\
    ReorderingBuffer.next_expected_seq_ s' =
      u64 (start + ReorderingBuffer.total_released_ s'
           + ReorderingBuffer.total_gaps_ s') /\
    (size (ReorderingBuffer.buffer_ s') + length (released ops s0) <=
       length (inserted ops))%nat.
Proof.
  intros start timeout ops Hstart s0 s'.
  destruct (run_account start ops s0 (new_wf start timeout Hstart))
    as (H1 & H2 & H3 & H4).
  fold s' in H1, H2, H3, H4. cbn in H1, H2, H4.
  repeat split; [exact H1 | exact H2 | | exact H4].
  apply H3. cbn. rewrite !Z.add_0_r. symmetry. by apply u64_small.
Qed.

(** Two inserts with one sequence number, a release and a gap. *)
Lemma counters_account_witness :
  let ops := [ReorderingBuffer.Insert 0 (sample_packet 3 BULK);
              ReorderingBuffer.Insert 1 (sample_packet 3 CONTROL);
              ReorderingBuffer.GetNext; ReorderingBuffer.GetNext] in
  let s' := (ReorderingBuffer.run ops (ReorderingBuffer.new 3 50)).2 in
  ReorderingBuffer.total_received_ s' = 2 /\
  ReorderingBuffer.total_released_ s' = 1 /\
  ReorderingBuffer.total_gaps_ s' = 1 /\
  ReorderingBuffer.next_expected_seq_ s' = 5.
Proof.
  intros ops s'.
  destruct (counters_account 3 50 ops ltac:(lia)) as (H1 & H2 & H3 & _).
  fold s' in H1, H2, H3.
  split; [exact H1 |]. split; [exact H2 |]. split; [reflexivity |]. exact H3.
Defined.

(** X4. A packet that arrives late, with a sequence number already
    skipped, stays pending: over any further run in which the next
    expected sequence number does not wrap around, every released
    sequence number is at least the next expected one at the start, so a
    sequence number below it is never released and its entry is never
    erased. *)
Theorem late_packet_retained :
  forall (s : ReorderingBuffer.t) (ops : list ReorderingBuffer.op) (k : Z),
    ReorderingBuffer.wf s ->
    ReorderingBuffer.never_wraps ops s = true ->
    k < ReorderingBuffer.next_expected_seq_ s ->
    is_Some (ReorderingBuffer.buffer_ s !! k) ->
    is_Some (ReorderingBuffer.buffer_ (ReorderingBuffer.run ops s).2 !! k) /\
    (k ∉ ReorderingBuffer.released_seqs ops s) /\
    Forall (fun q => ReorderingBuffer.next_expected_seq_ s <= q)
           (ReorderingBuffer.released_seqs ops s).
Proof.
  intros s ops k Hwf Hnw Hk Hin.
  destruct (released_seqs_increasing ops s Hwf Hnw) as [Hlow _].
  split; [| split; [| exact Hlow]].
  - clear Hlow. revert s Hwf Hnw Hk Hin.
    induction ops as [| o ops IH]; intros s Hwf Hnw Hk Hin; [exact Hin |].
    rewrite run_cons_state. cbn [ReorderingBuffer.never_wraps] in Hnw.
    apply andb_true_iff in Hnw as [Hle Hnw]. apply Z.leb_le in Hle.
    apply IH; [by apply step_wf | exact Hnw | lia |].
    destruct Hwf as (Hn & _).
    destruct o as [now pkt | |]; cbn [ReorderingBuffer.step snd] in *.
    + cbn. rewrite lookup_insert. case_decide; [eauto | done].
    + destruct (getNext_cases s)
        as [[_ ->] | [(_ & q & Hq & Hg) | [(_ & _ & _ & ->) | (_ & _ & q & Hq & Hg)]]];
        try done; rewrite Hg in Hle |- *; cbn in Hle |- *.
      * rewrite lookup_delete_ne by lia. done.
      * rewrite lookup_delete_ne; [done |].
        destruct (u64_succ _ Hn) as [[? Hs] | [? Hs]]; rewrite Hs in Hle |- *;
          [lia |].
        change (u64 (0 + 1)) with 1 in Hle. lia.
    + done.
  - intros Hrel. rewrite Forall_forall in Hlow. apply Hlow in Hrel. lia.
Qed.

(** Two timeouts, then packet 0 arrives late and packet 2 in time. *)
Lemma late_packet_retained_witness :
  let s := ReorderingBuffer.insert 9 (sample_packet 0 BULK)
             (ReorderingBuffer.getNext
                (ReorderingBuffer.getNext (ReorderingBuffer.new 0 50)).2).2 in
  let ops := [ReorderingBuffer.Insert 10 (sample_packet 2 BULK);
              ReorderingBuffer.GetNext; ReorderingBuffer.GetNext] in
  ReorderingBuffer.released_seqs ops s = [2] /\
  is_Some (ReorderingBuffer.buffer_ (ReorderingBuffer.run ops s).2 !! 0).
Proof.
  intros s ops. split; [vm_compute; reflexivity |].
  apply (late_packet_retained s ops 0).
  - apply insert_wf. do 2 apply getNext_wf. apply new_wf. lia.
  - vm_compute. reflexivity.
  - vm_compute. reflexivity.
  - vm_compute. eauto.
Defined.

(** X5. On a running buffer with nothing pending, [n] calls of [getNext]
    in a row all time out and return nothing; together they count [n]
    gaps and advance the next expected sequence number by [n] (modulo
    2^64), and nothing else changes. *)
Theorem timeouts_count_gaps :
  forall (n : nat) (s : ReorderingBuffer.t),
    ReorderingBuffer.wf s ->
    ReorderingBuffer.running_ s = true ->
    ReorderingBuffer.buffer_ s = ∅ ->
    let '(outs, s') := ReorderingBuffer.getNext_n n s in
    outs = replicate n (true, None) /\
    ReorderingBuffer.total_gaps_ s' =
      u64 (ReorderingBuffer.total_gaps_ s + Z.of_nat n) /\
    ReorderingBuffer.next_expected_seq_ s' =
      u64 (ReorderingBuffer.next_expected_seq_ s + Z.of_nat n) /\
    ReorderingBuffer.total_released_ s' = ReorderingBuffer.total_released_ s /\
    ReorderingBuffer.total_received_ s' = ReorderingBuffer.total_received_ s /\
    ReorderingBuffer.buffer_ s' = ∅ /\
    ReorderingBuffer.running_ s' = true.
Proof.
  induction n as [| n IH]; intros s Hwf Hr He.
  { cbn. destruct Hwf as (? & _ & _ & ? & _).
    rewrite !Z.add_0_r, !u64_small by done. done. }
  cbn [ReorderingBuffer.getNext_n].
  assert (ReorderingBuffer.getNext s = (None, ReorderingBuffer.skip s)) as ->.
  { destruct (getNext_cases s)
      as [[[Hr' _] _] | [(_ & p & Hp & _) | [(_ & _ & _ & ->) | (_ & _ & p & Hp & _)]]];
      [congruence | | done |]; by rewrite He, lookup_empty in Hp. }
  assert (ReorderingBuffer.deadline_elapsed s = true) as ->.
  { unfold ReorderingBuffer.deadline_elapsed, ReorderingBuffer.wait_until,
      ReorderingBuffer.wait_pred, ReorderingBuffer.count.
    by rewrite Hr, He, lookup_empty. }
  specialize (IH (ReorderingBuffer.skip s) (skip_wf s Hwf) Hr He).
  destruct (ReorderingBuffer.getNext_n n (ReorderingBuffer.skip s)) as [outs s'].
  destruct IH as (-> & Hg & Hn & Hrel & Hrec & Hb & Hrun). cbn in Hg, Hn, Hrel, Hrec.
  repeat split; try done.
  - rewrite Hg. apply u64_add_nat_succ.
  - rewrite Hn. apply u64_add_nat_succ.
Qed.

(** Three timeouts on a new buffer. *)
Lemma timeouts_count_gaps_witness :
  let s := ReorderingBuffer.new 7 50 in
  (ReorderingBuffer.getNext_n 3 s).1 = replicate 3 (true, None) /\
  ReorderingBuffer.total_gaps_ (ReorderingBuffer.getNext_n 3 s).2 = 3 /\
  ReorderingBuffer.next_expected_seq_ (ReorderingBuffer.getNext_n 3 s).2 = 10.
Proof.
  intros s.
  pose proof (timeouts_count_gaps 3 s (new_wf 7 50 ltac:(lia)) eq_refl eq_refl)
    as H.
  destruct (ReorderingBuffer.getNext_n 3 s) as [outs s'].
  destruct H as (H1 & H2 & H3 & _).
  split; [exact H1 |]. split; [exact H2 | exact H3].
Defined.

(** ** Draining what is pending *)

Lemma getNext_n_nothing_pending (n : nat) (s : ReorderingBuffer.t) :
  ReorderingBuffer.buffer_ s = ∅ ->
  omap snd (ReorderingBuffer.getNext_n n s).1 = [] /\
  ReorderingBuffer.buffer_ (ReorderingBuffer.getNext_n n s).2 = ∅.
Proof.
  revert s. induction n as [| n IH]; intros s He; [done |].
  cbn [ReorderingBuffer.getNext_n].
  assert ((ReorderingBuffer.getNext s).1 = None /\
          ReorderingBuffer.buffer_ (ReorderingBuffer.getNext s).2 = ∅) as [Hr Hb].
  { destruct (getNext_cases s)
      as [[_ ->] | [(_ & p & Hp & _) | [(_ & _ & _ & ->) | (_ & _ & p & Hp & _)]]];
      try done; by rewrite He, lookup_empty in Hp. }
  destruct (ReorderingBuffer.getNext s) as [r s1]. cbn in Hr, Hb. subst r.
  specialize (IH s1 Hb).
  destruct (ReorderingBuffer.getNext_n n s1) as [outs s2]. exact IH.
Qed.

Lemma pending_release (s : ReorderingBuffer.t) (p : Packet) :
  ReorderingBuffer.buffer_ s !! ReorderingBuffer.next_expected_seq_ s = Some p ->
  Permutation (p :: pending (ReorderingBuffer.release s)) (pending s).
Proof.
  intros Hp. unfold pending. cbn.
  rewrite <- (map_to_list_delete _ _ _ Hp). reflexivity.
Qed.

(** The calls after one that hands out [x] (no packet or one). *)
Lemma drain_combine (d : nat) (s s1 : ReorderingBuffer.t) (x : list Packet) :
  Permutation (x ++ pending s1) (pending s) ->
  (length x <= 1)%nat ->
  Forall (fun p => ReorderingBuffer.next_expected_seq_ s <= sequence_number p) x ->
  let rel' := omap snd (ReorderingBuffer.getNext_n d s1).1 in
  ReorderingBuffer.buffer_ s1 = ∅ \/
    (ReorderingBuffer.next_expected_seq_ s
       <= ReorderingBuffer.next_expected_seq_ s1 /\
     Forall (fun p => sequence_number p
                      < ReorderingBuffer.next_expected_seq_ s1) x /\
     Permutation rel' (pending s1) /\
     StronglySorted Z.lt (sequence_number <$> rel') /\
     Forall (fun q => ReorderingBuffer.next_expected_seq_ s1 <= q)
            (sequence_number <$> rel') /\
     ReorderingBuffer.buffer_ (ReorderingBuffer.getNext_n d s1).2 = ∅) ->
  Permutation (x ++ rel') (pending s) /\
  StronglySorted Z.lt (sequence_number <$> x ++ rel') /\
  Forall (fun q => ReorderingBuffer.next_expected_seq_ s <= q)
         (sequence_number <$> x ++ rel') /\
  ReorderingBuffer.buffer_ (ReorderingBuffer.getNext_n d s1).2 = ∅.
Proof.
  intros Hperm Hlen Hx rel' [He1 | (Hle & Hlt & Hp1 & Hs1 & Hl1 & Hb1)].
  - subst rel'. destruct (getNext_n_nothing_pending d s1 He1) as [-> Hb].
    rewrite app_nil_r.
    assert (pending s1 = []) as Hp1
        by (unfold pending; by rewrite He1, map_to_list_empty).
    rewrite Hp1, app_nil_r in Hperm.
    split; [exact Hperm |]. split; [| split; [| exact Hb]].
    + destruct x as [| a [| ? ?]]; cbn in Hlen; [constructor | | lia].
      cbn. repeat constructor.
    + by apply Forall_fmap.
  - split; [by rewrite Hp1 |]. split; [| split; [| exact Hb1]].
    + rewrite fmap_app. destruct x as [| a [| ? ?]]; cbn in Hlen; [done | | lia].
      cbn. constructor; [exact Hs1 |].
      apply Forall_cons in Hlt as [Ha _].
      eapply Forall_impl; [exact Hl1 |]. cbn. intros q Hq. lia.
    + rewrite fmap_app. apply Forall_app. split.
      * by apply Forall_fmap.
      * eapply Forall_impl; [exact Hl1 |]. cbn. intros q Hq. lia.
Qed.

Lemma drain_pending (d : nat) (s : ReorderingBuffer.t) (B : Z) :
  ReorderingBuffer.wf s ->
  B <= 2 ^ 64 ->
  B - ReorderingBuffer.next_expected_seq_ s <= Z.of_nat d ->
  (forall k, is_Some (ReorderingBuffer.buffer_ s !! k) ->
     ReorderingBuffer.next_expected_seq_ s <= k < B) ->
  let rel := omap snd (ReorderingBuffer.getNext_n d s).1 in
  Permutation rel (pending s) /\
  StronglySorted Z.lt (sequence_number <$> rel) /\
  Forall (fun q => ReorderingBuffer.next_expected_seq_ s <= q)
         (sequence_number <$> rel) /\
  ReorderingBuffer.buffer_ (ReorderingBuffer.getNext_n d s).2 = ∅.
Proof.
  revert s B. induction d as [| d IH]; intros s B Hwf HB Hd Hkeys;
    destruct (decide (ReorderingBuffer.buffer_ s = ∅)) as [He | Hne].
  1, 3: match goal with
        | |- context [ReorderingBuffer.getNext_n ?n ?x] =>
            destruct (getNext_n_nothing_pending n x He) as [Hr Hb]
        end; cbv zeta; rewrite Hr;
    unfold pending; rewrite He, map_to_list_empty;
    repeat split; [constructor .. | exact Hb].
  { apply map_choose in Hne as (k & p & Hk). specialize (Hkeys k ltac:(eauto)).
    lia. }
  pose proof Hwf as (Hn & _ & _ & _ & Hkey).
  cbv zeta. cbn [ReorderingBuffer.getNext_n].
  destruct (getNext_cases s)
    as [[[_ He] _] | [(_ & p & Hp & Hg)
        | [(_ & Hn0 & Hn1 & Hg) | (_ & Hn0 & p & Hp & Hg)]]]; [done | | |];
    rewrite Hg.
  - (* the awaited packet is pending *)
    pose proof (Hkey _ _ Hp) as Hseq.
    pose proof (drain_combine d s (ReorderingBuffer.release s) [p]
                  (pending_release s p Hp) ltac:(cbn; lia)) as Hc.
    cbv zeta in Hc.
    destruct (ReorderingBuffer.getNext_n d (ReorderingBuffer.release s))
      as [outs s2] eqn:Hrun. cbn [fst snd omap option_bind] in Hc |- *.
    apply Hc; [constructor; [lia | constructor] |].
    destruct (decide (ReorderingBuffer.buffer_ (ReorderingBuffer.release s) = ∅))
      as [He1 | Hne1]; [by left | right].
    apply map_choose in Hne1 as Hex. destruct Hex as (k & q & Hk). cbn in Hk.
    apply lookup_delete_Some in Hk as [Hk1 Hk2].
    pose proof (Hkeys k ltac:(eauto)) as Hkb.
    assert (ReorderingBuffer.next_expected_seq_ (ReorderingBuffer.release s)
            = ReorderingBuffer.next_expected_seq_ s + 1) as Hnext
        by (cbn; apply u64_small; lia).
    rewrite Hnext.
    split; [lia |]. split; [constructor; [lia | constructor] |].
    pose proof (IH (ReorderingBuffer.release s) B (release_wf s Hwf) HB) as IH'.
    rewrite Hnext, Hrun in IH'. cbn [fst snd] in IH'. apply IH'; [lia |].
    intros k'. cbn. rewrite lookup_delete. case_decide; [by intros [] |].
    intros Hk'. specialize (Hkeys k' Hk'). lia.
  - (* a gap, and nothing behind it *)
    apply map_choose in Hne as Hex. destruct Hex as (k & q & Hk).
    pose proof (Hkeys k ltac:(eauto)) as Hkb.
    assert (k <> ReorderingBuffer.next_expected_seq_ s) by congruence.
    assert (ReorderingBuffer.next_expected_seq_ (ReorderingBuffer.skip s)
            = ReorderingBuffer.next_expected_seq_ s + 1) as Hnext
        by (cbn; apply u64_small; lia).
    pose proof (IH (ReorderingBuffer.skip s) B (skip_wf s Hwf) HB) as IH'.
    rewrite Hnext in IH'.
    destruct (ReorderingBuffer.getNext_n d (ReorderingBuffer.skip s))
      as [outs s2] eqn:Hrun. cbn [fst snd omap option_bind] in IH' |- *.
    destruct IH' as (H1 & H2 & H3 & H4); [lia | |].
    { intros k' Hk'. cbn in Hk'. pose proof (Hkeys k' Hk').
      assert (k' <> ReorderingBuffer.next_expected_seq_ s)
        by (intros ->; rewrite Hn0 in Hk'; by destruct Hk').
      lia. }
    split; [exact H1 |]. split; [exact H2 |]. split; [| exact H4].
    eapply Forall_impl; [exact H3 |]. cbn. intros; lia.
  - (* a gap, and the packet behind it *)
    pose proof (Hkeys _ ltac:(eauto)) as Hkb.
    assert (u64 (ReorderingBuffer.next_expected_seq_ s + 1)
            = ReorderingBuffer.next_expected_seq_ s + 1) as Hu.
    { destruct (u64_succ _ Hn) as [[? Hs] | [? Hs]]; [exact Hs |].
      rewrite Hs in Hkb. lia. }
    rewrite Hu in Hp.
    pose proof (Hkey _ _ Hp) as Hseq.
    assert (Permutation ([p] ++ pending (ReorderingBuffer.release
                                           (ReorderingBuffer.skip s)))
                        (pending s)) as Hperm.
    { unfold pending. cbn. rewrite Hu.
      rewrite <- (map_to_list_delete _ _ _ Hp). reflexivity. }
    pose proof (drain_combine d s
                  (ReorderingBuffer.release (ReorderingBuffer.skip s)) [p]
                  Hperm ltac:(cbn; lia)) as Hc.
    cbv zeta in Hc.
    destruct (ReorderingBuffer.getNext_n d
                (ReorderingBuffer.release (ReorderingBuffer.skip s)))
      as [outs s2] eqn:Hrun. cbn [fst snd omap option_bind] in Hc |- *.
    apply Hc; [constructor; [lia | constructor] |].
    destruct (decide (ReorderingBuffer.buffer_
                        (ReorderingBuffer.release (ReorderingBuffer.skip s)) = ∅))
      as [He1 | Hne1]; [by left | right].
    apply map_choose in Hne1 as Hex. destruct Hex as (k & q & Hk). cbn in Hk.
    rewrite Hu in Hk. apply lookup_delete_Some in Hk as [Hk1 Hk2].
    pose proof (Hkeys k ltac:(eauto)) as Hkb'.
    assert (k <> ReorderingBuffer.next_expected_seq_ s) by congruence.
    assert (ReorderingBuffer.next_expected_seq_
              (ReorderingBuffer.release (ReorderingBuffer.skip s))
            = ReorderingBuffer.next_expected_seq_ s + 2) as Hnext.
    { cbn. rewrite Hu. rewrite u64_small by lia. lia. }
    rewrite Hnext.
    split; [lia |]. split; [constructor; [lia | constructor] |].
    pose proof (IH (ReorderingBuffer.release (ReorderingBuffer.skip s)) B
                  (release_wf _ (skip_wf s Hwf)) HB) as IH'.
    rewrite Hnext, Hrun in IH'. cbn [fst snd] in IH'. apply IH'; [lia |].
    intros k'. cbn. rewrite Hu, lookup_delete. case_decide; [by intros [] |].
    intros Hk'. pose proof (Hkeys k' Hk').
    assert (k' <> ReorderingBuffer.next_expected_seq_ s)
      by (intros ->; rewrite Hn0 in Hk'; by destruct Hk').
    lia.
Qed.

Lemma getNext_n_running (n : nat) (s : ReorderingBuffer.t) :
  ReorderingBuffer.running_ (ReorderingBuffer.getNext_n n s).2 =
    ReorderingBuffer.running_ s.
Proof.
  revert s. induction n as [| n IH]; intros s; [reflexivity |].
  cbn [ReorderingBuffer.getNext_n].
  assert (ReorderingBuffer.running_ (ReorderingBuffer.getNext s).2 =
          ReorderingBuffer.running_ s) as Hr.
  { destruct (getNext_cases s)
      as [[_ ->] | [(_ & p & _ & ->) | [(_ & _ & _ & ->) | (_ & _ & p & _ & ->)]]];
      reflexivity. }
  destruct (ReorderingBuffer.getNext s) as [r s1]. cbn in Hr.
  specialize (IH s1).
  destruct (ReorderingBuffer.getNext_n n s1) as [outs s2]. cbn in *. congruence.
Qed.

(** X6. Let every pending packet have a sequence number from the next
    expected one up to below [B]. Then [B - next_expected_seq_] calls of
    [getNext], with no insert in between, hand out every pending packet
    exactly once, in strictly increasing order of sequence number,
    skipping the gaps between them, and leave nothing pending; this holds
    whether the buffer is running or shut down. *)
Theorem pending_drained_in_order :
  forall (d : nat) (s : ReorderingBuffer.t) (B : Z),
    ReorderingBuffer.wf s ->
    B <= 2 ^ 64 ->
    B - ReorderingBuffer.next_expected_seq_ s <= Z.of_nat d ->
    (forall k, is_Some (ReorderingBuffer.buffer_ s !! k) ->
       ReorderingBuffer.next_expected_seq_ s <= k < B) ->
    let '(outs, s') := ReorderingBuffer.getNext_n d s in
    Permutation (omap snd outs) (pending s) /\
    StronglySorted Z.lt (sequence_number <$> omap snd outs) /\
    ReorderingBuffer.buffer_ s' = ∅ /\
    ReorderingBuffer.running_ s' = ReorderingBuffer.running_ s.
Proof.
  intros d s B Hwf HB Hd Hkeys.
  pose proof (drain_pending d s B Hwf HB Hd Hkeys) as (H1 & H2 & _ & H4).
  pose proof (getNext_n_running d s) as H5.
  destruct (ReorderingBuffer.getNext_n d s) as [outs s']. done.
Qed.

(** Packets 5 and 2 pending in a buffer that was shut down at 0. *)
Lemma pending_drained_in_order_witness :
  let s := ReorderingBuffer.stop
             (ReorderingBuffer.insert 1 (sample_packet 2 BULK)
                (ReorderingBuffer.insert 0 (sample_packet 5 CONTROL)
                   (ReorderingBuffer.new 0 50))) in
  omap snd (ReorderingBuffer.getNext_n 6 s).1
    = [sample_packet 2 BULK; sample_packet 5 CONTROL] /\
  ReorderingBuffer.buffer_ (ReorderingBuffer.getNext_n 6 s).2 = ∅.
Proof.
  intros s. split; [vm_compute; reflexivity |].
  assert (ReorderingBuffer.wf s) as Hwf
      by (apply stop_wf; do 2 apply insert_wf; apply new_wf; lia).
  pose proof (pending_drained_in_order 6 s 6 Hwf ltac:(lia) ltac:(cbn; lia))
    as H.
  destruct (ReorderingBuffer.getNext_n 6 s) as [outs s'].
  apply H. intros k [q Hk]. subst s. cbn in Hk.
  rewrite !lookup_insert in Hk. cbn.
  repeat case_decide; try lia. by rewrite lookup_empty in Hk.
Defined.

(** ** What the router keeps *)

Lemma int32_succ (a : Z) :
  PriorityRouter.int32 (PriorityRouter.int32 a + 1) = PriorityRouter.int32 (a + 1).
Proof.
  unfold PriorityRouter.int32.
  change (2 ^ 31) with 2147483648. change (2 ^ 32) with 4294967296.
  Z.div_mod_to_equations. lia.
Qed.

Lemma int32_pred (a : Z) :
  PriorityRouter.int32 (PriorityRouter.int32 a - 1) = PriorityRouter.int32 (a - 1).
Proof.
  unfold PriorityRouter.int32.
  change (2 ^ 31) with 2147483648. change (2 ^ 32) with 4294967296.
  Z.div_mod_to_equations. lia.
Qed.

Lemma concat_alter_cons {A : Type} (ls : list (list A)) (i : nat) (x : A)
    (c : list A) :
  ls !! i = Some c ->
  Permutation (concat (alter (cons x) i ls)) (x :: concat ls).
Proof.
  revert i. induction ls as [| l ls IH]; intros [| i] Hi; try done.
  cbn. rewrite (IH i Hi). symmetry. apply Permutation_middle.
Qed.

Lemma concat_insert_rest {A : Type} (ls : list (list A)) (i : nat) (x : A)
    (c rest : list A) :
  ls !! i = Some c ->
  Permutation c (x :: rest) ->
  Permutation (x :: concat (<[i := rest]> ls)) (concat ls).
Proof.
  revert i. induction ls as [| l ls IH]; intros [| i] Hi Hp; try done.
  - simplify_eq/=. by rewrite Hp.
  - cbn. rewrite <- (IH i Hi Hp). apply Permutation_middle.
Qed.

(** The result of [dequeue] on a queue that exists. *)
Lemma dequeue_cases (q : Z) (r : PriorityRouter.t) (c : list Packet) :
  PriorityRouter.mutex_in_range q = true ->
  PriorityRouter.queues_ r !! Z.to_nat q = Some c ->
  (c = [] /\ PriorityRouter.dequeue q r = PriorityRouter.Ok (None, r)) \/
  (exists x rest,
      priority_queue.extract_top Packet_gt c = Some (x, rest) /\
      PriorityRouter.dequeue q r =
        PriorityRouter.Ok
          (Some x,
           {| PriorityRouter.queues_ :=
                <[Z.to_nat q := rest]> (PriorityRouter.queues_ r);
              PriorityRouter.queue_sizes_ :=
                alter (fun n => PriorityRouter.int32 (n - 1)) (Z.to_nat q)
                      (PriorityRouter.queue_sizes_ r);
              PriorityRouter.total_routed_ := PriorityRouter.total_routed_ r |})).
Proof.
  intros Hmx Hq. unfold PriorityRouter.dequeue. rewrite Hmx, Hq. cbn [negb].
  destruct (priority_queue.extract_top Packet_gt c) as [[x rest] |] eqn:He.
  - right. exists x, rest. split; [done |].
    unfold priority_queue.top, priority_queue.pop. rewrite He.
    destruct c; [done |]. reflexivity.
  - left. apply extract_top_None in He as ->. done.
Qed.

Lemma route_step (pkt : Packet) (r r' : PriorityRouter.t) :
  PriorityRouter.route pkt r = PriorityRouter.Ok r' ->
  length (PriorityRouter.queues_ r') = length (PriorityRouter.queues_ r) /\
  PriorityRouter.total_routed_ r' = u64 (PriorityRouter.total_routed_ r + 1) /\
  Permutation (concat (PriorityRouter.queues_ r'))
              (pkt :: concat (PriorityRouter.queues_ r)) /\
  (sizes_agree r -> sizes_agree r').
Proof.
  unfold PriorityRouter.route.
  destruct (Z.eqb_spec (Z.of_nat (length (PriorityRouter.queues_ r))) 0) as [| Hn];
    [done |].
  destruct (PriorityRouter.mutex_in_range (PriorityRouter.queue_index pkt r));
    cbn [negb]; [| done].
  intros [= <-]. cbn.
  set (i := Z.to_nat (PriorityRouter.queue_index pkt r)).
  assert (i < length (PriorityRouter.queues_ r))%nat as Hi.
  { subst i. unfold PriorityRouter.queue_index.
    pose proof (Z.mod_pos_bound (destination_id pkt)
                  (Z.of_nat (length (PriorityRouter.queues_ r)))). lia. }
  destruct (lookup_lt_is_Some_2 _ _ Hi) as [c Hc].
  split; [apply length_alter |]. split; [reflexivity |].
  split; [by eapply concat_alter_cons |].
  intros [Hlen Hsz]. split; cbn; [by rewrite !length_alter |].
  intros j cj. destruct (decide (i = j)) as [<- | Hne].
  - rewrite !list_lookup_alter_eq, Hc, (Hsz i c Hc). cbn. intros [= <-].
    cbn [priority_queue.push length].
    rewrite Nat2Z.inj_succ. unfold Z.succ. by rewrite int32_succ.
  - rewrite !list_lookup_alter_ne by done. apply Hsz.
Qed.

Lemma dequeue_step (q : Z) (r r' : PriorityRouter.t) (x : option Packet) :
  PriorityRouter.dequeue q r = PriorityRouter.Ok (x, r') ->
  length (PriorityRouter.queues_ r') = length (PriorityRouter.queues_ r) /\
  PriorityRouter.total_routed_ r' = PriorityRouter.total_routed_ r /\
  Permutation (concat (PriorityRouter.queues_ r') ++ option_list x)
              (concat (PriorityRouter.queues_ r)) /\
  (sizes_agree r -> sizes_agree r').
Proof.
  intros Hd.
  assert (PriorityRouter.mutex_in_range q = true) as Hmx.
  { unfold PriorityRouter.dequeue in Hd.
    by destruct (PriorityRouter.mutex_in_range q). }
  destruct (PriorityRouter.queues_ r !! Z.to_nat q) as [c |] eqn:Hq.
  2: { unfold PriorityRouter.dequeue in Hd. by rewrite Hmx, Hq in Hd. }
  destruct (dequeue_cases q r c Hmx Hq) as [[-> Hr] | (p & rest & He & Hr)];
    rewrite Hr in Hd; injection Hd as <- <-.
  - cbn. rewrite app_nil_r. done.
  - pose proof (extract_top_perm _ _ _ _ He) as Hperm. cbn.
    split; [apply length_insert |]. split; [reflexivity |]. split.
    + rewrite <- (concat_insert_rest _ _ p c rest Hq Hperm).
      symmetry. apply Permutation_cons_append.
    + intros [Hlen Hsz]. split; cbn; [by rewrite length_alter, length_insert |].
      intros j cj. destruct (decide (Z.to_nat q = j)) as [<- | Hne].
      * rewrite list_lookup_insert_eq by by eapply lookup_lt_Some.
        intros [= <-]. rewrite list_lookup_alter_eq, (Hsz _ c Hq). cbn.
        rewrite int32_pred. apply Permutation_length in Hperm.
        cbn [length] in Hperm. rewrite Hperm, Nat2Z.inj_succ.
        do 2 f_equal. lia.
      * rewrite list_lookup_insert_ne, list_lookup_alter_ne by done. apply Hsz.
Qed.

Lemma router_run_keeps (ops : list router_op) (r r' : PriorityRouter.t)
    (outs : list (option Packet)) :
  router_run ops r = PriorityRouter.Ok (outs, r') ->
  length (PriorityRouter.queues_ r') = length (PriorityRouter.queues_ r) /\
  (0 <= PriorityRouter.total_routed_ r < 2 ^ 64 ->
   PriorityRouter.total_routed_ r' =
     u64 (PriorityRouter.total_routed_ r + Z.of_nat (length (routed ops)))) /\
  Permutation (concat (PriorityRouter.queues_ r') ++ omap id outs)
              (routed ops ++ concat (PriorityRouter.queues_ r)) /\
  (sizes_agree r -> sizes_agree r').
Proof.
  revert r r' outs. induction ops as [| [pkt | q] ops IH]; intros r r' outs.
  - intros [= <- <-]. cbn. rewrite app_nil_r, Z.add_0_r.
    split; [done |]. split; [| done]. intros H. symmetry. by apply u64_small.
  - cbn [router_run routed omap]. 
    destruct (PriorityRouter.route pkt r) as [r1 | f] eqn:Hroute; [| done].
    cbn [mbind PriorityRouter.result_bind]. intros Hrun.
    destruct (route_step pkt r r1 Hroute) as (Hl1 & Ht1 & Hp1 & Hs1).
    destruct (IH r1 r' outs Hrun) as (Hl & Ht & Hp & Hs).
    split; [congruence |]. split; [| split; [| by auto]].
    + intros Hr. rewrite Ht, Ht1 by (rewrite Ht1; apply u64_range).
      cbn [length]. by rewrite u64_add_nat_succ.
    + rewrite Hp, Hp1. cbn. symmetry. apply Permutation_middle.
  - cbn [router_run routed omap].
    destruct (PriorityRouter.dequeue q r) as [[x r1] | f] eqn:Hd; [| done].
    cbn [mbind PriorityRouter.result_bind fst snd].
    destruct (router_run ops r1) as [[outs1 r2] | f] eqn:Hrun; [| done].
    cbn [mbind PriorityRouter.result_bind mret PriorityRouter.result_ret fst snd].
    intros [= <- <-].
    destruct (dequeue_step q r r1 x Hd) as (Hl1 & Ht1 & Hp1 & Hs1).
    destruct (IH r1 r2 outs1 Hrun) as (Hl & Ht & Hp & Hs).
    split; [congruence |]. split; [| split; [| by auto]].
    + intros Hr. rewrite Ht, Ht1 by by rewrite Ht1. reflexivity.
    + rewrite <- Hp1.
      assert (omap id (x :: outs1) = option_list x ++ omap id outs1) as ->
          by by destruct x.
      rewrite (Permutation_app_comm (option_list x)), app_assoc, Hp.
      rewrite <- app_assoc. reflexivity.
Qed.

Lemma new_router_state (n : Z) (r : PriorityRouter.t) :
  PriorityRouter.new n = Some r ->
  length (PriorityRouter.queues_ r) = Z.to_nat n /\
  concat (PriorityRouter.queues_ r) = [] /\
  PriorityRouter.total_routed_ r = 0 /\
  sizes_agree r.
Proof.
  unfold PriorityRouter.new. destruct (Z.ltb_spec n 0); [done |].
  intros [= <-]. cbn. rewrite length_replicate.
  split; [done |]. split; [| split; [done |]].
  - induction (Z.to_nat n) as [| m IH]; [done | exact IH].
  - split; cbn; [by rewrite !length_replicate |].
    intros i c Hc. apply lookup_replicate in Hc as [-> Hi].
    by apply lookup_replicate_2.
Qed.

(** X7. Over any run of [route] and [dequeue] calls on a new router that
    stays within defined behaviour, the number of queues stays as
    constructed, every depth counter equals the length of its queue (as
    an [int]), and the routed total equals the number of [route] calls
    (as a 64-bit counter). *)
Theorem router_counters_agree :
  forall (n : Z) (ops : list router_op) (r0 r : PriorityRouter.t)
         (outs : list (option Packet)),
    PriorityRouter.new n = Some r0 ->
    router_run ops r0 = PriorityRouter.Ok (outs, r) ->
    length (PriorityRouter.queues_ r) = Z.to_nat n /\
    sizes_agree r /\
    PriorityRouter.total_routed_ r = u64 (Z.of_nat (length (routed ops))).
Proof.
  intros n ops r0 r outs Hnew Hrun.
  destruct (new_router_state n r0 Hnew) as (Hl0 & _ & Ht0 & Hs0).
  destruct (router_run_keeps ops r0 r outs Hrun) as (Hl & Ht & _ & Hs).
  split; [congruence |]. split; [by auto |].
  rewrite Ht, Ht0 by (rewrite Ht0; lia). reflexivity.
Qed.

(** X8. In such a run no packet is lost or duplicated by the router: the
    packets still queued together with those the [dequeue] calls
    returned are exactly the packets routed, each as often as it was
    routed. *)
Theorem router_conserves_packets :
  forall (n : Z) (ops : list router_op) (r0 r : PriorityRouter.t)
         (outs : list (option Packet)),
    PriorityRouter.new n = Some r0 ->
    router_run ops r0 = PriorityRouter.Ok (outs, r) ->
    Permutation (concat (PriorityRouter.queues_ r) ++ omap id outs)
                (routed ops).
Proof.
  intros n ops r0 r outs Hnew Hrun.
  destruct (new_router_state n r0 Hnew) as (_ & Hc0 & _).
  destruct (router_run_keeps ops r0 r outs Hrun) as (_ & _ & Hp & _).
  by rewrite Hp, Hc0, app_nil_r.
Qed.

(** Routes and dequeues interleaved on a router of four queues. *)
Lemma router_counters_agree_witness :
  exists (r0 r : PriorityRouter.t) (outs : list (option Packet)),
    PriorityRouter.new 4 = Some r0 /\
    router_run [DoRoute (packet_to 6); DoRoute (packet_to 1); DoDequeue 2;
                DoDequeue 3; DoRoute (packet_to 2)] r0
      = PriorityRouter.Ok (outs, r) /\
    PriorityRouter.total_routed_ r = 3 /\
    sizes_agree r.
Proof.
  eexists _, _, _. split; [reflexivity |].
  match goal with
  | |- ?run = _ /\ _ =>
      let v := eval vm_compute in run in
      assert (run = v) as Hrun by (vm_compute; reflexivity)
  end.
  split; [exact Hrun |].
  destruct (router_counters_agree 4 _ _ _ _ eq_refl Hrun) as (_ & Hs & Ht).
  split; [exact Ht | exact Hs].
Defined.

(** The same run: two packets still queued, one handed out. *)
Lemma router_conserves_packets_witness :
  exists (r0 r : PriorityRouter.t) (outs : list (option Packet)),
    PriorityRouter.new 4 = Some r0 /\
    router_run [DoRoute (packet_to 6); DoRoute (packet_to 1); DoDequeue 2;
                DoDequeue 3; DoRoute (packet_to 2)] r0
      = PriorityRouter.Ok (outs, r) /\
    Permutation (concat (PriorityRouter.queues_ r) ++ omap id outs)
                [packet_to 6; packet_to 1; packet_to 2].
Proof.
  eexists _, _, _. split; [reflexivity |].
  match goal with
  | |- ?run = _ /\ _ =>
      let v := eval vm_compute in run in
      assert (run = v) as Hrun by (vm_compute; reflexivity)
  end.
  split; [exact Hrun |].
  exact (router_conserves_packets 4 _ _ _ _ eq_refl Hrun).
Defined.

(** X9. What one [dequeue] does, in any state of the router. It is
    undefined exactly when the index has no mutex (it is outside 0..15) or
    no queue (it is at or beyond the number of queues), and defined, with
    an index inside both, otherwise. On an empty queue it returns nothing
    and changes nothing. Otherwise it returns a packet of that queue which
    no other packet of the queue precedes (in class, then in sequence
    number), removes that one packet from the queue, and leaves the other
    queues and the routed total untouched. *)
Theorem dequeue_returns_best :
  forall (q : Z) (r : PriorityRouter.t),
    let queues := Z.of_nat (length (PriorityRouter.queues_ r)) in
    ((exists f, PriorityRouter.dequeue q r = PriorityRouter.Undefined f) <->
     ~ (0 <= q < 16) \/ queues <= q) /\
    match PriorityRouter.dequeue q r with
    | PriorityRouter.Undefined f =>
        (f = PriorityRouter.MutexIndexOutOfRange /\ ~ (0 <= q < 16)) \/
        (f = PriorityRouter.QueueIndexOutOfRange /\ 0 <= q < 16 /\
         queues <= q)
    | PriorityRouter.Ok (None, r') =>
        0 <= q < 16 /\ q < queues /\
        r' = r /\ PriorityRouter.queues_ r !! Z.to_nat q = Some []
    | PriorityRouter.Ok (Some p, r') =>
        0 <= q < 16 /\ q < queues /\
        exists c rest : list Packet,
          PriorityRouter.queues_ r !! Z.to_nat q = Some c /\
          p ∈ c /\
          Forall (dispatched_before p) c /\
          Permutation c (p :: rest) /\
          PriorityRouter.queues_ r' =
            <[Z.to_nat q := rest]> (PriorityRouter.queues_ r) /\
          PriorityRouter.total_routed_ r' = PriorityRouter.total_routed_ r
    end.
Proof.
  intros q r queues.
  assert (PriorityRouter.mutex_in_range q = true <-> 0 <= q < 16) as Hmx.
  { unfold PriorityRouter.mutex_in_range, PriorityRouter.NUM_MUTEXES.
    rewrite andb_true_iff, Z.leb_le, Z.ltb_lt. reflexivity. }
  destruct (PriorityRouter.mutex_in_range q) eqn:Hm.
  2: { assert (~ (0 <= q < 16)) as Hout by (rewrite <- Hmx; done).
       unfold PriorityRouter.dequeue. rewrite Hm. cbn. split.
       - split; [by left | by eexists].
       - left. by split. }
  assert (0 <= q < 16) as Hin by (by apply Hmx).
  destruct (PriorityRouter.queues_ r !! Z.to_nat q) as [c |] eqn:Hq.
  2: { assert (queues <= q) as Hge
         by (apply lookup_ge_None in Hq; subst queues; lia).
       unfold PriorityRouter.dequeue. rewrite Hm, Hq. cbn. split.
       - split; [by right | by eexists].
       - right. by split. }
  assert (q < queues) as Hlt
    by (apply lookup_lt_Some in Hq; subst queues; lia).
  assert (Hdefined : forall x,
            PriorityRouter.dequeue q r = PriorityRouter.Ok x ->
            (exists f, PriorityRouter.dequeue q r = PriorityRouter.Undefined f)
            <-> ~ (0 <= q < 16) \/ queues <= q).
  { intros x Hx. rewrite Hx. split.
    - intros [f Hf]. discriminate.
    - intros [Hout | Hge]; [done | lia]. }
  destruct (dequeue_cases q r c Hm Hq) as [[Hc Hd] | (p & rest & He & Hd)].
  { split; [by eapply Hdefined |]. rewrite Hd. by subst c. }
  split; [by eapply Hdefined |]. rewrite Hd.
  split; [exact Hin |]. split; [exact Hlt |].
  pose proof (extract_top_perm _ _ _ _ He) as Hperm.
  exists c, rest. split; [done |]. split.
  { rewrite Hperm. left. }
  split; [| done].
  rewrite Hperm. constructor.
  - split; [lia | intros _; lia].
  - eapply Forall_impl;
      [exact (extract_top_max Packet_gt Packet_gt_asym Packet_gt_negtrans
                c p rest He) |].
    cbn. intros z Hz. by apply Packet_gt_false.
Qed.

(** ** The exchange buffer as a queue *)

Lemma mod_wrap (C x : Z) :
  0 < C -> 0 <= x < 2 * C ->
  x mod C = if decide (x < C) then x else x - C.
Proof.
  intros HC Hx. case_decide; [apply Z.mod_small; lia |].
  replace x with (x - C + 1 * C) at 1 by lia.
  rewrite Z_mod_plus_full. apply Z.mod_small. lia.
Qed.

Lemma spsc_size_mod {T : Type} (k : Z) (rb : SPSCRingBuffer.t (T:=T)) :
  0 <= k <= 63 ->
  SPSCRingBuffer.wf (2 ^ k) rb ->
  SPSCRingBuffer.size (2 ^ k) rb =
    if decide (SPSCRingBuffer.tail_ rb <= SPSCRingBuffer.head_ rb)
    then SPSCRingBuffer.head_ rb - SPSCRingBuffer.tail_ rb
    else SPSCRingBuffer.head_ rb - SPSCRingBuffer.tail_ rb + 2 ^ k.
Proof.
  intros Hk (Hh & Ht & _).
  assert (0 < 2 ^ k <= 2 ^ 63) as Hp.
  { split; [apply Z.pow_pos_nonneg; lia |].
    apply Z.pow_le_mono_r; lia. }
  unfold SPSCRingBuffer.size, size_t.
  rewrite (Z.mod_small (2 ^ k - 1)) by lia.
  replace (2 ^ k - 1) with (Z.ones k) by (rewrite Z.ones_equiv; lia).
  rewrite Z.land_ones by lia.
  rewrite Z.mod_mod_divide.
  2: { exists (2 ^ (64 - k)). rewrite <- Z.pow_add_r by lia. f_equal. lia. }
  case_decide; [apply Z.mod_small; lia |].
  rewrite <- (Z_mod_plus_full _ 1 (2 ^ k)).
  rewrite Z.mul_1_l. apply Z.mod_small. lia.
Qed.

Section spsc_queue_facts.

Context {T : Type}.
Variable k : Z.
Hypothesis k_range : 0 <= k <= 63.
Variable T_default : T.
Variable moved_from : T -> T.

#[local] Abbreviation C := (2 ^ k).

Lemma spsc_capacity_pos : 0 < C <= 2 ^ 63.
Proof.
  split; [apply Z.pow_pos_nonneg; lia |].
  apply Z.pow_le_mono_r; lia.
Qed.

Lemma spsc_contents_length (rb : SPSCRingBuffer.t) :
  length (spsc_contents C T_default rb) = Z.to_nat (SPSCRingBuffer.size C rb).
Proof. unfold spsc_contents. by rewrite length_fmap, length_seq. Qed.

Lemma spsc_push_refines (x : T) (rb : SPSCRingBuffer.t) :
  SPSCRingBuffer.wf C rb ->
  let r := SPSCRingBuffer.tryPush C moved_from x rb in
  let q := spsc_contents C T_default rb in
  (r.1.1, spsc_contents C T_default r.2) =
    (if Z.of_nat (length q) <? C - 1 then (true, q ++ [x]) else (false, q)).
Proof.
  intros Hwf r q. subst r q. pose proof spsc_capacity_pos as HC.
  pose proof Hwf as (Hh & Ht & Hl).
  pose proof (spsc_size_mod k rb k_range Hwf) as Hsz.
  rewrite spsc_contents_length.
  unfold SPSCRingBuffer.tryPush. rewrite spsc_mask by lia.
  rewrite (mod_wrap C (SPSCRingBuffer.head_ rb + 1)) by lia.
  set (h := SPSCRingBuffer.head_ rb) in *.
  set (tl := SPSCRingBuffer.tail_ rb) in *.
  destruct (Z.eqb_spec (if decide (h + 1 < C) then h + 1 else h + 1 - C) tl)
    as [Hfull | Hnf]; cbn [fst snd].
  - destruct (Z.ltb_spec (Z.of_nat (Z.to_nat (SPSCRingBuffer.size C rb))) (C - 1));
      [| done].
    exfalso. rewrite Hsz in *. repeat case_decide; lia.
  - destruct (Z.ltb_spec (Z.of_nat (Z.to_nat (SPSCRingBuffer.size C rb))) (C - 1))
      as [Hlt | Hge].
    2: { exfalso. rewrite Hsz in *. repeat case_decide; lia. }
    f_equal. unfold spsc_contents.
    set (rb' := SPSCRingBuffer.mk _ _ _).
    assert (SPSCRingBuffer.wf C rb') as Hwf'.
    { subst rb'. repeat split; cbn; try (repeat case_decide; lia).
      by rewrite length_insert. }
    pose proof (spsc_size_mod k rb' k_range Hwf') as Hsz'.
    assert (SPSCRingBuffer.size C rb' = SPSCRingBuffer.size C rb + 1) as Hsz1.
    { rewrite Hsz', Hsz. subst rb'. cbn. fold h tl.
      repeat case_decide; lia. }
    assert (0 <= SPSCRingBuffer.size C rb < C - 1) as Hszr
        by (rewrite Hsz in *; repeat case_decide; lia).
    rewrite Hsz1, Z2Nat.inj_add by lia.
    change (Z.to_nat 1) with 1%nat. rewrite Nat.add_1_r, seq_S, fmap_app.
    cbn [Nat.add fmap list_fmap]. subst rb'. cbn [SPSCRingBuffer.tail_ SPSCRingBuffer.buffer_].
    fold tl. f_equal.
    + apply Forall_fmap_ext, Forall_forall. intros i Hi. apply elem_of_seq in Hi.
      rewrite list_lookup_insert_ne; [done |].
      rewrite (mod_wrap C (tl + Z.of_nat i)) by lia.
      fold h. rewrite Hsz in *. repeat case_decide; lia.
    + f_equal. rewrite Z2Nat.id by lia.
      assert ((tl + SPSCRingBuffer.size C rb) mod C = h) as ->.
      { rewrite mod_wrap by lia. rewrite Hsz. repeat case_decide; lia. }
      rewrite list_lookup_insert_eq by lia. reflexivity.
Qed.

Lemma spsc_pop_refines (rb : SPSCRingBuffer.t) :
  SPSCRingBuffer.wf C rb ->
  let r := SPSCRingBuffer.tryPop C T_default moved_from rb in
  let q := spsc_contents C T_default rb in
  (r.1, spsc_contents C T_default r.2) = (head q, tail q).
Proof.
  intros Hwf r q. subst r q. pose proof spsc_capacity_pos as HC.
  pose proof Hwf as (Hh & Ht & Hl).
  pose proof (spsc_size_mod k rb k_range Hwf) as Hsz.
  unfold SPSCRingBuffer.tryPop. rewrite spsc_mask by lia.
  rewrite (mod_wrap C (SPSCRingBuffer.tail_ rb + 1)) by lia.
  set (h := SPSCRingBuffer.head_ rb) in *.
  set (tl := SPSCRingBuffer.tail_ rb) in *.
  destruct (Z.eqb_spec tl h) as [He | Hne]; cbn [fst snd].
  - unfold spsc_contents. rewrite Hsz. fold h tl.
    rewrite decide_True by lia.
    replace (h - tl) with 0 by lia. reflexivity.
  - set (rb' := SPSCRingBuffer.mk _ _ _).
    assert (SPSCRingBuffer.wf C rb') as Hwf'.
    { subst rb'. repeat split; cbn; try (repeat case_decide; lia).
      by rewrite length_insert. }
    pose proof (spsc_size_mod k rb' k_range Hwf') as Hsz'.
    assert (0 < SPSCRingBuffer.size C rb < C) as Hszr
        by (rewrite Hsz; fold h tl; repeat case_decide; lia).
    assert (SPSCRingBuffer.size C rb' = SPSCRingBuffer.size C rb - 1) as Hsz1.
    { rewrite Hsz', Hsz. subst rb'. cbn. fold h tl.
      repeat case_decide; lia. }
    unfold spsc_contents. rewrite Hsz1.
    destruct (Z.to_nat (SPSCRingBuffer.size C rb)) as [| m] eqn:Hm; [lia |].
    replace (Z.to_nat (SPSCRingBuffer.size C rb - 1)) with m by lia.
    cbn [seq fmap list_fmap head tail]. fold tl.
    rewrite Z.add_0_r, (Z.mod_small tl) by lia.
    f_equal. rewrite <- fmap_S_seq, <- list_fmap_compose.
    apply Forall_fmap_ext, Forall_forall. intros i Hi. apply elem_of_seq in Hi.
    subst rb'. cbn [SPSCRingBuffer.tail_ SPSCRingBuffer.buffer_ compose].
    assert ((((if decide (tl + 1 < C) then tl + 1 else tl + 1 - C)
              + Z.of_nat i) mod C) = (tl + Z.of_nat (S i)) mod C) as ->.
    { rewrite (mod_wrap C (tl + Z.of_nat (S i))) by lia.
      case_decide; rewrite mod_wrap by lia; repeat case_decide; lia. }
    rewrite list_lookup_insert_ne; [done |].
    rewrite (mod_wrap C (tl + Z.of_nat (S i))) by lia.
    repeat case_decide; lia.
Qed.

(** The buffer does what the bounded queue does. *)
Lemma spsc_step_refines (o : spsc_op T) (rb : SPSCRingBuffer.t) :
  SPSCRingBuffer.wf C rb ->
  let r := spsc_step C T_default moved_from o rb in
  SPSCRingBuffer.wf C r.2 /\
  (r.1, spsc_contents C T_default r.2) =
    fifo_step (C - 1) o (spsc_contents C T_default rb).
Proof.
  intros Hwf. destruct o as [x |]; cbn [spsc_step fifo_step].
  - pose proof (spsc_push_refines x rb Hwf) as H.
    pose proof (spsc_tryPush_wf k moved_from x rb k_range Hwf) as Hwf'.
    cbv zeta in H.
    destruct (SPSCRingBuffer.tryPush C moved_from x rb) as [[ok it] rb'].
    cbn [fst snd] in *. split; [exact Hwf' |].
    destruct (Z.of_nat (length (spsc_contents C T_default rb)) <? C - 1);
      by injection H as -> ->.
  - pose proof (spsc_pop_refines rb Hwf) as H.
    pose proof (spsc_tryPop_wf k T_default moved_from rb k_range Hwf) as Hwf'.
    cbv zeta in H.
    destruct (SPSCRingBuffer.tryPop C T_default moved_from rb) as [it rb'].
    cbn [fst snd] in *. split; [exact Hwf' |].
    injection H as -> ->. by destruct (spsc_contents C T_default rb).
Qed.

Lemma spsc_run_refines (ops : list (spsc_op T)) (rb : SPSCRingBuffer.t) :
  SPSCRingBuffer.wf C rb ->
  let r := spsc_run C T_default moved_from ops rb in
  let a := fifo_run (C - 1) ops (spsc_contents C T_default rb) in
  SPSCRingBuffer.wf C r.2 /\
  r.1 = a.1 /\
  spsc_contents C T_default r.2 = a.2.
Proof.
  revert rb. induction ops as [| o ops IH]; intros rb Hwf; [done |].
  cbn [spsc_run fifo_run].
  destruct (spsc_step_refines o rb Hwf) as [Hwf1 Hstep]. cbv zeta in *.
  destruct (spsc_step C T_default moved_from o rb) as [x rb1].
  cbn [fst snd] in *. rewrite <- Hstep.
  specialize (IH rb1 Hwf1).
  destruct (spsc_run C T_default moved_from ops rb1) as [xs rb2].
  destruct (fifo_run (C - 1) ops (spsc_contents C T_default rb1)) as [ys q2].
  cbn [fst snd] in *. destruct IH as (? & -> & ->). done.
Qed.

Lemma fifo_run_net (bound : Z) (ops : list (spsc_op T)) (q : list T) :
  let a := fifo_run bound ops q in
  Z.of_nat (length a.2) = Z.of_nat (length q) + net_stored a.1.
Proof.
  revert q. induction ops as [| o ops IH]; intros q; cbn [fifo_run]; [cbn; lia |].
  destruct o as [x |]; cbn [fifo_step].
  - destruct (Z.of_nat (length q) <? bound).
    + specialize (IH (q ++ [x])).
      destruct (fifo_run bound ops (q ++ [x])) as [ys q2]. cbn in *.
      rewrite length_app in IH. cbn in IH. lia.
    + specialize (IH q). destruct (fifo_run bound ops q) as [ys q2]. cbn in *.
      lia.
  - destruct q as [| y q].
    + specialize (IH []). destruct (fifo_run bound ops []) as [ys q2].
      cbn in *. lia.
    + specialize (IH q). destruct (fifo_run bound ops q) as [ys q2].
      cbn in *. lia.
Qed.

End spsc_queue_facts.

Lemma spsc_new_contents {T : Type} (C : Z) (d : T) :
  spsc_contents C d (SPSCRingBuffer.new C d) = [].
Proof.
  unfold spsc_contents, SPSCRingBuffer.size, SPSCRingBuffer.new; cbn.
  change (size_t 0) with 0. by rewrite Z.land_0_l.
Qed.

(** X10. A buffer whose capacity is a power of two behaves, over any
    sequence of [tryPush] and [tryPop] calls from its construction, as a
    first-in first-out queue of at most capacity - 1 items: a push
    succeeds exactly when fewer than capacity - 1 items are stored, and a
    pop returns the item stored longest, or nothing when none is. *)
Theorem spsc_is_bounded_fifo :
  forall (T : Type) (k : Z) (d : T) (mv : T -> T) (ops : list (spsc_op T)),
    0 <= k <= 63 ->
    (spsc_run (2 ^ k) d mv ops (SPSCRingBuffer.new (2 ^ k) d)).1 =
      (fifo_run (2 ^ k - 1) ops []).1.
Proof.
  intros T k d mv ops Hk.
  destruct (spsc_run_refines k Hk d mv ops _ (spsc_new_wf k d Hk))
    as (_ & H & _).
  by rewrite spsc_new_contents in H.
Qed.

(** Capacity 4: three pushes fit, the fourth does not; the pops return
    the items in the order pushed. *)
Lemma spsc_is_bounded_fifo_witness :
  (spsc_run (2 ^ 2) 0%nat id
     [DoPop; DoPush 7; DoPush 8; DoPush 9; DoPush 10; DoPop; DoPush 11;
      DoPop; DoPop; DoPop; DoPop]%nat
     (SPSCRingBuffer.new (2 ^ 2) 0%nat)).1 =
    [Popped None; Pushed true; Pushed true; Pushed true; Pushed false;
     Popped (Some 7); Pushed true; Popped (Some 8); Popped (Some 9);
     Popped (Some 11); Popped None]%nat.
Proof.
  rewrite (spsc_is_bounded_fifo nat 2 0%nat id _ ltac:(lia)).
  reflexivity.
Defined.

(** X11. After any sequence of [tryPush] and [tryPop] calls on a buffer
    whose capacity is a power of two, [size()] is the number of pushes
    that succeeded less the number of pops that returned an item, it
    lies between 0 and capacity - 1, [empty()] holds exactly when it is
    0, and both indices are inside the array. *)
Theorem spsc_size_counts_stored :
  forall (T : Type) (k : Z) (d : T) (mv : T -> T) (ops : list (spsc_op T)),
    0 <= k <= 63 ->
    let '(results, rb) :=
      spsc_run (2 ^ k) d mv ops (SPSCRingBuffer.new (2 ^ k) d) in
    SPSCRingBuffer.size (2 ^ k) rb = net_stored results /\
    0 <= SPSCRingBuffer.size (2 ^ k) rb <= 2 ^ k - 1 /\
    (SPSCRingBuffer.empty rb = true <-> net_stored results = 0) /\
    0 <= SPSCRingBuffer.head_ rb < 2 ^ k /\
    0 <= SPSCRingBuffer.tail_ rb < 2 ^ k.
Proof.
  intros T k d mv ops Hk.
  destruct (spsc_run_refines k Hk d mv ops _ (spsc_new_wf k d Hk))
    as (Hwf & Hres & Hcont).
  pose proof (fifo_run_net (2 ^ k - 1) ops (spsc_contents (2 ^ k) d
                                              (SPSCRingBuffer.new (2 ^ k) d)))
    as Hnet.
  cbv zeta in *.
  destruct (spsc_run (2 ^ k) d mv ops (SPSCRingBuffer.new (2 ^ k) d))
    as [results rb]. cbn [fst snd] in *.
  rewrite <- Hcont, <- Hres, spsc_contents_length, spsc_new_contents in Hnet.
  pose proof (spsc_size_mod k rb Hk Hwf) as Hsz.
  pose proof Hwf as (Hh & Ht & _).
  assert (0 <= SPSCRingBuffer.size (2 ^ k) rb <= 2 ^ k - 1) as Hr
      by (rewrite Hsz; case_decide; lia).
  cbn [length] in Hnet.
  assert (SPSCRingBuffer.size (2 ^ k) rb = net_stored results) as He by lia.
  split; [exact He |]. split; [exact Hr |]. split; [| done].
  rewrite <- He. unfold SPSCRingBuffer.empty. rewrite Z.eqb_eq.
  destruct (spsc_full_size k rb Hk Hwf) as [_ H]. exact H.
Qed.

(** Capacity 8, five pushes and two pops. *)
Lemma spsc_size_counts_stored_witness :
  SPSCRingBuffer.size (2 ^ 3)
    (spsc_run (2 ^ 3) 0%nat id
       [DoPush 1; DoPush 2; DoPop; DoPush 3; DoPush 4; DoPop; DoPush 5]%nat
       (SPSCRingBuffer.new (2 ^ 3) 0%nat)).2 = 3.
Proof.
  pose proof (spsc_size_counts_stored nat 3 0%nat id
                [DoPush 1; DoPush 2; DoPop; DoPush 3; DoPush 4; DoPop;
                 DoPush 5]%nat ltac:(lia)) as H.
  destruct (spsc_run _ _ _ _ _) as [results rb] eqn:Hrun.
  destruct H as [H _]. cbn [snd]. rewrite H.
  assert (results = (spsc_run (2 ^ 3) 0%nat id
       [DoPush 1; DoPush 2; DoPop; DoPush 3; DoPush 4; DoPop; DoPush 5]%nat
       (SPSCRingBuffer.new (2 ^ 3) 0%nat)).1) as -> by by rewrite Hrun.
  reflexivity.
Defined.

(** * The visibility graph *)

Import VisibilityGraph.

(** ** The visibility graph *)

Lemma flat_map_flat_map {A B C : Type} (f : B -> list C) (g : A -> list B)
    (l : list A) :
  flat_map f (flat_map g l) = flat_map (fun a => flat_map f (g a)) l.
Proof.
  induction l as [| a l IH]; simpl; [done |].
  by rewrite flat_map_app, IH.
Qed.

(** The chunks of the first [k] threads are the indices below
    [min (k * c) N], in order. *)
Lemma chunks_prefix (c N : Z) (k : nat) :
  0 <= c -> 0 <= N ->
  flat_map (fun t => seqZ (t * c) (Z.min (t * c + c) N - t * c))
           (seqZ 0 (Z.of_nat k))
  = seqZ 0 (Z.min (Z.of_nat k * c) N).
Proof.
  intros Hc HN. induction k as [| k IH].
  - simpl. by rewrite Z.min_l by lia.
  - rewrite Nat2Z.inj_succ, <- Z.add_1_r.
    rewrite seqZ_app by lia. rewrite flat_map_app, IH. simpl.
    rewrite app_nil_r, Z.add_0_l.
    destruct (Z_le_gt_dec (Z.of_nat k * c) N) as [Hle | Hgt].
    + rewrite (Z.min_l (Z.of_nat k * c) N) by lia.
      replace (Z.min ((Z.of_nat k + 1) * c) N)
        with (Z.of_nat k * c + (Z.min (Z.of_nat k * c + c) N - Z.of_nat k * c))
        by lia.
      rewrite seqZ_app by lia. by rewrite Z.add_0_l.
    + rewrite (seqZ_nil (Z.of_nat k * c)) by lia.
      rewrite app_nil_r. f_equal. nia.
Qed.

Lemma flat_map_ext_elem {A B : Type} (f g : A -> list B) (l : list A) :
  (forall a, a ∈ l -> f a = g a) -> flat_map f l = flat_map g l.
Proof.
  induction l as [| a l IH]; intros Hfg; simpl; [done |].
  rewrite Hfg by left. rewrite IH; [done |].
  intros b Hb. apply Hfg. by right.
Qed.

Lemma flat_map_indices {A B : Type} (f : A -> list B) (l : list A) :
  flat_map (fun i => match l !! Z.to_nat i with
                     | Some a => f a
                     | None => []
                     end)
           (seqZ 0 (Z.of_nat (length l)))
  = flat_map f l.
Proof.
  induction l as [| a l IH] using rev_ind; [done |].
  rewrite length_app, Nat2Z.inj_add. simpl.
  rewrite seqZ_app by lia. rewrite !flat_map_app. simpl.
  rewrite !app_nil_r.
  replace (Z.to_nat (Z.of_nat 0 + (0 + Z.of_nat (length l)))) with (length l)
    by lia.
  rewrite lookup_app_r by lia. rewrite Nat.sub_diag. simpl.
  f_equal. rewrite <- IH. apply flat_map_ext_elem.
  intros i Hi. apply elem_of_seqZ in Hi.
  rewrite lookup_app_l by lia. done.
Qed.

Lemma ceil_chunks (N T : Z) :
  0 <= N -> 0 < T ->
  0 <= Z.quot (N + T - 1) T /\ N <= T * Z.quot (N + T - 1) T.
Proof.
  intros HN HT. rewrite Z.quot_div_nonneg by lia.
  split; [apply Z.div_pos; lia |].
  pose proof (Z.div_mod (N + T - 1) T ltac:(lia)).
  pose proof (Z.mod_pos_bound (N + T - 1) T ltac:(lia)). lia.
Qed.

Section buildGraph_proofs.
Context {double : Type}.
Variable visible : @Satellite double -> @GroundStation double -> bool.
Variable elevation slant latency : @Satellite double -> @GroundStation double -> double.

(** The vectors of the threads, appended in the order of the threads, are
    what one loop over all satellites gives. *)
Lemma thread_results_merged (satellites_ : list Satellite)
    (stations_ : list GroundStation) (num_threads : Z) :
  0 < num_threads ->
  let N := Z.of_nat (length satellites_) in
  flat_map (thread_result visible elevation slant latency satellites_ stations_
              (Z.quot (N + num_threads - 1) num_threads) N)
           (seqZ 0 num_threads)
  = flat_map (edges_of_satellite visible elevation slant latency stations_)
             satellites_.
Proof.
  intros HT N.
  destruct (ceil_chunks N num_threads) as [Hc Hcover]; [lia | lia |].
  unfold thread_result.
  rewrite <- (flat_map_flat_map _
    (fun t => seqZ (t * _) (Z.min (t * _ + _) N - t * _))).
  replace (seqZ 0 num_threads) with (seqZ 0 (Z.of_nat (Z.to_nat num_threads)))
    by (by rewrite Z2Nat.id by lia).
  rewrite chunks_prefix by lia.
  rewrite Z2Nat.id by lia. rewrite Z.min_r by lia.
  apply flat_map_indices.
Qed.

End buildGraph_proofs.

Section buildGraph_theorems.
Context {double : Type}.
Variable visible : @Satellite double -> @GroundStation double -> bool.
Variable elevation slant latency : @Satellite double -> @GroundStation double -> double.

#[local] Abbreviation build := (buildGraph visible elevation slant latency).


(** An edge of one satellite's loop. *)
Lemma elem_of_edges_of_satellite (stations_ : list GroundStation)
    (sat : Satellite) (edge : VisibilityEdge) :
  edge ∈ edges_of_satellite visible elevation slant latency stations_ sat <->
  exists gs, gs ∈ stations_ /\ visible sat gs = true /\
    edge = mkEdge (sat_id sat) (gs_id gs) (elevation sat gs) (slant sat gs)
                  (latency sat gs).
Proof.
  unfold edges_of_satellite. rewrite list_elem_of_omap.
  split.
  - intros (gs & Hin & Hv). exists gs.
    destruct (visible sat gs); [| done]. by simplify_eq.
  - intros (gs & Hin & Hv & ->). exists gs. by rewrite Hv.
Qed.

(** The edges of the graph that is built: one for each satellite and
    station that are visible to each other. *)
Lemma built_graph_edge (satellites_ : list Satellite)
    (stations_ : list GroundStation) (num_threads : Z)
    (edges_ : list VisibilityEdge) (satellite station : Z) :
  build satellites_ stations_ num_threads = Some edges_ ->
  (exists edge, edge ∈ edges_ /\ satellite_id edge = satellite /\
     station_id edge = station) <->
  (exists sat gs, sat ∈ satellites_ /\ gs ∈ stations_ /\
     sat_id sat = satellite /\ gs_id gs = station /\ visible sat gs = true).
Proof.
  intros Hbuild.
  assert (Hedges : edges_
    = flat_map (edges_of_satellite visible elevation slant latency stations_)
               satellites_).
  { unfold buildGraph in Hbuild.
    destruct (num_threads <=? 0) eqn:HT; [done |].
    destruct (INT_MAX <? _) eqn:Hmax; [done |].
    simpl in Hbuild. injection Hbuild as <-.
    apply thread_results_merged. lia. }
  subst edges_. split.
  - intros (edge & Hin & <- & <-).
    apply list_elem_of_In, in_flat_map in Hin as (sat & Hsat & Hin).
    apply list_elem_of_In in Hsat, Hin.
    apply elem_of_edges_of_satellite in Hin as (gs & Hgs & Hv & ->).
    by exists sat, gs.
  - intros (sat & gs & Hsat & Hgs & <- & <- & Hv).
    exists (mkEdge (sat_id sat) (gs_id gs) (elevation sat gs) (slant sat gs)
                   (latency sat gs)).
    split; [| done].
    apply list_elem_of_In, in_flat_map. exists sat.
    split; [by apply list_elem_of_In |].
    apply list_elem_of_In, elem_of_edges_of_satellite. by exists gs.
Qed.


End buildGraph_theorems.

(** What a loop of [m[k e].push_back(v e)] leaves at a key: the values of
    the elements with that key, in the order of the loop, and no entry
    when there is none. *)
Lemma push_back_loop {A : Type} (k v : A -> Z) (l : list A) (key : Z) :
  foldl (fun m e => push_back_at (k e) (v e) m) ∅ l !! key
  = match v <$> filter (fun e => k e = key) l with
    | [] => None
    | vs => Some vs
    end.
Proof.
  induction l as [| e l IH] using rev_ind; [done |].
  rewrite foldl_app. simpl. unfold push_back_at at 1.
  rewrite filter_app, fmap_app.
  destruct (decide (k e = key)) as [Heq | Hne].
  - rewrite Heq, lookup_insert_eq, IH.
    rewrite (filter_cons_True _ e) by done. simpl.
    by destruct (v <$> filter _ l).
  - rewrite lookup_insert_ne, IH by done.
    rewrite (filter_cons_False _ e) by done. simpl.
    by rewrite app_nil_r.
Qed.

Lemma increment_loop {A : Type} (k : A -> Z) (l : list A) (key : Z) :
  foldl (fun m e => increment_at (k e) m) ∅ l !! key
  = match filter (fun e => k e = key) l with
    | [] => None
    | es => Some (Z.of_nat (length es))
    end.
Proof.
  induction l as [| e l IH] using rev_ind; [done |].
  rewrite foldl_app. simpl. unfold increment_at at 1.
  rewrite filter_app.
  destruct (decide (k e = key)) as [Heq | Hne].
  - rewrite Heq, lookup_insert_eq, IH.
    rewrite (filter_cons_True _ e) by done. simpl.
    destruct (filter _ l) as [| e' es]; simpl; [done |].
    f_equal. rewrite length_app. simpl. lia.
  - rewrite lookup_insert_ne, IH by done.
    rewrite (filter_cons_False _ e) by done. simpl.
    by rewrite app_nil_r.
Qed.

Section graph_queries.
Context {double : Type}.
#[local] Abbreviation edge_list := (list (@VisibilityEdge double)).

Lemma count_coverage_split (edges_ : edge_list) :
  count_coverage edges_
  = (foldl (fun m e => increment_at (station_id e) m) ∅ edges_,
     foldl (fun m e => push_back_at (station_id e) (satellite_id e) m) ∅ edges_).
Proof.
  unfold count_coverage.
  induction edges_ as [| e l IH] using rev_ind; [done |].
  rewrite !foldl_app. simpl. by rewrite IH.
Qed.

Lemma coverage_map_lookup (edges_ : edge_list) (sat : Z) :
  coverage_map edges_ !! sat
  = match stationsCoveredBy edges_ sat with
    | [] => None
    | stations => Some stations
    end.
Proof. apply (push_back_loop satellite_id station_id). Qed.

Lemma collect_critical_elem (entries : list (Z * Z)) (sats : gmap Z (list Z))
    (acc : gset Z) (x : Z) :
  x ∈ foldl (fun critical '(station, count) =>
               if count =? 1
               then match default [] (sats !! station) with
                    | sat :: _ => {[sat]} ∪ critical
                    | [] => critical
                    end
               else critical)
            acc entries
  <-> x ∈ acc \/
      exists station rest,
        (station, 1) ∈ entries /\ default [] (sats !! station) = x :: rest.
Proof.
  revert acc. induction entries as [| [station count] entries IH]; intros acc.
  - simpl. split; [by left |]. intros [H | (st & rest & H & _)]; [done |].
    by apply elem_of_nil in H.
  - simpl. rewrite IH. clear IH. split.
    + intros [Hacc | (st & rest & Hin & Hst)].
      * destruct (count =? 1) eqn:Hc; [| by left].
        apply Z.eqb_eq in Hc as ->.
        destruct (default [] (sats !! station)) as [| sat rest] eqn:Hs;
          [by left |].
        apply elem_of_union in Hacc as [Hx | Hacc]; [| by left].
        apply elem_of_singleton in Hx as ->.
        right. exists station, rest. split; [left | done].
      * right. exists st, rest. split; [by right | done].
    + intros [Hacc | (st & rest & Hin & Hst)].
      * left. destruct (count =? 1); [| done].
        destruct (default [] (sats !! station)); [done |].
        apply elem_of_union. by right.
      * apply elem_of_cons in Hin as [Heq | Hin].
        -- injection Heq as <- <-. left. simpl. rewrite Hst.
           apply elem_of_union. left. by apply elem_of_singleton.
        -- right. by exists st, rest.
Qed.

(** X14. With edges that [int] can count, [findCriticalSatellites]
    returns, each once, the satellites that are the only one seen from
    some station: those [sat] for which the
    satellites visible from some station are the one-element list
    [[sat]]. *)
Theorem findCriticalSatellites_sole_coverage (edges_ : edge_list) (sat : Z) :
  Z.of_nat (length edges_) <= INT_MAX ->
  NoDup (findCriticalSatellites edges_) /\
  (sat ∈ findCriticalSatellites edges_ <->
   exists station, satellitesVisibleFrom edges_ station = [sat]).
Proof.
  intros _. unfold findCriticalSatellites.
  rewrite count_coverage_split.
  split; [apply NoDup_elements |].
  rewrite elem_of_elements. unfold collect_critical.
  rewrite collect_critical_elem.
  split.
  - intros [Hempty | (station & rest & Hin & Hst)];
      [by apply elem_of_empty in Hempty |].
    exists station.
    apply elem_of_map_to_list in Hin.
    rewrite increment_loop in Hin.
    rewrite (push_back_loop station_id satellite_id) in Hst.
    unfold satellitesVisibleFrom.
    destruct (filter _ edges_) as [| e [| e' es]]; simpl in *; try done.
    + by simplify_eq.
    + injection Hin as Hlen. lia.
  - intros (station & Hst). right. exists station, [].
    rewrite elem_of_map_to_list, increment_loop.
    rewrite (push_back_loop station_id satellite_id).
    unfold satellitesVisibleFrom in Hst.
    destruct (filter _ edges_) as [| e [| e' es]]; simpl in *; try done.
Qed.

End graph_queries.

(** A positive count is a station that is still uncovered. *)
Lemma count_uncovered_pos (uncovered : gset Z) (covered_stations : list Z) :
  0 < count_uncovered uncovered covered_stations <->
  exists s, s ∈ covered_stations /\ s ∈ uncovered.
Proof.
  unfold count_uncovered. split.
  - intros Hpos.
    destruct (filter (fun s => s ∈ uncovered) covered_stations) as [| s l] eqn:Hf;
      [simpl in Hpos; lia |].
    assert (Hs : s ∈ filter (fun s => s ∈ uncovered) covered_stations)
      by (rewrite Hf; left).
    apply list_elem_of_filter in Hs as [? ?]. by exists s.
  - intros (s & Hin & Hun).
    assert (Hs : s ∈ filter (fun s => s ∈ uncovered) covered_stations)
      by (by apply list_elem_of_filter).
    destruct (filter _ covered_stations); [by apply elem_of_nil in Hs |].
    simpl. lia.
Qed.

(** The inner loop: the satellite it leaves in [best_sat] has the largest
    count, and has been set only by a count above the one it started
    from. *)
Lemma best_satellite_from (uncovered : gset Z) (entries : list (Z * list Z))
    (best_sat0 best_count0 : Z) :
  let '(best_sat, best_count) :=
    foldl (fun '(best_sat, best_count) '(sat, covered_stations) =>
             let count := count_uncovered uncovered covered_stations in
             if count >? best_count then (sat, count) else (best_sat, best_count))
          (best_sat0, best_count0) entries in
  best_count0 <= best_count /\
  (forall sat l, (sat, l) ∈ entries -> count_uncovered uncovered l <= best_count) /\
  ((best_sat, best_count) = (best_sat0, best_count0) \/
   best_count0 < best_count /\
   exists l, (best_sat, l) ∈ entries /\ count_uncovered uncovered l = best_count).
Proof.
  revert best_sat0 best_count0.
  induction entries as [| [sat l] entries IH]; intros best_sat0 best_count0.
  - simpl. split; [lia |]. split; [| by left].
    intros ? ? H. by apply elem_of_nil in H.
  - simpl.
    destruct (count_uncovered uncovered l >? best_count0) eqn:Hgt.
    + specialize (IH sat (count_uncovered uncovered l)).
      destruct (foldl _ _ entries) as [b c].
      destruct IH as (Hle & Hmax & Hset).
      split; [lia |]. split.
      * intros sat' l' Hin. apply elem_of_cons in Hin as [Heq | Hin].
        -- by injection Heq as -> ->.
        -- by eapply Hmax.
      * right. split; [lia |].
        destruct Hset as [Heq | (Hlt & l' & Hin & Hc)].
        -- injection Heq as -> ->. exists l. split; [left | done].
        -- exists l'. split; [by right | done].
    + specialize (IH best_sat0 best_count0).
      destruct (foldl _ _ entries) as [b c].
      destruct IH as (Hle & Hmax & Hset).
      split; [lia |]. split.
      * intros sat' l' Hin. apply elem_of_cons in Hin as [Heq | Hin].
        -- injection Heq as -> ->. lia.
        -- by eapply Hmax.
      * destruct Hset as [Heq | (Hlt & l' & Hin & Hc)]; [by left |].
        right. split; [done |]. exists l'. split; [by right | done].
Qed.

Lemma best_satellite_cases (uncovered : gset Z) (entries : list (Z * list Z)) :
  let '(best_sat, best_count) := best_satellite uncovered entries in
  (best_sat = -1 /\
   forall sat l s, (sat, l) ∈ entries -> s ∈ l -> s ∉ uncovered) \/
  (exists l s, (best_sat, l) ∈ entries /\ s ∈ l /\ s ∈ uncovered).
Proof.
  unfold best_satellite.
  pose proof (best_satellite_from uncovered entries (-1) 0) as H.
  destruct (foldl _ _ entries) as [b c].
  destruct H as (Hle & Hmax & [Heq | (Hlt & l & Hin & Hc)]).
  - left. injection Heq as -> ->. split; [done |].
    intros sat l s Hin Hs Hun.
    specialize (Hmax sat l Hin).
    assert (0 < count_uncovered uncovered l)
      by (apply count_uncovered_pos; by exists s).
    lia.
  - right. assert (Hpos : 0 < count_uncovered uncovered l) by lia.
    apply count_uncovered_pos in Hpos as (s & ? & ?). by exists l, s.
Qed.

Section cover_loop_proofs.

Variable coverage : gmap Z (list Z).
Variable entries : list (Z * list Z).
Variable M : nat.
Hypothesis entries_of_coverage :
  forall sat l, (sat, l) ∈ entries <-> coverage !! sat = Some l.

#[local] Abbreviation stations_of sat := (default [] (coverage !! sat)).
#[local] Abbreviation cover_inv := (VisibilityGraph.cover_inv coverage M).
#[local] Abbreviation cover_post := (VisibilityGraph.cover_post coverage M).

Lemma cover_inv_select (uncovered : gset Z) (selected : list Z)
    (best_sat : Z) (l : list Z) (j : Z) :
  cover_inv uncovered selected ->
  best_sat <> -1 -> coverage !! best_sat = Some l ->
  j ∈ l -> j ∈ uncovered ->
  cover_inv (uncovered ∖ list_to_set (stations_of best_sat))
            (selected ++ [best_sat]) /\
  (size (uncovered ∖ list_to_set (stations_of best_sat)) < size uncovered)%nat.
Proof.
  intros (Hkeys & Hadds & Hgone & Hcov & Hrange & Hsize) Hne Hl Hjl Hju.
  assert (Hst : stations_of best_sat = l) by (by rewrite Hl).
  rewrite Hst.
  assert (Hlt : (size (uncovered ∖ list_to_set l) < size uncovered)%nat).
  { apply subset_size. split; [intros x Hx; by apply elem_of_difference in Hx as [? _] |].
    intros Hsub. specialize (Hsub j Hju).
    apply elem_of_difference in Hsub as [_ Hn]. apply Hn.
    by apply elem_of_list_to_set. }
  split; [| done].
  split; [| split; [| split; [| split; [| split]]]].
  - intros s Hs. apply elem_of_app in Hs as [Hs | Hs]; [by apply Hkeys |].
    apply list_elem_of_singleton in Hs as ->. split; [done |]. by rewrite Hl.
  - intros i s Hi.
    destruct (decide (i < length selected)%nat) as [Hlti | Hge].
    + rewrite lookup_app_l in Hi by done.
      destruct (Hadds i s Hi) as (j' & Hr & Hin & Hfresh).
      exists j'. split; [done |]. split; [done |].
      intros i' s' Hlt' Hi'. rewrite lookup_app_l in Hi' by lia.
      by eapply Hfresh.
    + rewrite lookup_app_r in Hi by lia.
      destruct (i - length selected)%nat as [| n] eqn:Hn; [| done].
      simpl in Hi. injection Hi as <-.
      exists j. split; [by apply Hrange |]. split; [by rewrite Hst |].
      intros i' s' Hlt' Hi'. rewrite lookup_app_l in Hi' by lia.
      intros Hjs. eapply Hgone; [| exact Hjs | exact Hju].
      by eapply list_elem_of_lookup_2.
  - intros s j' Hs Hj' Hun. apply elem_of_difference in Hun as [Hun Hnl].
    apply elem_of_app in Hs as [Hs | Hs]; [by eapply Hgone |].
    apply list_elem_of_singleton in Hs as ->. rewrite Hst in Hj'.
    apply Hnl. by apply elem_of_list_to_set.
  - intros j' Hr Hun.
    destruct (decide (j' ∈ uncovered)) as [Hin | Hnin].
    + exists best_sat. split; [apply elem_of_app; right; left |].
      rewrite Hst. destruct (decide (j' ∈ l)); [done |].
      exfalso. apply Hun. apply elem_of_difference. split; [done |].
      by rewrite elem_of_list_to_set.
    + destruct (Hcov j' Hr Hnin) as (s & Hs & Hjs).
      exists s. split; [apply elem_of_app; by left | done].
  - intros j' Hj'. apply elem_of_difference in Hj' as [Hj' _]. by apply Hrange.
  - rewrite length_app. simpl. lia.
Qed.

Lemma cover_loop_spec (fuel : nat) (uncovered : gset Z) (selected : list Z) :
  cover_inv uncovered selected ->
  (size uncovered < fuel)%nat ->
  exists selected',
    cover_loop fuel entries coverage uncovered selected = Some selected' /\
    cover_post selected'.
Proof.
  revert uncovered selected.
  induction fuel as [| fuel IH]; intros uncovered selected Hinv Hfuel; [lia |].
  simpl.
  assert (Hbase : forall (Hleft : coverage !! (-1) = None ->
                     forall j, j ∈ uncovered ->
                       (exists sat, j ∈ stations_of sat) -> False),
            cover_post selected).
  { intros Hleft.
    destruct Hinv as (Hkeys & Hadds & Hgone & Hcov & Hrange & Hsize).
    split; [done |]. split; [done |]. split; [lia |].
    intros Hno j Hr Hex.
    destruct (decide (j ∈ uncovered)) as [Hin | Hnin]; [| by apply Hcov].
    exfalso. by eapply Hleft. }
  destruct (decide (uncovered = ∅)) as [Hempty | Hnonempty].
  { exists selected. split; [done |]. apply Hbase.
    intros _ j Hj. rewrite Hempty in Hj. by apply elem_of_empty in Hj. }
  pose proof (best_satellite_cases uncovered entries) as Hbest.
  destruct (best_satellite uncovered entries) as [best_sat best_count].
  destruct (best_sat =? -1) eqn:Hsentinel.
  { apply Z.eqb_eq in Hsentinel as ->.
    exists selected. split; [done |]. apply Hbase.
    intros Hno j Hj (sat & Hsat).
    destruct Hbest as [[_ Hnone] | (l & s & Hin & _)].
    - destruct (coverage !! sat) as [l |] eqn:Hl;
        [| by apply elem_of_nil in Hsat].
      apply entries_of_coverage in Hl. by eapply Hnone.
    - apply entries_of_coverage in Hin. by rewrite Hno in Hin. }
  apply Z.eqb_neq in Hsentinel.
  destruct Hbest as [[Heq _] | (l & j & Hin & Hjl & Hju)]; [done |].
  apply entries_of_coverage in Hin.
  destruct (cover_inv_select uncovered selected best_sat l j)
    as [Hinv' Hlt]; try done.
  apply IH; [done | lia].
Qed.

End cover_loop_proofs.

Section minimumCoverage_proofs.
Context {double : Type}.

Lemma stations_of_coverage_map (edges_ : list (@VisibilityEdge double))
    (sat : Z) :
  default [] (coverage_map edges_ !! sat) = stationsCoveredBy edges_ sat.
Proof.
  rewrite coverage_map_lookup. by destruct (stationsCoveredBy edges_ sat).
Qed.

Lemma stationsCoveredBy_elem (edges_ : list (@VisibilityEdge double))
    (sat station : Z) :
  station ∈ stationsCoveredBy edges_ sat <->
  exists edge, edge ∈ edges_ /\ satellite_id edge = sat /\
    station_id edge = station.
Proof.
  unfold stationsCoveredBy. rewrite list_elem_of_fmap.
  setoid_rewrite list_elem_of_filter. split.
  - intros (edge & -> & Hsat & Hin). by exists edge.
  - intros (edge & Hin & Hsat & <-). by exists edge.
Qed.

Lemma cover_inv_initial (coverage : gmap Z (list Z)) (M : nat) :
  cover_inv coverage M (list_to_set (seqZ 0 (Z.of_nat M))) [].
Proof.
  split; [| split; [| split; [| split; [| split]]]].
  - intros s Hs. by apply elem_of_nil in Hs.
  - intros i s Hi. done.
  - intros s j Hs. by apply elem_of_nil in Hs.
  - intros j Hr Hun. exfalso. apply Hun.
    apply elem_of_list_to_set, elem_of_seqZ. lia.
  - intros j Hj. apply elem_of_list_to_set, elem_of_seqZ in Hj. lia.
  - rewrite size_list_to_set by apply NoDup_seqZ.
    rewrite length_seqZ. simpl. lia.
Qed.

Lemma minimumCoverageSatellites_spec
    (order : gmap Z (list Z) -> list (Z * list Z))
    (edges_ : list (@VisibilityEdge double))
    (stations_ : list (@GroundStation double)) :
  (forall m, order m ≡ₚ map_to_list m) ->
  exists selected,
    minimumCoverageSatellites order edges_ stations_ = Some selected /\
    NoDup selected /\
    (length selected <= length stations_)%nat /\
    (forall i s, selected !! i = Some s ->
       s <> -1 /\
       exists j, 0 <= j < Z.of_nat (length stations_) /\
         j ∈ stationsCoveredBy edges_ s /\
         forall i' s', (i' < i)%nat -> selected !! i' = Some s' ->
           j ∉ stationsCoveredBy edges_ s') /\
    ((forall edge, edge ∈ edges_ -> satellite_id edge <> -1) ->
     forall edge, edge ∈ edges_ ->
       0 <= station_id edge < Z.of_nat (length stations_) ->
       exists s, s ∈ selected /\ station_id edge ∈ stationsCoveredBy edges_ s).
Proof.
  intros Horder. unfold minimumCoverageSatellites.
  destruct (cover_loop_spec (coverage_map edges_) (order (coverage_map edges_))
              (length stations_)
              ltac:(intros sat l; rewrite Horder; apply elem_of_map_to_list)
              (S (length stations_))
              (list_to_set (seqZ 0 (Z.of_nat (length stations_)))) [])
    as (selected & Hloop & Hkeys & Hadds & Hlen & Hall).
  { apply cover_inv_initial. }
  { rewrite size_list_to_set by apply NoDup_seqZ. rewrite length_seqZ. lia. }
  exists selected. split; [done |].
  assert (Hadds' : forall i s, selected !! i = Some s ->
       exists j, 0 <= j < Z.of_nat (length stations_) /\
         j ∈ stationsCoveredBy edges_ s /\
         forall i' s', (i' < i)%nat -> selected !! i' = Some s' ->
           j ∉ stationsCoveredBy edges_ s').
  { intros i s Hi. destruct (Hadds i s Hi) as (j & Hr & Hj & Hfresh).
    exists j. split; [done |].
    rewrite <- stations_of_coverage_map. split; [done |].
    intros i' s' Hlt Hi'. rewrite <- stations_of_coverage_map.
    by eapply Hfresh. }
  split; [| split; [done | split]].
  - apply NoDup_alt. intros i1 i2 s H1 H2.
    destruct (Nat.lt_trichotomy i1 i2) as [Hlt | [Heq | Hgt]]; [| done |].
    + destruct (Hadds' i2 s H2) as (j & _ & Hj & Hfresh).
      by destruct (Hfresh i1 s Hlt H1).
    + destruct (Hadds' i1 s H1) as (j & _ & Hj & Hfresh).
      by destruct (Hfresh i2 s Hgt H2).
  - intros i s Hi. split; [| by apply Hadds'].
    apply Hkeys. by eapply list_elem_of_lookup_2.
  - intros Hids edge Hin Hr.
    destruct (Hall) with (j := station_id edge) as (s & Hs & Hj).
    + rewrite coverage_map_lookup.
      destruct (stationsCoveredBy edges_ (-1)) as [| st l] eqn:Hcov; [done |].
      assert (Hst : st ∈ stationsCoveredBy edges_ (-1))
        by (rewrite Hcov; left).
      apply stationsCoveredBy_elem in Hst as (e & He & Hsat & _).
      by destruct (Hids e He).
    + done.
    + exists (satellite_id edge). rewrite stations_of_coverage_map.
      apply stationsCoveredBy_elem. by exists edge.
    + exists s. split; [done |]. by rewrite <- stations_of_coverage_map.
Qed.

(** X15. With edges and stations that [int] can count,
    [minimumCoverageSatellites] returns, whatever the order in which
    the coverage map is traversed. No satellite is returned twice, and
    there are at most as many as stations: each one covers a station
    index that none of those before it in the result covers. None has id
    [-1]. And when no edge has satellite id [-1], every station index
    below the number of stations that some satellite covers is covered by
    a satellite of the result. *)
Theorem minimumCoverageSatellites_covers
    (order : gmap Z (list Z) -> list (Z * list Z))
    (edges_ : list (@VisibilityEdge double))
    (stations_ : list (@GroundStation double)) :
  (forall m, order m ≡ₚ map_to_list m) ->
  Z.of_nat (length edges_) <= INT_MAX ->
  Z.of_nat (length stations_) <= INT_MAX ->
  exists selected,
    minimumCoverageSatellites order edges_ stations_ = Some selected /\
    NoDup selected /\
    (length selected <= length stations_)%nat /\
    (forall i s, selected !! i = Some s ->
       s <> -1 /\
       exists j, 0 <= j < Z.of_nat (length stations_) /\
         j ∈ stationsCoveredBy edges_ s /\
         forall i' s', (i' < i)%nat -> selected !! i' = Some s' ->
           j ∉ stationsCoveredBy edges_ s') /\
    ((forall edge, edge ∈ edges_ -> satellite_id edge <> -1) ->
     forall edge, edge ∈ edges_ ->
       0 <= station_id edge < Z.of_nat (length stations_) ->
       exists s, s ∈ selected /\ station_id edge ∈ stationsCoveredBy edges_ s).
Proof. intros Horder _ _. by apply minimumCoverageSatellites_spec. Qed.

End minimumCoverage_proofs.

Section generator_proofs.
Context {double : Type}.
Variable literal : Z -> Z -> double.
Variable orbit_position : Z -> Z -> double -> Z -> Z -> @GeoCoord double.

#[local] Abbreviation plane_loop :=
  (constellation_plane literal orbit_position).
#[local] Abbreviation constellation :=
  (generateStarlinkConstellation literal orbit_position).
#[local] Abbreviation ground_stations := (generateGroundStations literal).

(** The inner loop appends one satellite for each slot and counts [id]
    up by one for each. *)
Lemma constellation_plane_appends (num_planes sats_per_plane : Z)
    (altitude inclination_deg : double) (p : Z) (slots : list Z)
    (sats : list Satellite) (id : Z) :
  foldl (fun '(sats, id) s =>
           (sats ++ [{| sat_id := id;
                        sat_position :=
                          orbit_position num_planes sats_per_plane
                            inclination_deg p s;
                        altitude_km := altitude;
                        orbital_plane := p;
                        sat_capacity_mbps := literal 2500 (-1) |}],
            id + 1))
        (sats, id) slots
  = (sats ++ imap (fun k s =>
                     {| sat_id := id + Z.of_nat k;
                        sat_position :=
                          orbit_position num_planes sats_per_plane
                            inclination_deg p s;
                        altitude_km := altitude;
                        orbital_plane := p;
                        sat_capacity_mbps := literal 2500 (-1) |}) slots,
     id + Z.of_nat (length slots)).
Proof.
  revert sats id. induction slots as [| s slots IH]; intros sats id.
  - simpl. by rewrite app_nil_r, Z.add_0_r.
  - simpl. rewrite IH. rewrite <- app_assoc. simpl.
    rewrite Z.add_0_r. f_equal.
    + f_equal. f_equal. apply imap_ext. intros k s' _. simpl.
      f_equal. lia.
    + lia.
Qed.

(** After the planes below [k]: as many satellites as [id] counts, each
    with its index as id, in the plane its index falls in. *)
Lemma constellation_planes (num_planes sats_per_plane : Z)
    (altitude inclination_deg : double) (k : nat) :
  let state :=
    foldl (fun state p =>
             plane_loop num_planes sats_per_plane altitude inclination_deg
               p state)
          ([], 0) (seqZ 0 (Z.of_nat k)) in
  let S' := Z.of_nat (Z.to_nat sats_per_plane) in
  state.2 = Z.of_nat (length state.1) /\
  Z.of_nat (length state.1) = Z.of_nat k * S' /\
  forall i sat, state.1 !! i = Some sat ->
    sat_id sat = Z.of_nat i /\
    0 <= orbital_plane sat < Z.of_nat k /\
    orbital_plane sat * S' <= Z.of_nat i < (orbital_plane sat + 1) * S'.
Proof.
  induction k as [| k IH].
  - simpl. split; [done |]. split; [done |]. intros i sat Hi. done.
  - rewrite Nat2Z.inj_succ, <- Z.add_1_r.
    rewrite seqZ_app by lia. rewrite foldl_app. simpl.
    destruct (foldl _ _ (seqZ 0 (Z.of_nat k))) as [sats id].
    simpl in IH. destruct IH as (Hid & Hlen & Hsats).
    unfold constellation_plane. rewrite constellation_plane_appends.
    simpl. rewrite length_app, length_imap, length_seqZ.
    split; [lia |]. split; [lia |].
    intros i sat Hi.
    destruct (decide (i < length sats)%nat) as [Hlt | Hge].
    + rewrite lookup_app_l in Hi by done.
      destruct (Hsats i sat Hi) as (? & ? & ?).
      split; [done |]. split; [lia | done].
    + rewrite lookup_app_r in Hi by lia.
      rewrite list_lookup_imap in Hi.
      destruct (seqZ 0 sats_per_plane !! (i - length sats)%nat) as [s |] eqn:Hs;
        [| done].
      apply lookup_seqZ in Hs as [_ Hs].
      simpl in Hi. injection Hi as <-. simpl.
      split; [lia |]. split; [lia |]. lia.
Qed.

Lemma constellation_index (num_planes sats_per_plane : Z)
    (altitude inclination_deg : double) :
  let sats := constellation num_planes sats_per_plane altitude inclination_deg in
  Z.of_nat (length sats) = Z.max 0 num_planes * Z.max 0 sats_per_plane /\
  forall i sat, sats !! i = Some sat ->
    sat_id sat = Z.of_nat i /\
    orbital_plane sat = Z.of_nat i / sats_per_plane /\
    0 <= orbital_plane sat < num_planes.
Proof.
  unfold generateStarlinkConstellation.
  pose proof (constellation_planes num_planes sats_per_plane altitude
                inclination_deg (Z.to_nat num_planes)) as H.
  simpl in H.
  destruct (Z_le_gt_dec num_planes 0) as [Hle | Hgt].
  - rewrite seqZ_nil by lia. simpl. split; [lia |]. done.
  - rewrite Z2Nat.id in H by lia.
    destruct (foldl _ _ (seqZ 0 num_planes)) as [sats id].
    simpl in *. destruct H as (_ & Hlen & Hsats).
    split; [lia |].
    intros i sat Hi. destruct (Hsats i sat Hi) as (Hid & Hp & Hrange).
    split; [done |]. split; [| lia].
    apply Z.div_unique with
      (r := Z.of_nat i - orbital_plane sat * sats_per_plane); lia.
Qed.

(** X16. [generateStarlinkConstellation] gives [num_planes *
    sats_per_plane] satellites, none if either is negative. The satellite
    at index [i] has id [i] and is in plane [i / sats_per_plane]: ids are
    dense, distinct and never negative. *)
Theorem generateStarlinkConstellation_numbering (num_planes sats_per_plane : Z)
    (altitude inclination_deg : double) :
  Z.max 0 num_planes * Z.max 0 sats_per_plane <= INT_MAX ->
  let sats := constellation num_planes sats_per_plane altitude inclination_deg in
  Z.of_nat (length sats) = Z.max 0 num_planes * Z.max 0 sats_per_plane /\
  forall i sat, sats !! i = Some sat ->
    sat_id sat = Z.of_nat i /\
    orbital_plane sat = Z.of_nat i / sats_per_plane /\
    0 <= orbital_plane sat < num_planes.
Proof. intros _. apply constellation_index. Qed.

Lemma indexed_prefix {A B : Type} (g : Z -> A -> B) (l : list A) (k : nat) :
  (k <= length l)%nat ->
  let l' := flat_map (fun i => match l !! Z.to_nat i with
                               | Some a => [g i a]
                               | None => []
                               end)
                     (seqZ 0 (Z.of_nat k)) in
  length l' = k /\
  forall i b, l' !! i = Some b ->
    exists a, l !! i = Some a /\ b = g (Z.of_nat i) a.
Proof.
  induction k as [| k IH]; intros Hk.
  - simpl. split; [done |]. intros i b Hi. done.
  - rewrite Nat2Z.inj_succ, <- Z.add_1_r.
    rewrite seqZ_app by lia. rewrite flat_map_app. simpl.
    rewrite app_nil_r. 
    replace (Z.to_nat (Z.of_nat 0 + (0 + Z.of_nat k))) with k by lia.
    replace (Z.of_nat 0 + (0 + Z.of_nat k)) with (Z.of_nat k) by lia.
    destruct (lookup_lt_is_Some_2 l k ltac:(lia)) as [a Ha]. rewrite Ha.
    destruct IH as [Hlen Hl']; [lia |].
    rewrite length_app. simpl. split; [lia |].
    intros i b Hi.
    destruct (decide (i < k)%nat) as [Hlt | Hge].
    + rewrite lookup_app_l in Hi by lia. by apply Hl'.
    + rewrite lookup_app_r in Hi by lia. rewrite Hlen in Hi.
      destruct (i - k)%nat as [| n] eqn:Hn; [| done].
      simpl in Hi. injection Hi as <-.
      assert (i = k) as -> by lia. by exists a.
Qed.

Lemma ground_stations_index (count : Z) :
  let stations := ground_stations count in
  Z.of_nat (length stations) = Z.max 0 (Z.min count 20) /\
  forall i gs, stations !! i = Some gs ->
    gs_id gs = Z.of_nat i /\
    Some (gs_position gs) = city_coords literal !! i.
Proof.
  unfold generateGroundStations.
  change (Z.of_nat (length (city_coords literal))) with 20.
  destruct (Z_le_gt_dec (Z.min count 20) 0) as [Hle | Hgt].
  - rewrite seqZ_nil by lia. simpl. split; [lia | done].
  - pose proof (indexed_prefix
      (fun i position =>
         {| gs_id := i; gs_position := position;
            min_elevation_deg := MIN_ELEVATION_DEG literal;
            gs_capacity_mbps := literal 100000 (-1) |})
      (city_coords literal) (Z.to_nat (Z.min count 20))) as H.
    rewrite Z2Nat.id in H by lia.
    destruct H as [Hlen Hst]; [simpl; lia |].
    split; [lia |].
    intros i gs Hi. destruct (Hst i gs Hi) as (c & Hc & ->). by simpl.
Qed.

(** X17. [generateGroundStations(count)] gives [count] stations, none
    for a negative count and no more than the 20 cities of its table.
    The station at index [i] has id [i] and sits at the [i]-th city. *)
Theorem generateGroundStations_numbering (count : Z) :
  let stations := ground_stations count in
  Z.of_nat (length stations) = Z.max 0 (Z.min count 20) /\
  forall i gs, stations !! i = Some gs ->
    gs_id gs = Z.of_nat i /\
    Some (gs_position gs) = city_coords literal !! i.
Proof. apply ground_stations_index. Qed.

End generator_proofs.



Lemma findCriticalSatellites_sole_coverage_witness :
  2 ∈ findCriticalSatellites sample_edges <->
  exists station, satellitesVisibleFrom sample_edges station = [2].
Proof.
  apply (findCriticalSatellites_sole_coverage sample_edges 2).
  vm_compute. discriminate.
Defined.

Lemma minimumCoverageSatellites_covers_witness :
  exists selected,
    minimumCoverageSatellites map_to_list sample_edges sample_stations
      = Some selected /\
    NoDup selected /\ (length selected <= 3)%nat.
Proof.
  destruct (minimumCoverageSatellites_covers map_to_list sample_edges
              sample_stations
              ltac:(intros m; reflexivity)
              ltac:(vm_compute; discriminate)
              ltac:(vm_compute; discriminate))
    as (selected & Hrun & Hnodup & Hlen & _).
  exists selected. split; [exact Hrun |]. split; [exact Hnodup | exact Hlen].
Defined.

Section generated_network.
Context {double : Type}.
Variable literal : Z -> Z -> double.
Variable orbit_position : Z -> Z -> double -> Z -> Z -> @GeoCoord double.
Variable visible : @Satellite double -> @GroundStation double -> bool.
Variable elevation slant latency :
  @Satellite double -> @GroundStation double -> double.

(** X18. The program's run: a constellation and ground stations from the
    generators, the graph built from them, the greedy cover of the graph.
    Every station that sees a satellite at all sees one of the satellites
    the cover selects: the indices the cover works with are the ids the
    generator gave the stations, and no generated satellite has the id
    [-1] that the cover keeps for none. *)
Theorem generated_network_covered (num_planes sats_per_plane : Z)
    (altitude inclination_deg : double) (count num_threads : Z)
    (order : gmap Z (list Z) -> list (Z * list Z))
    (edges_ : list VisibilityEdge) :
  Z.max 0 num_planes * Z.max 0 sats_per_plane <= INT_MAX ->
  (forall m, order m ≡ₚ map_to_list m) ->
  let satellites :=
    generateStarlinkConstellation literal orbit_position num_planes
      sats_per_plane altitude inclination_deg in
  let stations := generateGroundStations literal count in
  buildGraph visible elevation slant latency satellites stations num_threads
    = Some edges_ ->
  exists selected,
    minimumCoverageSatellites order edges_ stations = Some selected /\
    forall gs, gs ∈ stations ->
      (exists sat, sat ∈ satellites /\ visible sat gs = true) ->
      exists sat, sat ∈ satellites /\ sat_id sat ∈ selected /\
        visible sat gs = true.
Proof.
  intros _ Horder satellites stations Hbuild.
  pose proof (built_graph_edge visible elevation slant latency satellites
                stations num_threads edges_) as Hedge.
  destruct (constellation_index literal orbit_position num_planes
              sats_per_plane altitude inclination_deg) as [_ Hsat_ids].
  destruct (ground_stations_index literal count) as [_ Hgs_ids].
  fold satellites in Hsat_ids. fold stations in Hgs_ids.
  destruct (minimumCoverageSatellites_spec order edges_ stations Horder)
    as (selected & Hrun & _ & _ & _ & Hall).
  exists selected. split; [done |].
  intros gs Hgs (sat & Hsat & Hvis).
  apply list_elem_of_lookup in Hgs as [i Hi].
  destruct (Hgs_ids i gs Hi) as [Hid _].
  assert (Hex : exists edge, edge ∈ edges_ /\
            satellite_id edge = sat_id sat /\ station_id edge = gs_id gs).
  { apply (Hedge _ _ Hbuild). exists sat, gs.
    split; [done |]. split; [by eapply list_elem_of_lookup_2 | done]. }
  destruct Hex as (edge & Hin & Hes & Hest).
  destruct (Hall) with (edge := edge) as (s & Hs & Hcov).
  - intros e He.
    assert (Hseen : exists sat' gs', sat' ∈ satellites /\ gs' ∈ stations /\
              sat_id sat' = satellite_id e /\ gs_id gs' = station_id e /\
              visible sat' gs' = true).
    { apply (Hedge _ _ Hbuild). by exists e. }
    destruct Hseen as (sat' & _ & Hsat' & _ & <- & _).
    apply list_elem_of_lookup in Hsat' as [k Hk].
    destruct (Hsat_ids k sat' Hk) as [-> _]. lia.
  - done.
  - rewrite Hest, Hid. apply lookup_lt_Some in Hi. lia.
  - apply stationsCoveredBy_elem in Hcov as (e & He & Hse & Hste).
    assert (Hseen : exists sat' gs', sat' ∈ satellites /\ gs' ∈ stations /\
              sat_id sat' = satellite_id e /\ gs_id gs' = station_id e /\
              visible sat' gs' = true).
    { apply (Hedge _ _ Hbuild). by exists e. }
    destruct Hseen as (sat' & gs' & Hsat' & Hgs' & Hid' & Hgid' & Hvis').
    apply list_elem_of_lookup in Hgs' as [i' Hi'].
    destruct (Hgs_ids i' gs' Hi') as [Hgsid' _].
    assert (i' = i) as -> by lia.
    assert (gs' = gs) as -> by congruence.
    exists sat'. split; [done |]. split; [| done]. by rewrite Hid', Hse.
Qed.

End generated_network.

Lemma generateStarlinkConstellation_numbering_witness :
  Z.of_nat (length (generateStarlinkConstellation (fun m e => m * 10 ^ (2 + e))
                      (fun _ _ _ p s => mkGeoCoord p s) 3 4 550 53))
  = Z.max 0 3 * Z.max 0 4.
Proof.
  apply (generateStarlinkConstellation_numbering (fun m e => m * 10 ^ (2 + e))
           (fun _ _ _ p s => mkGeoCoord p s) 3 4 550 53).
  vm_compute. discriminate.
Defined.

Lemma generated_network_covered_witness :
  exists selected,
    minimumCoverageSatellites map_to_list
      [mkEdge 0 0 0 0 0; mkEdge 1 0 1 1 1; mkEdge 1 1 0 0 0;
       mkEdge 2 1 1 1 1; mkEdge 2 2 0 0 0]
      (generateGroundStations (fun m e => m * 10 ^ (2 + e)) 3)
    = Some selected.
Proof.
  destruct (generated_network_covered (fun m e => m * 10 ^ (2 + e))
              (fun _ _ _ p s => mkGeoCoord p s)
              (fun sat gs => (0 <=? sat_id sat - gs_id gs)
                             && (sat_id sat - gs_id gs <=? 1))
              (fun sat gs => sat_id sat - gs_id gs)
              (fun sat gs => sat_id sat - gs_id gs)
              (fun sat gs => sat_id sat - gs_id gs)
              1 3 550 53 3 2 map_to_list
              [mkEdge 0 0 0 0 0; mkEdge 1 0 1 1 1; mkEdge 1 1 0 0 0;
               mkEdge 2 1 1 1 1; mkEdge 2 2 0 0 0]
              ltac:(vm_compute; discriminate)
              ltac:(intros m; reflexivity)
              ltac:(reflexivity))
    as (selected & Hrun & _).
  exists selected. exact Hrun.
Defined.
